(** * Brick-map voxel world and its two-level DDA traversal

    A shallow embedding of [src/showcase.js]:

    - the JavaScript class [BrickMapWorld] (lines 1456-1639): the sparse
      coarse grid, the lazily allocated bricks, voxel writes and reads,
      [clear], [countVoxels] and the atlas projection [buildAtlas];
    - the GLSL fragment-shader functions [intersectAABB], [getBrickIndex],
      [brickIndexToAtlasPos], [getVoxelFromBrick], [traceBrick] and
      [traceRay] (lines 1081-1288), over an IEEE-754 binary32 model of
      [highp float];
    - the part of [VoxelEngine.uploadWorld] / [render] that hands the world
      to the shader (lines 1799-1862);
    - [BrickMapWorld.getMemoryUsage] (lines 1629-1638) and the shadow ray
      [traceShadow] of the shader (lines 1291-1339);

    and of [src/engine.js]: the dense [VoxelWorld] (lines 330-385) and the
    single-level shader functions [getVoxel], [traceRay] and [traceShadow]
    (lines 57-207), against which the brick map is compared.

    Conventions.  JavaScript numbers that hold coordinates, indices and
    colour channels are integers far below 2^53 and are modelled by [Z];
    typed arrays keep their element width and their wrap-around on store;
    [undefined] is [None]; a thrown exception is the [Throw] completion. *)

From stdpp Require Import gmap list.
From Stdlib Require Import ZArith Lia Bool.
From Stdlib Require Import Floats.SpecFloat.

Open Scope Z_scope.

(** [lia] also decides goals with [/] and [mod] by a constant or a variable. *)
Ltac Zify.zify_post_hook ::= Z.to_euclidean_division_equations.

(* ===================================================================== *)
(** * JavaScript typed arrays                                             *)
(* ===================================================================== *)

(** A [Uint8Array] or [Uint32Array]: a fixed length, an element width, and
    the elements.  A fresh array is zero-filled, so the elements are kept
    sparsely: an index without an entry holds 0.  The atlas is a
    [Uint8Array] of (64*8)^3*4 bytes, most of them never written. *)
Module TypedArray.

Record t : Type := mk { bits : Z; length : Z; data : gmap Z Z }.

(** [new Uint8Array(n)] ([w = 8]) and [new Uint32Array(n)] ([w = 32]):
    a RangeError for a negative length. *)
Definition alloc (w n : Z) : option t :=
  if n <? 0 then None else Some (mk w n ∅).

Definition in_range (a : t) (i : Z) : bool := (0 <=? i) && (i <? length a).

(** [a[i]]: the element, or [undefined] outside the array. *)
Definition get (a : t) (i : Z) : option Z :=
  if in_range a i then Some (default 0 (data a !! i)) else None.

(** [a[i] = v] for an integer [v]: stored modulo 2^bits; a store outside
    the array is ignored. *)
Definition set (a : t) (i v : Z) : t :=
  if in_range a i
  then mk (bits a) (length a) (<[i := v mod 2 ^ bits a]> (data a))
  else a.

(** [a[i] = e] where [e] may be [undefined]: [undefined] converts to NaN,
    which is stored as 0. *)
Definition set_js (a : t) (i : Z) (e : option Z) : t := set a i (default 0 e).

(** [a.fill(0)] *)
Definition fill_zero (a : t) : t := mk (bits a) (length a) ∅.

End TypedArray.

(* ===================================================================== *)
(** * JavaScript [Map] with integer keys                                  *)
(* ===================================================================== *)

(** [Map] iterates in insertion order, and [buildAtlas] iterates over the
    brick map, so the entries are kept as an association list in insertion
    order.  [set] on a key that is present replaces the value in place. *)
Module JsMap.

Definition t (V : Type) : Type := list (Z * V).

Definition empty {V} : t V := [].

Fixpoint get {V} (m : t V) (k : Z) : option V :=
  match m with
  | [] => None
  | (k', v) :: m' => if Z.eqb k' k then Some v else get m' k
  end.

Fixpoint set {V} (m : t V) (k : Z) (v : V) : t V :=
  match m with
  | [] => [(k, v)]
  | (k', v') :: m' =>
      if Z.eqb k' k then (k, v) :: m' else (k', v') :: set m' k v
  end.

(** Mutation of the object stored under [k], through any reference to it. *)
Fixpoint alter {V} (f : V → V) (k : Z) (m : t V) : t V :=
  match m with
  | [] => []
  | (k', v) :: m' =>
      if Z.eqb k' k then (k', f v) :: m' else (k', v) :: alter f k m'
  end.

Definition keys {V} (m : t V) : list Z := fst <$> m.
Definition values {V} (m : t V) : list V := snd <$> m.

End JsMap.

(* ===================================================================== *)
(** * class BrickMapWorld                                                 *)
(* ===================================================================== *)

(** The object returned by [getVoxel]: four channel reads of a brick, each a
    number or [undefined]. *)
Module Voxel.
Record t : Type := mk { r : option Z; g : option Z; b : option Z; a : option Z }.
End Voxel.

Record BrickMapWorld : Type := mkWorld {
  coarseSize : Z;
  brickSize : Z;
  worldSize : Z;
  coarseGrid : TypedArray.t;                 (* Uint32Array *)
  bricks : JsMap.t TypedArray.t;             (* Map<brickIndex, Uint8Array> *)
  nextBrickIndex : Z;
  atlasSize : Z;
  brickAtlasData : option TypedArray.t;      (* null until buildAtlas *)
  voxelCount : Z;
  brickCount : Z
}.

(** How a method call ends: it returns a value and leaves a world, or it
    throws. *)
Inductive completion (A : Type) : Type :=
  | Normal (v : A) (w : BrickMapWorld)
  | Throw.
Arguments Normal {A} v w.
Arguments Throw {A}.

Definition method (A : Type) : Type := BrickMapWorld → completion A.

#[global] Instance method_ret : MRet method := λ A v w, Normal v w.

#[global] Instance method_bind : MBind method := λ A B k m w,
  match m w with
  | Normal v w' => k v w'
  | Throw => Throw
  end.

Definition set_coarseGrid (cg : TypedArray.t) (w : BrickMapWorld) : BrickMapWorld :=
  mkWorld (coarseSize w) (brickSize w) (worldSize w) cg (bricks w)
          (nextBrickIndex w) (atlasSize w) (brickAtlasData w) (voxelCount w) (brickCount w).
Definition set_bricks (bs : JsMap.t TypedArray.t) (w : BrickMapWorld) : BrickMapWorld :=
  mkWorld (coarseSize w) (brickSize w) (worldSize w) (coarseGrid w) bs
          (nextBrickIndex w) (atlasSize w) (brickAtlasData w) (voxelCount w) (brickCount w).
Definition set_nextBrickIndex (n : Z) (w : BrickMapWorld) : BrickMapWorld :=
  mkWorld (coarseSize w) (brickSize w) (worldSize w) (coarseGrid w) (bricks w)
          n (atlasSize w) (brickAtlasData w) (voxelCount w) (brickCount w).
Definition set_brickAtlasData (d : option TypedArray.t) (w : BrickMapWorld) : BrickMapWorld :=
  mkWorld (coarseSize w) (brickSize w) (worldSize w) (coarseGrid w) (bricks w)
          (nextBrickIndex w) (atlasSize w) d (voxelCount w) (brickCount w).
Definition set_voxelCount (n : Z) (w : BrickMapWorld) : BrickMapWorld :=
  mkWorld (coarseSize w) (brickSize w) (worldSize w) (coarseGrid w) (bricks w)
          (nextBrickIndex w) (atlasSize w) (brickAtlasData w) n (brickCount w).
Definition set_brickCount (n : Z) (w : BrickMapWorld) : BrickMapWorld :=
  mkWorld (coarseSize w) (brickSize w) (worldSize w) (coarseGrid w) (bricks w)
          (nextBrickIndex w) (atlasSize w) (brickAtlasData w) (voxelCount w) n.

(** [constructor(coarseSize, brickSize = 8)] *)
Definition constructor (coarseSize brickSize : Z) : option BrickMapWorld :=
  match TypedArray.alloc 32 (coarseSize * coarseSize * coarseSize) with
  | None => None
  | Some grid =>
      Some (mkWorld coarseSize brickSize (coarseSize * brickSize)
                    grid JsMap.empty 1 64 None 0 0)
  end.

Definition _getCoarseIndex (w : BrickMapWorld) (cx cy cz : Z) : Z :=
  if (cx <? 0) || (cx >=? coarseSize w) ||
     (cy <? 0) || (cy >=? coarseSize w) ||
     (cz <? 0) || (cz >=? coarseSize w)
  then -1
  else cx + cy * coarseSize w + cz * coarseSize w * coarseSize w.

(** [Math.floor(x / brickSize)] per axis. *)
Definition _worldToCoarse (w : BrickMapWorld) (x y z : Z) : Z * Z * Z :=
  (x / brickSize w, y / brickSize w, z / brickSize w).

(** [x % brickSize] per axis; the JavaScript remainder takes the sign of
    the dividend. *)
Definition _worldToLocal (w : BrickMapWorld) (x y z : Z) : Z * Z * Z :=
  (Z.rem x (brickSize w), Z.rem y (brickSize w), Z.rem z (brickSize w)).

Definition _getBrickLocalIndex (w : BrickMapWorld) (lx ly lz : Z) : Z :=
  (lx + ly * brickSize w + lz * brickSize w * brickSize w) * 4.

(** The reference that [_getOrCreateBrick] returns is the array stored in
    [bricks] under a key; it is represented by that key.  [None] is [null]
    or [undefined]. *)
Definition brick_ref (w : BrickMapWorld) (brickIndex : Z) : option Z :=
  match JsMap.get (bricks w) brickIndex with
  | Some _ => Some brickIndex
  | None => None
  end.

Definition _getOrCreateBrick (cx cy cz : Z) : method (option Z) := λ w,
  let coarseIdx := _getCoarseIndex w cx cy cz in
  if coarseIdx <? 0 then Normal None w
  else
    match TypedArray.get (coarseGrid w) coarseIdx with
    | Some 0 =>
        (* brickIndex = this.nextBrickIndex++ *)
        let brickIndex := nextBrickIndex w in
        let w1 := set_nextBrickIndex (brickIndex + 1) w in
        let w2 := set_coarseGrid (TypedArray.set (coarseGrid w1) coarseIdx brickIndex) w1 in
        match TypedArray.alloc 8 (brickSize w2 * brickSize w2 * brickSize w2 * 4) with
        | None => Throw
        | Some brickData =>
            let w3 := set_bricks (JsMap.set (bricks w2) brickIndex brickData) w2 in
            let w4 := set_brickCount (brickCount w3 + 1) w3 in
            Normal (brick_ref w4 brickIndex) w4
        end
    | Some brickIndex => Normal (brick_ref w brickIndex) w
    | None => (* this.bricks.get(undefined) *) Normal None w
    end.

(** [brick[idx] = v] through the reference [h]. *)
Definition brick_store (h idx v : Z) (w : BrickMapWorld) : BrickMapWorld :=
  set_bricks (JsMap.alter (λ brick, TypedArray.set brick idx v) h (bricks w)) w.

Definition out_of_world (w : BrickMapWorld) (x y z : Z) : bool :=
  (x <? 0) || (x >=? worldSize w) ||
  (y <? 0) || (y >=? worldSize w) ||
  (z <? 0) || (z >=? worldSize w).

(** [setVoxel(x, y, z, r, g, b, a = 255)] *)
Definition setVoxel (x y z r g b a : Z) : method bool := λ w,
  if out_of_world w x y z then Normal false w
  else
    let '(cx, cy, cz) := _worldToCoarse w x y z in
    let '(lx, ly, lz) := _worldToLocal w x y z in
    match _getOrCreateBrick cx cy cz w with
    | Throw => Throw
    | Normal None w' => Normal false w'
    | Normal (Some brick) w' =>
        let idx := _getBrickLocalIndex w' lx ly lz in
        let w1 := brick_store brick idx r w' in
        let w2 := brick_store brick (idx + 1) g w1 in
        let w3 := brick_store brick (idx + 2) b w2 in
        let w4 := brick_store brick (idx + 3) a w3 in
        Normal true w4
    end.

(** [setVoxel(x, y, z, r, g, b)]: the default alpha. *)
Definition setVoxel_rgb (x y z r g b : Z) : method bool := setVoxel x y z r g b 255.

(** [getVoxel(x, y, z)]: [None] is the [null] result. *)
Definition getVoxel (x y z : Z) : method (option Voxel.t) := λ w,
  if out_of_world w x y z then Normal None w
  else
    let '(cx, cy, cz) := _worldToCoarse w x y z in
    let coarseIdx := _getCoarseIndex w cx cy cz in
    if coarseIdx <? 0 then Normal None w
    else
      match TypedArray.get (coarseGrid w) coarseIdx with
      | Some 0 => Normal (Some (Voxel.mk (Some 0) (Some 0) (Some 0) (Some 0))) w
      | Some brickIndex =>
          match JsMap.get (bricks w) brickIndex with
          | None => Normal None w
          | Some brick =>
              let '(lx, ly, lz) := _worldToLocal w x y z in
              let idx := _getBrickLocalIndex w lx ly lz in
              Normal (Some (Voxel.mk (TypedArray.get brick idx)
                                    (TypedArray.get brick (idx + 1))
                                    (TypedArray.get brick (idx + 2))
                                    (TypedArray.get brick (idx + 3)))) w
          end
      | None => (* this.bricks.get(undefined) is undefined *) Normal None w
      end.

(** [clear()] *)
Definition clear : method unit := λ w,
  let w1 := set_coarseGrid (TypedArray.fill_zero (coarseGrid w)) w in
  let w2 := set_bricks JsMap.empty w1 in
  let w3 := set_nextBrickIndex 1 w2 in
  let w4 := set_voxelCount 0 w3 in
  let w5 := set_brickCount 0 w4 in
  Normal tt w5.

(** A counting loop [for (let i = 0; i < n; i++) body(i)]. *)
Definition for_range {S : Type} (n : Z) (body : Z → S → S) (s : S) : S :=
  fold_left (λ s i, body i s) (seqZ 0 n) s.

(** [countVoxels()]: the inner loop visits [i = 3, 7, 11, ...] below
    [brick.length], which are the indices [3 + 4 * j] for [j < length / 4]. *)
Definition count_brick (brick : TypedArray.t) (n : Z) : Z :=
  for_range (TypedArray.length brick / 4)
    (λ j n, match TypedArray.get brick (3 + 4 * j) with
            | Some v => if 0 <? v then n + 1 else n
            | None => n
            end) n.

Definition countVoxels : method Z := λ w,
  let n := fold_left (λ n brick, count_brick brick n) (JsMap.values (bricks w)) 0 in
  Normal n (set_voxelCount n w).

(** The body of the innermost loop of [buildAtlas]: one voxel, four bytes. *)
Definition atlas_copy_voxel (B atlasVoxelSize ax ay az : Z) (brickData : TypedArray.t)
    (lz ly lx : Z) (atlas : TypedArray.t) : TypedArray.t :=
  let srcIdx := (lx + ly * B + lz * B * B) * 4 in
  let atlasX := ax * B + lx in
  let atlasY := ay * B + ly in
  let atlasZ := az * B + lz in
  let dstIdx := (atlasX + atlasY * atlasVoxelSize + atlasZ * atlasVoxelSize * atlasVoxelSize) * 4 in
  let atlas := TypedArray.set_js atlas dstIdx (TypedArray.get brickData srcIdx) in
  let atlas := TypedArray.set_js atlas (dstIdx + 1) (TypedArray.get brickData (srcIdx + 1)) in
  let atlas := TypedArray.set_js atlas (dstIdx + 2) (TypedArray.get brickData (srcIdx + 2)) in
  TypedArray.set_js atlas (dstIdx + 3) (TypedArray.get brickData (srcIdx + 3)).

(** The body of the loop over [this.bricks]: one brick. *)
Definition atlas_copy_brick (A B atlasVoxelSize : Z) (atlas : TypedArray.t)
    (entry : Z * TypedArray.t) : TypedArray.t :=
  let '(brickIndex, brickData) := entry in
  let idx := brickIndex - 1 in
  let ax := Z.rem idx A in
  let ay := Z.rem (idx / A) A in
  let az := idx / (A * A) in
  for_range B (λ lz,
    for_range B (λ ly,
      for_range B (λ lx,
        atlas_copy_voxel B atlasVoxelSize ax ay az brickData lz ly lx))) atlas.

(** [buildAtlas()] *)
Definition buildAtlas : method TypedArray.t := λ w,
  let atlasVoxelSize := atlasSize w * brickSize w in
  match TypedArray.alloc 8 (atlasVoxelSize * atlasVoxelSize * atlasVoxelSize * 4) with
  | None => Throw
  | Some fresh =>
      let atlas :=
        fold_left (atlas_copy_brick (atlasSize w) (brickSize w) atlasVoxelSize)
                  (bricks w) fresh in
      Normal atlas (set_brickAtlasData (Some atlas) w)
  end.

(** ** Call sequences *)

Inductive call : Type :=
  | CallSetVoxel (x y z r g b a : Z)
  | CallGetVoxel (x y z : Z)
  | CallClear
  | CallCountVoxels
  | CallBuildAtlas.

(** One call from a client that ignores the returned value. *)
Definition exec (c : call) : method unit :=
  match c with
  | CallSetVoxel x y z r g b a => setVoxel x y z r g b a ≫= λ _, mret tt
  | CallGetVoxel x y z => getVoxel x y z ≫= λ _, mret tt
  | CallClear => clear
  | CallCountVoxels => countVoxels ≫= λ _, mret tt
  | CallBuildAtlas => buildAtlas ≫= λ _, mret tt
  end.

Fixpoint run (cs : list call) : method unit :=
  match cs with
  | [] => mret tt
  | c :: cs' => exec c ≫= λ _, run cs'
  end.

(** The worlds a client can build: a constructed world, then any calls. *)
Definition reachable (w : BrickMapWorld) : Prop :=
  ∃ C B w0 cs, constructor C B = Some w0 ∧ run cs w0 = Normal tt w.

(** The coarse grid is a [Uint32Array]: it can name bricks only below 2^32.
    Worlds are [small] when their coarse grid has fewer cells than that, so
    that no brick index wraps around when it is stored in the grid. *)
Definition small (w : BrickMapWorld) : Prop :=
  coarseSize w * coarseSize w * coarseSize w < 2 ^ 32.

Definition in_world (w : BrickMapWorld) (x y z : Z) : Prop :=
  0 ≤ x < worldSize w ∧ 0 ≤ y < worldSize w ∧ 0 ≤ z < worldSize w.

(** The coarse cell of a voxel coordinate, as [setVoxel] and [getVoxel]
    compute it. *)
Definition coarse_index_of (w : BrickMapWorld) (x y z : Z) : Z :=
  let '(cx, cy, cz) := _worldToCoarse w x y z in _getCoarseIndex w cx cy cz.

Definition local_index_of (w : BrickMapWorld) (x y z : Z) : Z :=
  let '(lx, ly, lz) := _worldToLocal w x y z in _getBrickLocalIndex w lx ly lz.

(** The brick index stored in the coarse cell of a voxel. *)
Definition brick_index_of (w : BrickMapWorld) (x y z : Z) : option Z :=
  TypedArray.get (coarseGrid w) (coarse_index_of w x y z).

(* ===================================================================== *)
(** * GLSL scalars and vectors                                            *)
(* ===================================================================== *)

(** [highp float] is IEEE-754 binary32: 24 bits of precision, round to
    nearest even, signed zeros, infinities and NaN.  Every operation is
    evaluated in source order and rounded once. *)
Module F32.

Definition prec : Z := 24.
Definition emax : Z := 128.

Definition t : Type := spec_float.

Definition of_Z (z : Z) : t := binary_normalize prec emax z 0 false.

Definition add : t → t → t := SFadd prec emax.
Definition sub : t → t → t := SFsub prec emax.
Definition mul : t → t → t := SFmul prec emax.
Definition div : t → t → t := SFdiv prec emax.
Definition opp : t → t := SFopp.
Definition abs : t → t := SFabs.
Definition ltb : t → t → bool := SFltb.
Definition gtb (x y : t) : bool := SFltb y x.

Definition zero : t := S754_zero false.
Definition one : t := of_Z 1.
Definition two : t := of_Z 2.
Definition half : t := S754_finite false 8388608 (-24).       (* 0.5 *)
Definition milli : t := S754_finite false 8589935 (-33).      (* 0.001 *)

(** [min(x, y)] is [y < x ? y : x] and [max(x, y)] is [x < y ? y : x].
    GLSL ES does not require a definite result for a NaN operand: the
    formula keeps a NaN first operand and drops a NaN second one, and an
    implementation may return the other operand instead. *)
Definition min (x y : t) : t := if ltb y x then y else x.
Definition max (x y : t) : t := if ltb x y then y else x.

(** [sign(x)]: 1.0, 0.0 or -1.0. *)
Definition sign (x : t) : t :=
  if ltb zero x then one else if ltb x zero then opp one else zero.

(** [floor(x)]: a value with a non-negative exponent is an integer
    already; otherwise the mantissa is shifted down, rounding to minus
    infinity, and the integer (below 2^24) is exact in binary32. *)
Definition floor (x : t) : t :=
  match x with
  | S754_finite s m e =>
      if 0 <=? e then x
      else of_Z (Z.shiftr (cond_Zopp s (Zpos m)) (- e))
  | _ => x
  end.

End F32.

Declare Scope f32_scope.
Delimit Scope f32_scope with f32.
Infix "+" := F32.add : f32_scope.
Infix "-" := F32.sub : f32_scope.
Infix "*" := F32.mul : f32_scope.
Infix "/" := F32.div : f32_scope.
Infix "<?" := F32.ltb : f32_scope.
Infix ">?" := F32.gtb : f32_scope.
Notation "- x" := (F32.opp x) : f32_scope.

(** [int] is 32-bit two's complement. *)
Definition wrap32 (z : Z) : Z := (z + 2 ^ 31) mod 2 ^ 32 - 2 ^ 31.

Definition iadd (x y : Z) : Z := wrap32 (x + y).
Definition isub (x y : Z) : Z := wrap32 (x - y).
Definition imul (x y : Z) : Z := wrap32 (x * y).
(** Integer division truncates; [%] is used on non-negative operands only. *)
Definition idiv (x y : Z) : Z := wrap32 (Z.quot x y).
Definition imod (x y : Z) : Z := Z.rem x y.

(** [int(x)] of a float drops the fraction.  GLSL leaves the conversion of
    an infinity, a NaN or a value outside the [int] range undefined; here
    the first two give 0 and the last wraps. *)
Definition int_of_float (x : F32.t) : Z :=
  match x with
  | S754_finite s m e =>
      wrap32 (cond_Zopp s (if 0 <=? e then Z.shiftl (Zpos m) e
                           else Z.shiftr (Zpos m) (- e)))
  | _ => 0
  end.

(** [float(i)] of an [int]: rounded to nearest. *)
Definition float_of_int (i : Z) : F32.t := F32.of_Z i.

(** [int(u)] of a [uint]: the same 32 bits. *)
Definition int_of_uint (u : Z) : Z := wrap32 u.

Record vec2 : Type := Vec2 { v2x : F32.t; v2y : F32.t }.
Record vec3 : Type := Vec3 { vx : F32.t; vy : F32.t; vz : F32.t }.
Record vec4 : Type := Vec4 { cr : F32.t; cg : F32.t; cb : F32.t; ca : F32.t }.
Record ivec3 : Type := IVec3 { ix : Z; iy : Z; iz : Z }.

Definition vec3_of (s : F32.t) : vec3 := Vec3 s s s.
Definition ivec3_of (i : Z) : ivec3 := IVec3 i i i.

Definition vmap (f : F32.t → F32.t) (u : vec3) : vec3 :=
  Vec3 (f (vx u)) (f (vy u)) (f (vz u)).
Definition vmap2 (f : F32.t → F32.t → F32.t) (u v : vec3) : vec3 :=
  Vec3 (f (vx u) (vx v)) (f (vy u) (vy v)) (f (vz u) (vz v)).
Definition imap2 (f : Z → Z → Z) (u v : ivec3) : ivec3 :=
  IVec3 (f (ix u) (ix v)) (f (iy u) (iy v)) (f (iz u) (iz v)).

Definition vadd : vec3 → vec3 → vec3 := vmap2 F32.add.
Definition vsub : vec3 → vec3 → vec3 := vmap2 F32.sub.
Definition vmul : vec3 → vec3 → vec3 := vmap2 F32.mul.
Definition vdiv : vec3 → vec3 → vec3 := vmap2 F32.div.
Definition vmin : vec3 → vec3 → vec3 := vmap2 F32.min.
Definition vmax : vec3 → vec3 → vec3 := vmap2 F32.max.
Definition vabs : vec3 → vec3 := vmap F32.abs.
Definition vsign : vec3 → vec3 := vmap F32.sign.
Definition vfloor : vec3 → vec3 := vmap F32.floor.
(** vector op scalar *)
Definition vadds (u : vec3) (s : F32.t) : vec3 := vadd u (vec3_of s).
Definition vmuls (u : vec3) (s : F32.t) : vec3 := vmul u (vec3_of s).
Definition vdivs (u : vec3) (s : F32.t) : vec3 := vdiv u (vec3_of s).

(** [ivec3(v)] and [vec3(i)] *)
Definition ivec3_of_vec3 (u : vec3) : ivec3 :=
  IVec3 (int_of_float (vx u)) (int_of_float (vy u)) (int_of_float (vz u)).
Definition vec3_of_ivec3 (p : ivec3) : vec3 :=
  Vec3 (float_of_int (ix p)) (float_of_int (iy p)) (float_of_int (iz p)).

(** [clamp(p, lo, hi)] is [min(max(p, lo), hi)] per component. *)
Definition iclamp (p lo hi : ivec3) : ivec3 := imap2 Z.min (imap2 Z.max p lo) hi.

(* ===================================================================== *)
(** * Textures and uniforms                                               *)
(* ===================================================================== *)

(** A 3D texture: its dimensions and the texels as uploaded from a typed
    array, x fastest, tightly packed. *)
Record texture : Type := Texture {
  tex_width : Z; tex_height : Z; tex_depth : Z;
  tex_data : TypedArray.t
}.

Definition texel_inside (t : texture) (p : ivec3) : bool :=
  (0 <=? ix p) && (ix p <? tex_width t) &&
  (0 <=? iy p) && (iy p <? tex_height t) &&
  (0 <=? iz p) && (iz p <? tex_depth t).

Definition texel_offset (t : texture) (p : ivec3) : Z :=
  ix p + iy p * tex_width t + iz p * tex_width t * tex_height t.

(** [texelFetch(t, p, 0).r] on the R32UI coarse grid.  A fetch outside the
    texture is undefined in GLSL; here it reads 0. *)
Definition texelFetch_r32ui (t : texture) (p : ivec3) : Z :=
  if texel_inside t p
  then default 0 (TypedArray.get (tex_data t) (texel_offset t p))
  else 0.

(** The sampler presents a byte [c] of an RGBA8 texel as [c / 255.0]. *)
Definition unorm8 (c : Z) : F32.t := (F32.of_Z c / F32.of_Z 255)%f32.

(** [texelFetch(t, p, 0)] on the RGBA8 atlas. *)
Definition texelFetch_rgba8 (t : texture) (p : ivec3) : vec4 :=
  let channel k :=
    if texel_inside t p
    then unorm8 (default 0 (TypedArray.get (tex_data t) (texel_offset t p * 4 + k)))
    else F32.zero in
  Vec4 (channel 0) (channel 1) (channel 2) (channel 3).

Record uniforms : Type := Uniforms {
  u_coarseGrid : texture;
  u_brickAtlas : texture;
  u_coarseGridSize : vec3;
  u_atlasSize : vec3;
  u_maxSteps : Z
}.

(** [uploadWorld()] followed by the uniform assignments of [render()]:
    the coarse grid and the freshly built atlas become textures, the sizes
    become float uniforms. *)
Definition uploadWorld (maxSteps : Z) : method uniforms :=
  w0 ← (λ w, Normal w w);
  let coarse :=
    Texture (coarseSize w0) (coarseSize w0) (coarseSize w0) (coarseGrid w0) in
  atlasData ← buildAtlas;
  let atlasVoxelSize := atlasSize w0 * brickSize w0 in
  let atlas := Texture atlasVoxelSize atlasVoxelSize atlasVoxelSize atlasData in
  _ ← countVoxels;
  mret (Uniforms coarse atlas
                 (vec3_of (F32.of_Z (coarseSize w0)))
                 (vec3_of (F32.of_Z (atlasSize w0)))
                 maxSteps).

(* ===================================================================== *)
(** * The fragment shader's traversal                                     *)
(* ===================================================================== *)

Definition BRICK_SIZE : Z := 8.

Record HitResult : Type := mkHit {
  hit : bool;
  pos : option vec3;          (* [None]: not yet written *)
  normal : vec3;
  color : option vec4;
  distance : option F32.t;
  steps : Z
}.

(** The state of a DDA walk: the cell, the accumulated cross-distances and
    the axis crossed last. *)
Record dda : Type := mkDda { mapPos : ivec3; sideDist : vec3; side : Z }.

(** The axis the nested comparisons of the DDA step pick. *)
Definition select_axis (sd : vec3) : Z :=
  if (vx sd <? vy sd)%f32 then
    if (vx sd <? vz sd)%f32 then 0 else 2
  else
    if (vy sd <? vz sd)%f32 then 1 else 2.

(** [sideDist.k += deltaDist.k; mapPos.k += step.k; side = k] on axis [k]. *)
Definition dda_step (step : ivec3) (deltaDist : vec3) (s : dda) : dda :=
  let p := mapPos s in
  let sd := sideDist s in
  match select_axis sd with
  | 0 => mkDda (IVec3 (iadd (ix p) (ix step)) (iy p) (iz p))
               (Vec3 (vx sd + vx deltaDist)%f32 (vy sd) (vz sd)) 0
  | 1 => mkDda (IVec3 (ix p) (iadd (iy p) (iy step)) (iz p))
               (Vec3 (vx sd) (vy sd + vy deltaDist)%f32 (vz sd)) 1
  | _ => mkDda (IVec3 (ix p) (iy p) (iadd (iz p) (iz step)))
               (Vec3 (vx sd) (vy sd) (vz sd + vz deltaDist)%f32) 2
  end.

Definition intersectAABB (rayOrigin rayDir boxMin boxMax : vec3) : vec2 :=
  let tMin := vdiv (vsub boxMin rayOrigin) rayDir in
  let tMax := vdiv (vsub boxMax rayOrigin) rayDir in
  let t1 := vmin tMin tMax in
  let t2 := vmax tMin tMax in
  let tNear := F32.max (F32.max (vx t1) (vy t1)) (vz t1) in
  let tFar := F32.min (F32.min (vx t2) (vy t2)) (vz t2) in
  Vec2 tNear tFar.

(** [sign(d) * (vec3(cell) - start) + sign(d) * 0.5 + 0.5) * deltaDist] *)
Definition initial_sideDist (rayDir : vec3) (cell : ivec3) (start deltaDist : vec3) : vec3 :=
  vmul (vadds (vadd (vmul (vsign rayDir) (vsub (vec3_of_ivec3 cell) start))
                    (vmuls (vsign rayDir) F32.half))
              F32.half)
       deltaDist.

Section Shader.

Variable U : uniforms.

Definition getWorldSize : vec3 := vmuls (u_coarseGridSize U) (float_of_int BRICK_SIZE).

Definition getBrickIndex (coarsePos : ivec3) : Z :=
  if (ix coarsePos <? 0) || (iy coarsePos <? 0) || (iz coarsePos <? 0) ||
     (ix coarsePos >=? int_of_float (vx (u_coarseGridSize U))) ||
     (iy coarsePos >=? int_of_float (vy (u_coarseGridSize U))) ||
     (iz coarsePos >=? int_of_float (vz (u_coarseGridSize U)))
  then 0
  else texelFetch_r32ui (u_coarseGrid U) coarsePos.

Definition brickIndexToAtlasPos (brickIndex : Z) : ivec3 :=
  let idx := isub (int_of_uint brickIndex) 1 in
  let atlasWidth := int_of_float (vx (u_atlasSize U)) in
  let atlasHeight := int_of_float (vy (u_atlasSize U)) in
  let x := imod idx atlasWidth in
  let y := imod (idiv idx atlasWidth) atlasHeight in
  let z := idiv idx (imul atlasWidth atlasHeight) in
  IVec3 x y z.

Definition getVoxelFromBrick (brickIndex : Z) (localPos : ivec3) : vec4 :=
  if brickIndex =? 0 then Vec4 F32.zero F32.zero F32.zero F32.zero
  else
    let atlasPos := brickIndexToAtlasPos brickIndex in
    let texelPos := imap2 iadd (imap2 imul atlasPos (ivec3_of BRICK_SIZE)) localPos in
    texelFetch_rgba8 (u_brickAtlas U) texelPos.

Definition outside_brick (p : ivec3) : bool :=
  (ix p <? 0) || (ix p >=? BRICK_SIZE) ||
  (iy p <? 0) || (iy p >=? BRICK_SIZE) ||
  (iz p <? 0) || (iz p >=? BRICK_SIZE).

(** What [traceBrick] writes into [result] when the voxel at [mapPos] is
    occupied. *)
Definition brick_hit (rayOrigin rayDir brickMin : vec3) (step : ivec3)
    (s : dda) (voxel : vec4) (result : HitResult) : HitResult :=
  let worldPos := vadd brickMin (vec3_of_ivec3 (mapPos s)) in
  let n0 := vec3_of F32.zero in
  let nrm :=
    if side s =? 0 then Vec3 (- float_of_int (ix step))%f32 (vy n0) (vz n0)
    else if side s =? 1 then Vec3 (vx n0) (- float_of_int (iy step))%f32 (vz n0)
    else Vec3 (vx n0) (vy n0) (- float_of_int (iz step))%f32 in
  let along (wp o : F32.t) (st : Z) (d : F32.t) : F32.t :=
    ((wp - o + (F32.one - float_of_int st) / F32.two) / d)%f32 in
  let dist :=
    if side s =? 0 then along (vx worldPos) (vx rayOrigin) (ix step) (vx rayDir)
    else if side s =? 1 then along (vy worldPos) (vy rayOrigin) (iy step) (vy rayDir)
    else along (vz worldPos) (vz rayOrigin) (iz step) (vz rayDir) in
  mkHit true (Some worldPos) nrm (Some voxel) (Some dist) (steps result).

(** The loop [for (int i = 0; i < BRICK_SIZE * 3; i++)] of [traceBrick],
    with [n] iterations left. *)
Fixpoint traceBrick_loop (n : nat) (brickIndex : Z)
    (rayOrigin rayDir brickMin : vec3) (step : ivec3) (deltaDist : vec3)
    (s : dda) (result : HitResult) : bool * HitResult :=
  match n with
  | O => (false, result)
  | S n' =>
      let voxel := getVoxelFromBrick brickIndex (mapPos s) in
      if (ca voxel >? F32.zero)%f32
      then (true, brick_hit rayOrigin rayDir brickMin step s voxel result)
      else
        let s' := dda_step step deltaDist s in
        if outside_brick (mapPos s') then (false, result)
        else traceBrick_loop n' brickIndex rayOrigin rayDir brickMin step deltaDist s' result
  end.

(** [traceBrick(brickIndex, rayOrigin, rayDir, coarsePos, inout result)]:
    the returned flag and the new value of [result]. *)
Definition traceBrick (brickIndex : Z) (rayOrigin rayDir : vec3)
    (coarsePos : ivec3) (result : HitResult) : bool * HitResult :=
  let brickMin := vec3_of_ivec3 (imap2 imul coarsePos (ivec3_of BRICK_SIZE)) in
  let brickMax := vadds brickMin (float_of_int BRICK_SIZE) in
  let tBox := intersectAABB rayOrigin rayDir brickMin brickMax in
  if (v2x tBox >? v2y tBox)%f32 || (v2y tBox <? F32.zero)%f32 then (false, result)
  else
    let tStart := (F32.max F32.zero (v2x tBox) + F32.milli)%f32 in
    let startPos := vadd rayOrigin (vmuls rayDir tStart) in
    let localStart := vsub startPos brickMin in
    let mapPos0 := ivec3_of_vec3 (vfloor localStart) in
    let mapPos0 := iclamp mapPos0 (ivec3_of 0) (ivec3_of (BRICK_SIZE - 1)) in
    let step := ivec3_of_vec3 (vsign rayDir) in
    let deltaDist := vabs (vdiv (vec3_of F32.one) rayDir) in
    let sideDist0 := initial_sideDist rayDir mapPos0 localStart deltaDist in
    traceBrick_loop (Z.to_nat (BRICK_SIZE * 3)) brickIndex rayOrigin rayDir brickMin
                    step deltaDist (mkDda mapPos0 sideDist0 0) result.

Definition outside_grid (p : ivec3) : bool :=
  (ix p <? 0) || (ix p >=? int_of_float (vx (u_coarseGridSize U))) ||
  (iy p <? 0) || (iy p >=? int_of_float (vy (u_coarseGridSize U))) ||
  (iz p <? 0) || (iz p >=? int_of_float (vz (u_coarseGridSize U))).

Definition set_steps (n : Z) (res : HitResult) : HitResult :=
  mkHit (hit res) (pos res) (normal res) (color res) (distance res) n.

(** The loop [for (int i = 0; i < 512; i++)] of [traceRay], entered at
    counter [i] with [n] iterations left. *)
Fixpoint traceRay_loop (n : nat) (i : Z) (origin direction : vec3)
    (step : ivec3) (deltaDist : vec3) (s : dda) (result : HitResult) : HitResult :=
  match n with
  | O => result
  | S n' =>
      if i >=? u_maxSteps U then result
      else
        let result := set_steps (i + 1) result in
        let brickIndex := getBrickIndex (mapPos s) in
        let '(found, result) :=
          if brickIndex >? 0
          then traceBrick brickIndex origin direction (mapPos s) result
          else (false, result) in
        if found then result
        else
          let s' := dda_step step deltaDist s in
          if outside_grid (mapPos s') then result
          else traceRay_loop n' (i + 1) origin direction step deltaDist s' result
  end.

(** [traceRay(origin, direction)] *)
Definition traceRay (origin direction : vec3) : HitResult :=
  let result := mkHit false None (vec3_of F32.zero) None None 0 in
  let worldSize := getWorldSize in
  let tBox := intersectAABB origin direction (vec3_of F32.zero) worldSize in
  if (v2x tBox >? v2y tBox)%f32 || (v2y tBox <? F32.zero)%f32 then result
  else
    let tStart := (F32.max F32.zero (v2x tBox) + F32.milli)%f32 in
    let startPos := vadd origin (vmuls direction tStart) in
    let coarseStart := vdivs startPos (float_of_int BRICK_SIZE) in
    let coarsePos := ivec3_of_vec3 (vfloor coarseStart) in
    let coarsePos :=
      iclamp coarsePos (ivec3_of 0)
             (imap2 isub (ivec3_of_vec3 (u_coarseGridSize U)) (ivec3_of 1)) in
    let step := ivec3_of_vec3 (vsign direction) in
    let deltaDist := vabs (vdiv (vec3_of (float_of_int BRICK_SIZE)) direction) in
    let sideDist0 := initial_sideDist direction coarsePos coarseStart deltaDist in
    traceRay_loop (Z.to_nat 512) 0 origin direction step deltaDist
                  (mkDda coarsePos sideDist0 0) result.

End Shader.

(* ===================================================================== *)
(** * Representation invariant of the brick map                           *)
(* ===================================================================== *)

(** [brick[idx] = r; brick[idx+1] = g; brick[idx+2] = b; brick[idx+3] = a] *)
Definition store4 (idx r g b a : Z) (brick : TypedArray.t) : TypedArray.t :=
  TypedArray.set (TypedArray.set (TypedArray.set (TypedArray.set brick idx r)
    (idx + 1) g) (idx + 2) b) (idx + 3) a.

Definition cells_of (w : BrickMapWorld) : Z :=
  coarseSize w * coarseSize w * coarseSize w.

Definition brick_bytes (w : BrickMapWorld) : Z :=
  brickSize w * brickSize w * brickSize w * 4.

Definition cell (w : BrickMapWorld) (c : Z) : option Z :=
  TypedArray.get (coarseGrid w) c.

Record wf (w : BrickMapWorld) : Prop := {
  wf_coarse : 0 ≤ coarseSize w;
  wf_small : small w;
  wf_worldSize : worldSize w = coarseSize w * brickSize w;
  wf_atlasSize : atlasSize w = 64;
  wf_grid_bits : TypedArray.bits (coarseGrid w) = 32;
  wf_grid_length : TypedArray.length (coarseGrid w) = cells_of w;
  wf_next : 1 ≤ nextBrickIndex w;
  wf_count : brickCount w = nextBrickIndex w - 1;
  (** the allocated cells, listed: one per brick index handed out *)
  wf_cells : ∃ cells : list Z,
      NoDup cells ∧ Z.of_nat (List.length cells) = nextBrickIndex w - 1 ∧
      ∀ c, c ∈ cells → 0 ≤ c < cells_of w ∧ cell w c ≠ Some 0;
  wf_cell_lt : ∀ c v, cell w c = Some v → 0 ≤ v < nextBrickIndex w;
  wf_cell_inj : ∀ c1 c2 v, cell w c1 = Some v → cell w c2 = Some v → v ≠ 0 → c1 = c2;
  wf_cell_brick : ∀ c v, cell w c = Some v → v ≠ 0 → is_Some (JsMap.get (bricks w) v);
  wf_keys_nodup : NoDup (JsMap.keys (bricks w));
  wf_keys_range : ∀ k, k ∈ JsMap.keys (bricks w) → 1 ≤ k < nextBrickIndex w;
  wf_brick_shape : ∀ k brick, JsMap.get (bricks w) k = Some brick →
      TypedArray.bits brick = 8 ∧ TypedArray.length brick = brick_bytes w ∧
      ∀ i v, TypedArray.get brick i = Some v → 0 ≤ v < 256
}.

(** The two ways an in-bounds [setVoxel] ends: a brick is created for the
    cell [c], or the brick [k] of the cell is written in place. *)
Definition created (w : BrickMapWorld) (c l r g b a : Z) : BrickMapWorld :=
  mkWorld (coarseSize w) (brickSize w) (worldSize w)
          (TypedArray.set (coarseGrid w) c (nextBrickIndex w))
          (bricks w ++ [(nextBrickIndex w,
                         store4 l r g b a (TypedArray.mk 8 (brick_bytes w) ∅))])
          (nextBrickIndex w + 1) (atlasSize w) (brickAtlasData w)
          (voxelCount w) (brickCount w + 1).

(** The world right after [_getOrCreateBrick] created the brick of cell [c]. *)
Definition allocated (w : BrickMapWorld) (c : Z) : BrickMapWorld :=
  mkWorld (coarseSize w) (brickSize w) (worldSize w)
          (TypedArray.set (coarseGrid w) c (nextBrickIndex w))
          (bricks w ++ [(nextBrickIndex w, TypedArray.mk 8 (brick_bytes w) ∅)])
          (nextBrickIndex w + 1) (atlasSize w) (brickAtlasData w)
          (voxelCount w) (brickCount w + 1).

Definition updated (w : BrickMapWorld) (k l r g b a : Z) : BrickMapWorld :=
  set_bricks (JsMap.alter (store4 l r g b a) k (bricks w)) w.

(** The value part of [getVoxel]. *)
Definition read (w : BrickMapWorld) (x y z : Z) : option Voxel.t :=
  match getVoxel x y z w with
  | Normal v _ => v
  | Throw => None
  end.

Definition zero_voxel : Voxel.t := Voxel.mk (Some 0) (Some 0) (Some 0) (Some 0).

(** The four channels of the voxel stored at slot [l] of a brick. *)
Definition voxel_of_brick (brick : TypedArray.t) (l : Z) : Voxel.t :=
  Voxel.mk (TypedArray.get brick l) (TypedArray.get brick (l + 1))
           (TypedArray.get brick (l + 2)) (TypedArray.get brick (l + 3)).

(** The record of bytes that a write of [r g b a] leaves in a brick. *)
Definition stored_voxel (r g b a : Z) : Voxel.t :=
  Voxel.mk (Some (r mod 256)) (Some (g mod 256)) (Some (b mod 256)) (Some (a mod 256)).

(** The sizes are fixed by the constructor; no method changes them, in any
    state. *)
Definition same_sizes (w w' : BrickMapWorld) : Prop :=
  coarseSize w' = coarseSize w ∧ brickSize w' = brickSize w ∧ worldSize w' = worldSize w.


(** ** Vocabulary of the claims *)

(** A call that writes the voxel [(x, y, z)]. *)
Definition writes_to (x y z : Z) (c : call) : bool :=
  match c with
  | CallSetVoxel x' y' z' _ _ _ _ => (x' =? x) && (y' =? y) && (z' =? z)
  | _ => false
  end.

(** [clean_after x y z clean cs]: whether, at the end of the calls [cs], the
    voxel [(x, y, z)] has not been written since the last [clear()]; [clean]
    says whether this held before [cs]. *)
Fixpoint clean_after (x y z : Z) (clean : bool) (cs : list call) : bool :=
  match cs with
  | [] => clean
  | CallClear :: cs' => clean_after x y z true cs'
  | c :: cs' =>
      if writes_to x y z c then clean_after x y z false cs'
      else clean_after x y z clean cs'
  end.


(** A brick holds an occupied voxel: some alpha byte, at an index
    [4 * i + 3], is positive. *)
Definition occupied_brick (brick : TypedArray.t) : Prop :=
  ∃ i v, 0 ≤ i ∧ TypedArray.get brick (4 * i + 3) = Some v ∧ 0 < v.

(** Every allocated brick, that is every non-zero coarse cell, holds an
    occupied voxel. *)
Definition no_empty_brick (w : BrickMapWorld) : Prop :=
  ∀ c k, cell w c = Some k → k ≠ 0 →
    ∃ brick, JsMap.get (bricks w) k = Some brick ∧ occupied_brick brick.

(** A call that never stores a zero alpha byte. *)
Definition opaque_write (c : call) : Prop :=
  match c with
  | CallSetVoxel _ _ _ _ _ _ a => a mod 256 ≠ 0
  | _ => True
  end.

(** ** The atlas as a sequence of byte stores *)

(** One store [atlas[i] = e] of [buildAtlas]. *)
Definition atlas_store (atlas : TypedArray.t) (s : Z * option Z) : TypedArray.t :=
  TypedArray.set_js atlas s.1 s.2.

Definition atlas_dst (B S ax ay az lz ly lx : Z) : Z :=
  (ax * B + lx + (ay * B + ly) * S + (az * B + lz) * S * S) * 4.

Definition brick_src (B lz ly lx : Z) : Z := (lx + ly * B + lz * B * B) * 4.

(** The four stores of [atlas_copy_voxel], in order. *)
Definition voxel_stores (B S ax ay az : Z) (brickData : TypedArray.t)
    (lz ly lx : Z) : list (Z * option Z) :=
  (λ c, (atlas_dst B S ax ay az lz ly lx + c,
         TypedArray.get brickData (brick_src B lz ly lx + c))) <$> [0; 1; 2; 3].

(** All stores of [atlas_copy_brick] for one entry of the brick map. *)
Definition brick_stores (A B S : Z) (entry : Z * TypedArray.t) : list (Z * option Z) :=
  let idx := entry.1 - 1 in
  let ax := Z.rem idx A in
  let ay := Z.rem (idx / A) A in
  let az := idx / (A * A) in
  seqZ 0 B ≫= λ lz, seqZ 0 B ≫= λ ly, seqZ 0 B ≫= λ lx,
    voxel_stores B S ax ay az entry.2 lz ly lx.

(** The atlas cell of brick [idx], scaled by the brick size, plus the local
    coordinate of a voxel: the atlas coordinate of the voxel. *)
Definition atlas_coord (A B idx lx ly lz : Z) : Z * Z * Z :=
  (((idx - 1) mod A) * B + lx,
   (((idx - 1) / A) mod A) * B + ly,
   ((idx - 1) / (A * A)) * B + lz).

(** The 4-channel record at a coordinate of a buffer of [S]^3 records, x
    fastest. *)
Definition atlas_record (atlas : TypedArray.t) (S : Z) (p : Z * Z * Z) : Voxel.t :=
  let '(X, Y, Z) := p in
  voxel_of_brick atlas ((X + Y * S + Z * S * S) * 4).

(** [new BrickMapWorld(65, 8)] *)
Definition world_65_8 : BrickMapWorld :=
  mkWorld 65 8 520 (TypedArray.mk 32 274625 ∅) JsMap.empty 1 64 None 0 0.

(** [setVoxel] calls that touch one voxel in each of the first [n] coarse
    cells of a 65^3 grid, in index order. *)
Definition fill_call (k : Z) : call :=
  CallSetVoxel (8 * (k mod 65)) (8 * ((k / 65) mod 65)) (8 * (k / 4225)) 255 255 255 255.

Definition fill_calls (n : Z) : list call := fill_call <$> seqZ 0 n.

(** The buffer that [buildAtlas] returns. *)
Definition built_atlas (w : BrickMapWorld) : TypedArray.t :=
  let S := atlasSize w * brickSize w in
  fold_left atlas_store (bricks w ≫= brick_stores (atlasSize w) (brickSize w) S)
            (TypedArray.mk 8 (S * S * S * 4) ∅).

(** ** One ray of a frame *)

(** The value a call returns, if it returns. *)
Definition returned {A : Type} (c : completion A) : option A :=
  match c with
  | Normal v _ => Some v
  | Throw => None
  end.

(** [uploadWorld()], then [traceRay] in the shader with the uploaded
    textures and uniforms. *)
Definition trace_primary (maxSteps : Z) (origin direction : vec3) : method HitResult :=
  U ← uploadWorld maxSteps; mret (traceRay U origin direction).

(** [new BrickMapWorld(1, 8)], [setVoxel(4, 4, 4, 255, 0, 0, 255)], and the
    ray from (4, 4, -10) toward (0, 0, 1). *)
Definition single_voxel_trace (maxSteps : Z) : option HitResult :=
  match constructor 1 8 with
  | None => None
  | Some w0 =>
      returned ((setVoxel 4 4 4 255 0 0 255 ≫= λ _,
                 trace_primary maxSteps
                   (Vec3 (F32.of_Z 4) (F32.of_Z 4) (F32.of_Z (-10)))
                   (Vec3 F32.zero F32.zero F32.one)) w0)
  end.

(** ** Axes and classes of floats *)

Inductive axis : Type := AxisX | AxisY | AxisZ.










(** A result either reports no hit or carries the record of an occupied
    voxel. *)
Definition occupied_hit (res : HitResult) : Prop :=
  hit res = false ∨
  ∃ voxel, hit res = true ∧ color res = Some voxel ∧ (ca voxel >? F32.zero)%f32 = true.



(* ===================================================================== *)
(** * Memory statistics                                                   *)
(* ===================================================================== *)

(** [a.byteLength]: the length times the element size. *)
Definition byteLength (a : TypedArray.t) : Z :=
  TypedArray.length a * (TypedArray.bits a / 8).

(** A JavaScript number that is not an integer: IEEE-754 binary64. *)
Module F64.

Definition prec : Z := 53.
Definition emax : Z := 1024.
Definition t : Type := spec_float.
Definition of_Z (z : Z) : t := binary_normalize prec emax z 0 false.
Definition div : t → t → t := SFdiv prec emax.

End F64.

(** The object returned by [getMemoryUsage]. *)
Module MemoryUsage.
Record t : Type := mk { coarseGrid : Z; bricks : Z; total : Z; totalMB : F64.t }.
End MemoryUsage.

(** [getMemoryUsage()] *)
Definition getMemoryUsage : method MemoryUsage.t := λ w,
  let coarseBytes := byteLength (coarseGrid w) in
  let brickBytes := brickCount w * brickSize w * brickSize w * brickSize w * 4 in
  Normal (MemoryUsage.mk coarseBytes brickBytes (coarseBytes + brickBytes)
            (F64.div (F64.of_Z (coarseBytes + brickBytes)) (F64.of_Z (1024 * 1024))))
         w.

(** The bytes held by the bricks of the map. *)
Definition bricks_byteLength (w : BrickMapWorld) : Z :=
  fold_left (λ n brick, n + byteLength brick) (JsMap.values (bricks w)) 0.

(** The coarse cells that name a brick. *)
Definition allocated_cells (w : BrickMapWorld) : list Z :=
  filter (λ c, cell w c ≠ Some 0) (seqZ 0 (cells_of w)).

(** ** Occupancy *)

(** Whether a channel read is a positive number: [brick[i] > 0], false for
    [undefined]. *)
Definition positive (e : option Z) : bool :=
  match e with Some v => 0 <? v | None => false end.

(** Whether [getVoxel] reports a voxel with a positive alpha. *)
Definition occupied (w : BrickMapWorld) (x y z : Z) : bool :=
  match read w x y z with
  | Some v => positive (Voxel.a v)
  | None => false
  end.

(** The value part of [countVoxels]. *)
Definition counted (w : BrickMapWorld) : Z :=
  match countVoxels w with
  | Normal n _ => n
  | Throw => 0
  end.

Definition Z_of_bool (b : bool) : Z := if b then 1 else 0.

(* ===================================================================== *)
(** * The shader's view of the world                                      *)
(* ===================================================================== *)

(** A [getVoxel] record as the RGBA8 sampler presents its bytes. *)
Definition sampled (v : Voxel.t) : vec4 :=
  Vec4 (unorm8 (default 0 (Voxel.r v))) (unorm8 (default 0 (Voxel.g v)))
       (unorm8 (default 0 (Voxel.b v))) (unorm8 (default 0 (Voxel.a v))).

(** The coarse cell and the position inside the brick of a voxel, as integer
    vectors. *)
Definition coarse_pos (w : BrickMapWorld) (x y z : Z) : ivec3 :=
  let '(cx, cy, cz) := _worldToCoarse w x y z in IVec3 cx cy cz.

Definition local_pos (w : BrickMapWorld) (x y z : Z) : ivec3 :=
  let '(lx, ly, lz) := _worldToLocal w x y z in IVec3 lx ly lz.

Definition inside_brick (p : ivec3) : Prop :=
  0 ≤ ix p < BRICK_SIZE ∧ 0 ≤ iy p < BRICK_SIZE ∧ 0 ≤ iz p < BRICK_SIZE.

(** The normal that [traceBrick] reports for a face of axis [k]: zero but
    for the component [k], which is minus the step. *)
Definition face_normal (k : axis) (step : ivec3) : vec3 :=
  match k with
  | AxisX => Vec3 (- float_of_int (ix step))%f32 F32.zero F32.zero
  | AxisY => Vec3 F32.zero (- float_of_int (iy step))%f32 F32.zero
  | AxisZ => Vec3 F32.zero F32.zero (- float_of_int (iz step))%f32
  end.

(* ===================================================================== *)
(** * Shadow rays                                                         *)
(* ===================================================================== *)

(** The literal [0.3]. *)
Definition f32_0_3 : F32.t := S754_finite false 10066330 (-25).

Section Shadow.

Variable U : uniforms.

(** The loop [for (int i = 0; i < 64; i++)] of [traceShadow], with [n]
    iterations left.  The function returns from inside the loop; falling
    out of it returns 1.0. *)
Fixpoint traceShadow_loop (n : nat) (origin direction : vec3)
    (step : ivec3) (deltaDist : vec3) (s : dda) (tempResult : HitResult) : F32.t :=
  match n with
  | O => F32.one
  | S n' =>
      if outside_grid U (mapPos s) then F32.one
      else
        let brickIndex := getBrickIndex U (mapPos s) in
        let '(found, tempResult) :=
          if brickIndex >? 0
          then traceBrick U brickIndex origin direction (mapPos s) tempResult
          else (false, tempResult) in
        if found then f32_0_3
        else traceShadow_loop n' origin direction step deltaDist
                              (dda_step step deltaDist s) tempResult
  end.

(** [traceShadow(origin, direction)].  [tempResult] is declared without an
    initialiser and only its [hit] field is assigned; the other fields are
    undefined and never read, and are given the values [traceRay] starts
    with. *)
Definition traceShadow (origin direction : vec3) : F32.t :=
  let startPos := vadd origin (vmuls direction F32.half) in
  let coarseStart := vdivs startPos (float_of_int BRICK_SIZE) in
  let coarsePos := ivec3_of_vec3 (vfloor coarseStart) in
  let step := ivec3_of_vec3 (vsign direction) in
  let deltaDist := vabs (vdiv (vec3_of (float_of_int BRICK_SIZE)) direction) in
  let sideDist0 := initial_sideDist direction coarsePos coarseStart deltaDist in
  let tempResult := mkHit false None (vec3_of F32.zero) None None 0 in
  traceShadow_loop (Z.to_nat 64) origin direction step deltaDist
                   (mkDda coarsePos sideDist0 0) tempResult.

End Shadow.

(** [uploadWorld()], then [traceShadow] in the shader. *)
Definition trace_shadow (maxSteps : Z) (origin direction : vec3) : method F32.t :=
  U ← uploadWorld maxSteps; mret (traceShadow U origin direction).

(** Equality of floats as data (not the numeric comparison, for which
    0.0 equals -0.0 and NaN differs from itself) is decidable. *)
#[global] Instance spec_float_eq_dec : EqDecision spec_float.
Proof. solve_decision. Defined.

(** The voxel that lies at position [p] of the brick of coarse cell [cp]. *)
Definition voxel_at (cp p : ivec3) : ivec3 :=
  IVec3 (ix cp * BRICK_SIZE + ix p) (iy cp * BRICK_SIZE + iy p) (iz cp * BRICK_SIZE + iz p).

(** The uniforms of a world with one brick that holds one opaque voxel, at
    (4, 4, 4): the coarse grid names brick 1, the atlas holds the alpha
    byte. *)
Definition one_voxel_uniforms (maxSteps : Z) : uniforms :=
  Uniforms (Texture 1 1 1 (TypedArray.mk 32 1 {[0 := 1]}))
           (Texture 512 512 512 (TypedArray.mk 8 536870912 {[4202515 := 255]}))
           (vec3_of (F32.of_Z 1)) (vec3_of (F32.of_Z 64)) maxSteps.

(* ===================================================================== *)
(** * The bound of the coarse loop as a parameter                         *)
(* ===================================================================== *)

(** [traceRay] with the constant of its loop header as a parameter: the
    loop is [for (int i = 0; i < cap; i++)], every other line is that of
    [traceRay].  The shader's function is the instance [cap = 512]. *)
Definition traceRay_within (U : uniforms) (cap : nat) (origin direction : vec3) : HitResult :=
  let result := mkHit false None (vec3_of F32.zero) None None 0 in
  let worldSize := getWorldSize U in
  let tBox := intersectAABB origin direction (vec3_of F32.zero) worldSize in
  if (v2x tBox >? v2y tBox)%f32 || (v2y tBox <? F32.zero)%f32 then result
  else
    let tStart := (F32.max F32.zero (v2x tBox) + F32.milli)%f32 in
    let startPos := vadd origin (vmuls direction tStart) in
    let coarseStart := vdivs startPos (float_of_int BRICK_SIZE) in
    let coarsePos := ivec3_of_vec3 (vfloor coarseStart) in
    let coarsePos :=
      iclamp coarsePos (ivec3_of 0)
             (imap2 isub (ivec3_of_vec3 (u_coarseGridSize U)) (ivec3_of 1)) in
    let step := ivec3_of_vec3 (vsign direction) in
    let deltaDist := vabs (vdiv (vec3_of (float_of_int BRICK_SIZE)) direction) in
    let sideDist0 := initial_sideDist direction coarsePos coarseStart deltaDist in
    traceRay_loop U cap 0 origin direction step deltaDist
                  (mkDda coarsePos sideDist0 0) result.

(* ===================================================================== *)
(** * class VoxelWorld of [src/engine.js]: the dense grid                 *)
(* ===================================================================== *)

(** The single-level engine keeps every voxel of a [size]^3 grid in one
    [Uint8Array], four bytes per voxel, x fastest (lines 330-385). *)
Module VoxelWorld.

Record t : Type := mk { size : Z; data : TypedArray.t; voxelCount : Z }.

(** [constructor(size)]: a RangeError for a negative array length. *)
Definition constructor (size : Z) : option t :=
  match TypedArray.alloc 8 (size * size * size * 4) with
  | None => None
  | Some d => Some (mk size d 0)
  end.

(** [clear()] *)
Definition clear (w : t) : t := mk (size w) (TypedArray.fill_zero (data w)) 0.

Definition out_of_bounds (w : t) (x y z : Z) : bool :=
  (x <? 0) || (x >=? size w) || (y <? 0) || (y >=? size w) ||
  (z <? 0) || (z >=? size w).

Definition index (w : t) (x y z : Z) : Z :=
  (x + y * size w + z * size w * size w) * 4.

(** [setVoxel(x, y, z, r, g, b, a = 255)]: the returned flag and the world
    after the call. *)
Definition setVoxel (x y z r g b a : Z) (w : t) : bool * t :=
  if out_of_bounds w x y z then (false, w)
  else
    let idx := index w x y z in
    let d := TypedArray.set (data w) idx r in
    let d := TypedArray.set d (idx + 1) g in
    let d := TypedArray.set d (idx + 2) b in
    let d := TypedArray.set d (idx + 3) a in
    (true, mk (size w) d (voxelCount w)).

(** [getVoxel(x, y, z)]: [None] is [null]. *)
Definition getVoxel (x y z : Z) (w : t) : option Voxel.t :=
  if out_of_bounds w x y z then None
  else
    let idx := index w x y z in
    Some (Voxel.mk (TypedArray.get (data w) idx) (TypedArray.get (data w) (idx + 1))
                   (TypedArray.get (data w) (idx + 2)) (TypedArray.get (data w) (idx + 3))).

(** [removeVoxel(x, y, z)] *)
Definition removeVoxel (x y z : Z) (w : t) : bool * t := setVoxel x y z 0 0 0 0 w.

(** [countVoxels()]: the loop over [i = 3, 7, 11, ...] is the loop that
    [BrickMapWorld.countVoxels] runs over one brick. *)
Definition countVoxels (w : t) : Z * t :=
  let n := count_brick (data w) 0 in
  (n, mk (size w) (data w) n).

(** [resize(newSize)] *)
Definition resize (newSize : Z) (w : t) : option t :=
  match TypedArray.alloc 8 (newSize * newSize * newSize * 4) with
  | None => None
  | Some d => Some (mk newSize d 0)
  end.

Inductive call : Type :=
  | SetVoxel (x y z r g b a : Z)
  | GetVoxel (x y z : Z)
  | RemoveVoxel (x y z : Z)
  | Clear
  | CountVoxels
  | Resize (newSize : Z).

(** One call from a client that ignores the returned value; [None] when
    the call throws. *)
Definition exec (c : call) (w : t) : option t :=
  match c with
  | SetVoxel x y z r g b a => Some (setVoxel x y z r g b a w).2
  | GetVoxel x y z => Some w
  | RemoveVoxel x y z => Some (removeVoxel x y z w).2
  | Clear => Some (clear w)
  | CountVoxels => Some (countVoxels w).2
  | Resize n => resize n w
  end.

Fixpoint run (cs : list call) (w : t) : option t :=
  match cs with
  | [] => Some w
  | c :: cs' =>
      match exec c w with
      | Some w' => run cs' w'
      | None => None
      end
  end.

(** The worlds a client can build. *)
Definition reachable (w : t) : Prop :=
  ∃ n w0 cs, constructor n = Some w0 ∧ run cs w0 = Some w.

Definition in_bounds (w : t) (x y z : Z) : Prop :=
  0 ≤ x < size w ∧ 0 ≤ y < size w ∧ 0 ≤ z < size w.

(** The shape that the constructor gives the array and every method
    keeps. *)
Definition shaped (w : t) : Prop :=
  0 ≤ size w ∧ TypedArray.bits (data w) = 8 ∧
  TypedArray.length (data w) = size w * size w * size w * 4.

End VoxelWorld.

(** The calls of the brick map that the dense world also has, in its
    terms; the dense world has no atlas to build. *)
Definition dense_call (c : call) : list VoxelWorld.call :=
  match c with
  | CallSetVoxel x y z r g b a => [VoxelWorld.SetVoxel x y z r g b a]
  | CallGetVoxel x y z => [VoxelWorld.GetVoxel x y z]
  | CallClear => [VoxelWorld.Clear]
  | CallCountVoxels => [VoxelWorld.CountVoxels]
  | CallBuildAtlas => []
  end.

Definition dense_calls (cs : list call) : list VoxelWorld.call := cs ≫= dense_call.

(** A brick map and a dense world hold the same voxels: the same extent,
    the same answer of [getVoxel] everywhere, the same count. *)
Definition agree (w : BrickMapWorld) (d : VoxelWorld.t) : Prop :=
  VoxelWorld.size d = worldSize w ∧ VoxelWorld.shaped d ∧
  (∀ x y z, read w x y z = VoxelWorld.getVoxel x y z d) ∧
  counted w = (VoxelWorld.countVoxels d).1.

(** The voxel whose record is the [j]-th of a dense grid of extent [W], x
    fastest. *)
Definition voxel_of_slot (W j : Z) : Z * Z * Z := (j mod W, (j / W) mod W, j / (W * W)).

(** The voxels of the world for which [getVoxel] reports a positive
    alpha, by slot. *)
Definition occupied_slot (w : BrickMapWorld) (j : Z) : bool :=
  let '(x, y, z) := voxel_of_slot (worldSize w) j in occupied w x y z.

Definition occupied_slots (w : BrickMapWorld) : list Z :=
  filter (λ j, occupied_slot w j = true)
         (seqZ 0 (worldSize w * worldSize w * worldSize w)).
(* ===================================================================== *)
(** * The single-level shader of [src/engine.js]                          *)
(* ===================================================================== *)

(** The literal [0.01]. *)
Definition f32_0_01 : F32.t := S754_finite false 10737418 (-30).

(** The fragment shader of the dense engine walks the voxel grid itself
    (lines 45-215): [getVoxel], [traceRay] and [traceShadow]. *)
Module SingleLevel.

Record uniforms : Type := Uniforms {
  u_voxelData : texture;
  u_worldSize : F32.t;
  u_maxSteps : Z
}.

(** [VoxelEngine.uploadWorld()] followed by the uniform assignments of
    [render()]: the data array becomes the RGBA8 texture, the size a float
    uniform, and the voxels are counted. *)
Definition uploadWorld (maxSteps : Z) (w : VoxelWorld.t) : uniforms * VoxelWorld.t :=
  (Uniforms (Texture (VoxelWorld.size w) (VoxelWorld.size w) (VoxelWorld.size w)
                     (VoxelWorld.data w))
            (F32.of_Z (VoxelWorld.size w)) maxSteps,
   (VoxelWorld.countVoxels w).2).

Section Shader.

Variable U : uniforms.

Definition outside_world (p : ivec3) : bool :=
  (ix p <? 0) || (ix p >=? int_of_float (u_worldSize U)) ||
  (iy p <? 0) || (iy p >=? int_of_float (u_worldSize U)) ||
  (iz p <? 0) || (iz p >=? int_of_float (u_worldSize U)).

(** [getVoxel(pos)] *)
Definition getVoxel (p : ivec3) : vec4 :=
  if (ix p <? 0) || (iy p <? 0) || (iz p <? 0) ||
     (ix p >=? int_of_float (u_worldSize U)) ||
     (iy p >=? int_of_float (u_worldSize U)) ||
     (iz p >=? int_of_float (u_worldSize U))
  then Vec4 F32.zero F32.zero F32.zero F32.zero
  else texelFetch_rgba8 (u_voxelData U) p.

(** What [traceRay] writes into [result] when the voxel at [mapPos] is
    occupied. *)
Definition voxel_hit (origin direction : vec3) (step : ivec3)
    (s : dda) (voxel : vec4) (result : HitResult) : HitResult :=
  let p := mapPos s in
  let n0 := vec3_of F32.zero in
  let nrm :=
    if side s =? 0 then Vec3 (- float_of_int (ix step))%f32 (vy n0) (vz n0)
    else if side s =? 1 then Vec3 (vx n0) (- float_of_int (iy step))%f32 (vz n0)
    else Vec3 (vx n0) (vy n0) (- float_of_int (iz step))%f32 in
  let along (m : Z) (o : F32.t) (st : Z) (d : F32.t) : F32.t :=
    ((float_of_int m - o + (F32.one - float_of_int st) / F32.two) / d)%f32 in
  let dist :=
    if side s =? 0 then along (ix p) (vx origin) (ix step) (vx direction)
    else if side s =? 1 then along (iy p) (vy origin) (iy step) (vy direction)
    else along (iz p) (vz origin) (iz step) (vz direction) in
  mkHit true (Some (vec3_of_ivec3 p)) nrm (Some voxel) (Some dist) (steps result).

(** The loop [for (int i = 0; i < 512; i++)] of [traceRay], entered at
    counter [i] with [n] iterations left. *)
Fixpoint traceRay_loop (n : nat) (i : Z) (origin direction : vec3)
    (step : ivec3) (deltaDist : vec3) (s : dda) (result : HitResult) : HitResult :=
  match n with
  | O => result
  | S n' =>
      if i >=? u_maxSteps U then result
      else
        let result := set_steps (i + 1) result in
        let voxel := getVoxel (mapPos s) in
        if (ca voxel >? F32.zero)%f32
        then voxel_hit origin direction step s voxel result
        else
          let s' := dda_step step deltaDist s in
          if outside_world (mapPos s') then result
          else traceRay_loop n' (i + 1) origin direction step deltaDist s' result
  end.

(** [traceRay(origin, direction)] *)
Definition traceRay (origin direction : vec3) : HitResult :=
  let result := mkHit false None (vec3_of F32.zero) None None 0 in
  let tBox := intersectAABB origin direction (vec3_of F32.zero) (vec3_of (u_worldSize U)) in
  if (v2x tBox >? v2y tBox)%f32 || (v2y tBox <? F32.zero)%f32 then result
  else
    let tStart := (F32.max F32.zero (v2x tBox) + F32.milli)%f32 in
    let startPos := vadd origin (vmuls direction tStart) in
    let mapPos0 := ivec3_of_vec3 (vfloor startPos) in
    let mapPos0 :=
      iclamp mapPos0 (ivec3_of 0) (ivec3_of (isub (int_of_float (u_worldSize U)) 1)) in
    let step := ivec3_of_vec3 (vsign direction) in
    let deltaDist := vabs (vdiv (vec3_of F32.one) direction) in
    let sideDist0 := initial_sideDist direction mapPos0 startPos deltaDist in
    traceRay_loop (Z.to_nat 512) 0 origin direction step deltaDist
                  (mkDda mapPos0 sideDist0 0) result.

(** [traceRay] with the constant of its loop header as a parameter: the
    loop is [for (int i = 0; i < cap; i++)].  The shader's function is the
    instance [cap = 512]. *)
Definition traceRay_within (cap : nat) (origin direction : vec3) : HitResult :=
  let result := mkHit false None (vec3_of F32.zero) None None 0 in
  let tBox := intersectAABB origin direction (vec3_of F32.zero) (vec3_of (u_worldSize U)) in
  if (v2x tBox >? v2y tBox)%f32 || (v2y tBox <? F32.zero)%f32 then result
  else
    let tStart := (F32.max F32.zero (v2x tBox) + F32.milli)%f32 in
    let startPos := vadd origin (vmuls direction tStart) in
    let mapPos0 := ivec3_of_vec3 (vfloor startPos) in
    let mapPos0 :=
      iclamp mapPos0 (ivec3_of 0) (ivec3_of (isub (int_of_float (u_worldSize U)) 1)) in
    let step := ivec3_of_vec3 (vsign direction) in
    let deltaDist := vabs (vdiv (vec3_of F32.one) direction) in
    let sideDist0 := initial_sideDist direction mapPos0 startPos deltaDist in
    traceRay_loop cap 0 origin direction step deltaDist
                  (mkDda mapPos0 sideDist0 0) result.

(** The loop [for (int i = 0; i < 128; i++)] of [traceShadow]. *)
Fixpoint traceShadow_loop (n : nat) (step : ivec3) (deltaDist : vec3) (s : dda) : F32.t :=
  match n with
  | O => F32.one
  | S n' =>
      if outside_world (mapPos s) then F32.one
      else if (ca (getVoxel (mapPos s)) >? F32.zero)%f32 then f32_0_3
      else traceShadow_loop n' step deltaDist (dda_step step deltaDist s)
  end.

(** [traceShadow(origin, direction)] *)
Definition traceShadow (origin direction : vec3) : F32.t :=
  let startPos := vadd origin (vmuls direction f32_0_01) in
  let mapPos0 := ivec3_of_vec3 (vfloor startPos) in
  let step := ivec3_of_vec3 (vsign direction) in
  let deltaDist := vabs (vdiv (vec3_of F32.one) direction) in
  let sideDist0 := initial_sideDist direction mapPos0 startPos deltaDist in
  traceShadow_loop (Z.to_nat 128) step deltaDist (mkDda mapPos0 sideDist0 0).

End Shader.

End SingleLevel.

(* ===================================================================== *)
(** * Facts about typed arrays and maps                                   *)
(* ===================================================================== *)

Section TypedArrayFacts.

Import TypedArray.

Lemma ta_in_range_iff a i : in_range a i = true ↔ 0 ≤ i < length a.
Proof. unfold in_range. rewrite andb_true_iff, Z.leb_le, Z.ltb_lt. tauto. Qed.

Lemma ta_get_is_Some a i : is_Some (get a i) ↔ 0 ≤ i < length a.
Proof.
  unfold get. rewrite <- ta_in_range_iff.
  destruct (in_range a i); split; intros H; eauto; try done.
Qed.

Lemma ta_get_Some_range a i v : get a i = Some v → 0 ≤ i < length a.
Proof. intros H. apply ta_get_is_Some. eauto. Qed.

Lemma ta_length_set a i v : length (set a i v) = length a.
Proof. unfold set. by destruct (in_range a i). Qed.

Lemma ta_bits_set a i v : bits (set a i v) = bits a.
Proof. unfold set. by destruct (in_range a i). Qed.

Lemma ta_get_set_eq a i v :
  0 ≤ i < length a → get (set a i v) i = Some (v mod 2 ^ bits a).
Proof.
  intros Hi. apply ta_in_range_iff in Hi. unfold get, set. rewrite Hi. simpl.
  unfold in_range in *. simpl. rewrite Hi. by rewrite lookup_insert_eq.
Qed.

Lemma ta_get_set_ne a i j v : i ≠ j → get (set a i v) j = get a j.
Proof.
  intros Hne. unfold get, set. destruct (in_range a i) eqn:Hi; [|done].
  unfold in_range. simpl. by rewrite lookup_insert_ne.
Qed.

Lemma ta_get_set a i j v :
  get (set a i v) j =
    if decide (i = j ∧ 0 ≤ i < length a) then Some (v mod 2 ^ bits a) else get a j.
Proof.
  case_decide as H.
  - destruct H as [-> H]. by apply ta_get_set_eq.
  - destruct (decide (i = j)) as [->|Hne]; [|by apply ta_get_set_ne].
    unfold set. destruct (in_range a j) eqn:Hj; [|done].
    apply ta_in_range_iff in Hj. tauto.
Qed.

Lemma ta_alloc_Some w n a :
  alloc w n = Some a ↔ 0 ≤ n ∧ a = mk w n ∅.
Proof.
  unfold alloc. destruct (Z.ltb_spec n 0); split; intros H'.
  - done.
  - lia.
  - split; [lia | congruence].
  - destruct H' as [_ ->]. done.
Qed.

Lemma ta_get_fresh w n i : 0 ≤ i < n → get (mk w n ∅) i = Some 0.
Proof.
  intros Hi. unfold get, in_range. simpl.
  destruct (Z.leb_spec 0 i), (Z.ltb_spec i n); try lia. done.
Qed.

Lemma ta_get_fresh_inv w n i v : get (mk w n ∅) i = Some v → v = 0.
Proof.
  unfold get. destruct (in_range _ _); [|done]. simpl.
  rewrite lookup_empty. simpl. congruence.
Qed.

Lemma ta_get_fill_zero a i v : get (fill_zero a) i = Some v → v = 0.
Proof. apply ta_get_fresh_inv. Qed.

End TypedArrayFacts.

Section JsMapFacts.

Import JsMap.
Context {V : Type}.
Implicit Types (m : JsMap.t V) (k : Z) (v : V).

Lemma jm_get_Some_elem m k v : get m k = Some v → (k, v) ∈ m.
Proof.
  induction m as [|[k' v'] m IH]; simpl; [done|].
  destruct (Z.eqb_spec k' k) as [->|Hne]; intros H.
  - injection H as ->. left.
  - right. by apply IH.
Qed.

Lemma jm_get_Some_key m k v : get m k = Some v → k ∈ keys m.
Proof.
  intros H. apply jm_get_Some_elem in H. unfold keys.
  apply list_elem_of_fmap. by exists (k, v).
Qed.

Lemma jm_get_None_key m k : get m k = None ↔ k ∉ keys m.
Proof.
  induction m as [|[k' v'] m IH]; simpl.
  - split; [intros _; apply not_elem_of_nil | done].
  - rewrite not_elem_of_cons. destruct (Z.eqb_spec k' k) as [->|Hne].
    + split; [done | tauto].
    + rewrite IH. split; [intros; split; congruence | tauto].
Qed.

Lemma jm_elem_get_Some m k v : NoDup (keys m) → (k, v) ∈ m → get m k = Some v.
Proof.
  induction m as [|[k' v'] m IH]; simpl; intros Hnd Hin.
  - by apply elem_of_nil in Hin.
  - apply NoDup_cons in Hnd as [Hk' Hnd].
    apply elem_of_cons in Hin as [Heq|Hin].
    + injection Heq as -> ->. by rewrite Z.eqb_refl.
    + destruct (Z.eqb_spec k' k) as [->|Hne]; [|by apply IH].
      exfalso. apply Hk'. apply list_elem_of_fmap. by exists (k, v).
Qed.

Lemma jm_get_set_eq m k v : get (set m k v) k = Some v.
Proof.
  induction m as [|[k' v'] m IH]; simpl.
  - by rewrite Z.eqb_refl.
  - destruct (Z.eqb_spec k' k) as [->|Hne]; simpl.
    + by rewrite Z.eqb_refl.
    + destruct (Z.eqb_spec k' k); [done|]. apply IH.
Qed.

Lemma jm_get_set_ne m k k' v : k ≠ k' → get (set m k v) k' = get m k'.
Proof.
  intros Hne. induction m as [|[k0 v0] m IH]; simpl.
  - destruct (Z.eqb_spec k k'); [done|]. done.
  - destruct (Z.eqb_spec k0 k) as [->|Hne0]; simpl.
    + destruct (Z.eqb_spec k k'); [done|]. done.
    + destruct (Z.eqb_spec k0 k'); [done|]. apply IH.
Qed.

Lemma jm_set_fresh m k v : get m k = None → set m k v = m ++ [(k, v)].
Proof.
  induction m as [|[k' v'] m IH]; simpl; [done|].
  destruct (Z.eqb_spec k' k); [done|]. intros H. by rewrite IH.
Qed.

Lemma jm_get_app_fresh m k v k' :
  get m k = None →
  get (m ++ [(k, v)]) k' = if decide (k = k') then Some v else get m k'.
Proof.
  intros H. rewrite <- (jm_set_fresh m k v H). case_decide as Hk.
  - subst. apply jm_get_set_eq.
  - by apply jm_get_set_ne.
Qed.

Lemma jm_keys_app m k v : keys (m ++ [(k, v)]) = keys m ++ [k].
Proof. unfold keys. by rewrite fmap_app. Qed.

Lemma jm_get_alter f m k k' :
  get (alter f k m) k' = if decide (k = k') then f <$> get m k' else get m k'.
Proof.
  induction m as [|[k0 v0] m IH]; simpl.
  - by case_decide.
  - destruct (Z.eqb_spec k0 k) as [->|Hne0]; simpl.
    + destruct (Z.eqb_spec k k') as [->|Hne]; case_decide; done.
    + destruct (Z.eqb_spec k0 k') as [->|Hne]; [|apply IH].
      case_decide; [congruence | done].
Qed.

Lemma jm_keys_alter f m k : keys (alter f k m) = keys m.
Proof.
  unfold keys. induction m as [|[k0 v0] m IH]; simpl; [done|].
  destruct (Z.eqb_spec k0 k); simpl; [done|]. f_equal. apply IH.
Qed.

Lemma jm_alter_compose f1 f2 m k :
  alter f2 k (alter f1 k m) = alter (f2 ∘ f1) k m.
Proof.
  induction m as [|[k0 v0] m IH]; simpl; [done|].
  destruct (Z.eqb_spec k0 k) as [->|Hne]; simpl.
  - by rewrite Z.eqb_refl.
  - destruct (Z.eqb_spec k0 k); [done|]. by rewrite IH.
Qed.

Lemma jm_alter_app_fresh f m k v :
  get m k = None → alter f k (m ++ [(k, v)]) = m ++ [(k, f v)].
Proof.
  induction m as [|[k0 v0] m IH]; simpl.
  - by rewrite Z.eqb_refl.
  - destruct (Z.eqb_spec k0 k); [done|]. intros H. by rewrite IH.
Qed.

End JsMapFacts.

(* ===================================================================== *)
(** * Coordinates: coarse cells and local slots                           *)
(* ===================================================================== *)

Lemma digits_unique (n a q a' q' : Z) :
  0 ≤ a < n → 0 ≤ a' < n → a + q * n = a' + q' * n → a = a' ∧ q = q'.
Proof.
  intros Ha Ha' H.
  destruct (Z.div_mod_unique n q q' a a') as [-> ->]; [lia | lia | lia | done].
Qed.

Lemma digits3_unique (n a b c a' b' c' : Z) :
  0 ≤ a < n → 0 ≤ b < n → 0 ≤ a' < n → 0 ≤ b' < n →
  a + b * n + c * n * n = a' + b' * n + c' * n * n →
  a = a' ∧ b = b' ∧ c = c'.
Proof.
  intros Ha Hb Ha' Hb' H.
  destruct (digits_unique n a (b + c * n) a' (b' + c' * n)) as [-> H2]; [lia | lia | lia |].
  destruct (digits_unique n b c b' c') as [-> ->]; [lia | lia | lia | done].
Qed.

Lemma digits3_range (n a b c : Z) :
  0 ≤ a < n → 0 ≤ b < n → 0 ≤ c < n → 0 ≤ a + b * n + c * n * n < n * n * n.
Proof. intros. nia. Qed.

Section Coordinates.

Variable w : BrickMapWorld.
Hypothesis Hwf : wf w.

Lemma in_world_sizes x y z :
  in_world w x y z → 0 < brickSize w ∧ 0 < coarseSize w.
Proof.
  intros (Hx & _ & _). pose proof (wf_coarse w Hwf) as HC.
  rewrite (wf_worldSize w Hwf) in Hx.
  destruct (Z.le_gt_cases (brickSize w) 0) as [HB|HB].
  - pose proof (Z.mul_nonneg_nonpos _ _ HC HB). lia.
  - split; [lia|]. destruct (Z.eq_dec (coarseSize w) 0) as [E|E]; [|lia].
    rewrite E in Hx. lia.
Qed.

Lemma in_world_not_out x y z : in_world w x y z → out_of_world w x y z = false.
Proof.
  intros (Hx & Hy & Hz). unfold out_of_world.
  repeat (apply orb_false_intro); first [apply Z.ltb_ge | apply Z.geb_leb, Z.leb_gt | idtac]; lia.
Qed.

Lemma out_of_world_not_in x y z : out_of_world w x y z = true → ¬ in_world w x y z.
Proof.
  intros H Hin. rewrite (in_world_not_out _ _ _ Hin) in H. done.
Qed.

Lemma coarse_digit x :
  0 < brickSize w → 0 ≤ x < worldSize w → 0 ≤ x / brickSize w < coarseSize w.
Proof.
  intros HB Hx. rewrite (wf_worldSize w Hwf) in Hx. split.
  - apply Z.div_pos; lia.
  - apply Z.div_lt_upper_bound; lia.
Qed.

Lemma coarse_index_of_eq x y z :
  in_world w x y z →
  coarse_index_of w x y z =
    x / brickSize w + (y / brickSize w) * coarseSize w
    + (z / brickSize w) * coarseSize w * coarseSize w.
Proof.
  intros Hin. destruct (in_world_sizes _ _ _ Hin) as [HB HC].
  destruct Hin as (Hx & Hy & Hz).
  pose proof (coarse_digit x HB Hx). pose proof (coarse_digit y HB Hy).
  pose proof (coarse_digit z HB Hz).
  unfold coarse_index_of, _worldToCoarse, _getCoarseIndex.
  replace (_ || _) with false; [done|]. symmetry.
  repeat (apply orb_false_intro); first [apply Z.ltb_ge | apply Z.geb_leb, Z.leb_gt | idtac]; lia.
Qed.

Lemma coarse_index_of_range x y z :
  in_world w x y z → 0 ≤ coarse_index_of w x y z < cells_of w.
Proof.
  intros Hin. rewrite (coarse_index_of_eq _ _ _ Hin).
  destruct (in_world_sizes _ _ _ Hin) as [HB HC]. destruct Hin as (Hx & Hy & Hz).
  apply digits3_range; by apply coarse_digit.
Qed.

Lemma local_index_of_eq x y z :
  in_world w x y z →
  local_index_of w x y z =
    (x mod brickSize w + (y mod brickSize w) * brickSize w
     + (z mod brickSize w) * brickSize w * brickSize w) * 4.
Proof.
  intros Hin. destruct (in_world_sizes _ _ _ Hin) as [HB HC].
  destruct Hin as (Hx & Hy & Hz).
  unfold local_index_of, _worldToLocal, _getBrickLocalIndex.
  rewrite !Z.rem_mod_nonneg by lia. done.
Qed.

Lemma local_index_of_range x y z :
  in_world w x y z →
  0 ≤ local_index_of w x y z ∧ local_index_of w x y z + 3 < brick_bytes w ∧
  local_index_of w x y z mod 4 = 0.
Proof.
  intros Hin. rewrite (local_index_of_eq _ _ _ Hin).
  destruct (in_world_sizes _ _ _ Hin) as [HB HC].
  pose proof (Z.mod_pos_bound x (brickSize w) HB).
  pose proof (Z.mod_pos_bound y (brickSize w) HB).
  pose proof (Z.mod_pos_bound z (brickSize w) HB).
  pose proof (digits3_range (brickSize w) _ _ _ H H0 H1).
  unfold brick_bytes. split; [lia|]. split; [lia|].
  by rewrite Z.mod_mul.
Qed.

(** A voxel is determined by its coarse cell and its slot in the brick. *)
Lemma voxel_address_inj x y z x' y' z' :
  in_world w x y z → in_world w x' y' z' →
  coarse_index_of w x y z = coarse_index_of w x' y' z' →
  local_index_of w x y z = local_index_of w x' y' z' →
  x = x' ∧ y = y' ∧ z = z'.
Proof.
  intros Hin Hin' Hc Hl.
  rewrite (coarse_index_of_eq _ _ _ Hin), (coarse_index_of_eq _ _ _ Hin') in Hc.
  rewrite (local_index_of_eq _ _ _ Hin), (local_index_of_eq _ _ _ Hin') in Hl.
  destruct (in_world_sizes _ _ _ Hin) as [HB HC].
  destruct Hin as (Hx & Hy & Hz), Hin' as (Hx' & Hy' & Hz').
  apply digits3_unique in Hc as (Hcx & Hcy & Hcz); try by apply coarse_digit.
  apply Z.mul_cancel_r in Hl; [|lia].
  apply digits3_unique in Hl as (Hlx & Hly & Hlz); try by apply Z.mod_pos_bound.
  rewrite (Z.div_mod x (brickSize w)), (Z.div_mod x' (brickSize w)) by lia.
  rewrite (Z.div_mod y (brickSize w)), (Z.div_mod y' (brickSize w)) by lia.
  rewrite (Z.div_mod z (brickSize w)), (Z.div_mod z' (brickSize w)) by lia.
  rewrite Hcx, Hcy, Hcz, Hlx, Hly, Hlz. done.
Qed.

Lemma cell_in_range c : 0 ≤ c < cells_of w → is_Some (cell w c).
Proof.
  intros Hc. unfold cell. apply ta_get_is_Some. by rewrite (wf_grid_length w Hwf).
Qed.

End Coordinates.

(* ===================================================================== *)
(** * What an in-bounds [setVoxel] does                                   *)
(* ===================================================================== *)

Lemma length_store4 l r g b a brick :
  TypedArray.length (store4 l r g b a brick) = TypedArray.length brick.
Proof. unfold store4. by rewrite !ta_length_set. Qed.

Lemma bits_store4 l r g b a brick :
  TypedArray.bits (store4 l r g b a brick) = TypedArray.bits brick.
Proof. unfold store4. by rewrite !ta_bits_set. Qed.

Lemma get_store4 brick l r g b a j :
  0 ≤ l → l + 3 < TypedArray.length brick →
  TypedArray.get (store4 l r g b a brick) j =
    if decide (j = l) then Some (r mod 2 ^ TypedArray.bits brick)
    else if decide (j = l + 1) then Some (g mod 2 ^ TypedArray.bits brick)
    else if decide (j = l + 2) then Some (b mod 2 ^ TypedArray.bits brick)
    else if decide (j = l + 3) then Some (a mod 2 ^ TypedArray.bits brick)
    else TypedArray.get brick j.
Proof.
  intros Hl Hlen. unfold store4.
  rewrite !ta_get_set, !ta_length_set, !ta_bits_set.
  repeat case_decide; try lia; done.
Qed.

Lemma bytes_store4 brick l r g b a :
  TypedArray.bits brick = 8 →
  (∀ i v, TypedArray.get brick i = Some v → 0 ≤ v < 256) →
  ∀ i v, TypedArray.get (store4 l r g b a brick) i = Some v → 0 ≤ v < 256.
Proof.
  intros Hbits Hold i v. unfold store4.
  rewrite !ta_get_set, !ta_bits_set, Hbits.
  repeat case_decide; intros Hv; try (by eapply Hold);
    injection Hv as <-; apply (Z.mod_pos_bound _ (2 ^ 8)); lia.
Qed.

Lemma pigeonhole (l : list Z) (n : Z) :
  0 ≤ n → NoDup l → (∀ x, x ∈ l → 0 ≤ x < n) → Z.of_nat (List.length l) ≤ n.
Proof.
  intros Hn Hnd Hin.
  assert (l ⊆+ seqZ 0 n) as Hsub.
  { apply NoDup_submseteq; [done|]. intros x Hx. apply elem_of_seqZ.
    specialize (Hin x Hx). lia. }
  apply submseteq_length in Hsub. rewrite length_seqZ in Hsub. lia.
Qed.

Section SetVoxel.

Variable w : BrickMapWorld.
Hypothesis Hwf : wf w.

Lemma next_fresh : JsMap.get (bricks w) (nextBrickIndex w) = None.
Proof.
  apply jm_get_None_key. intros Hk. apply (wf_keys_range w Hwf) in Hk. lia.
Qed.

Lemma getOrCreateBrick_cases x y z :
  in_world w x y z →
  let c := coarse_index_of w x y z in
  (cell w c = Some 0 ∧
   _getOrCreateBrick (x / brickSize w) (y / brickSize w) (z / brickSize w) w
     = Normal (Some (nextBrickIndex w)) (allocated w c))
  ∨ (∃ k, cell w c = Some k ∧ k ≠ 0 ∧
     _getOrCreateBrick (x / brickSize w) (y / brickSize w) (z / brickSize w) w
       = Normal (Some k) w).
Proof.
  intros Hin c.
  pose proof (coarse_index_of_range w Hwf _ _ _ Hin) as Hc. fold c in Hc.
  destruct (in_world_sizes w Hwf _ _ _ Hin) as [HB HC].
  destruct (cell_in_range w Hwf c Hc) as [k Hk].
  unfold _getOrCreateBrick.
  change (_getCoarseIndex w _ _ _) with c.
  destruct (Z.ltb_spec c 0) as [?|_]; [lia|].
  unfold cell in Hk. rewrite Hk.
  destruct (Z.eq_dec k 0) as [->|Hk0].
  - left. split; [done|]. simpl.
    assert (TypedArray.alloc 8 (brickSize w * brickSize w * brickSize w * 4)
            = Some (TypedArray.mk 8 (brick_bytes w) ∅)) as ->.
    { apply ta_alloc_Some. split; [nia | done]. }
    unfold brick_ref. simpl.
    rewrite (jm_set_fresh _ _ _ next_fresh).
    rewrite (jm_get_app_fresh _ _ _ _ next_fresh).
    rewrite decide_True by done. done.
  - right. exists k. split; [done|]. split; [done|].
    destruct (wf_cell_brick w Hwf c k Hk Hk0) as [brick Hbrick].
    unfold brick_ref. rewrite Hbrick. by destruct k.
Qed.

Lemma setVoxel_cases x y z r g b a :
  in_world w x y z →
  let c := coarse_index_of w x y z in
  let l := local_index_of w x y z in
  (cell w c = Some 0 ∧
   setVoxel x y z r g b a w = Normal true (created w c l r g b a))
  ∨ (∃ k, cell w c = Some k ∧ k ≠ 0 ∧
     setVoxel x y z r g b a w = Normal true (updated w k l r g b a)).
Proof.
  intros Hin c l.
  unfold setVoxel. rewrite (in_world_not_out w _ _ _ Hin).
  unfold _worldToCoarse, _worldToLocal.
  destruct (getOrCreateBrick_cases x y z Hin) as [[Hc ->]|(k & Hc & Hk & ->)].
  - left. split; [done|].
    change (_getBrickLocalIndex (allocated w (coarse_index_of w x y z)) _ _ _) with l.
    unfold brick_store, allocated, created, set_bricks. simpl.
    rewrite !(jm_alter_app_fresh _ _ _ _ next_fresh). done.
  - right. exists k. split; [done|]. split; [done|].
    change (_getBrickLocalIndex w _ _ _) with l.
    unfold brick_store, updated, set_bricks. simpl.
    rewrite !jm_alter_compose. done.
Qed.

(** No brick index wraps when it is stored in the coarse grid. *)
Lemma next_small c : 0 ≤ c < cells_of w → cell w c = Some 0 →
  nextBrickIndex w - 1 < cells_of w.
Proof.
  intros Hc Hz. destruct (wf_cells w Hwf) as (cells & Hnd & Hlen & Hcells).
  assert (c ∉ cells) as Hnotin.
  { intros Hin. apply Hcells in Hin as [_ Hne]. done. }
  assert (NoDup (c :: cells)) as Hnd' by (by apply NoDup_cons).
  apply pigeonhole with (n := cells_of w) in Hnd'.
  - simpl in Hnd'. lia.
  - lia.
  - intros x' [->|Hx']%elem_of_cons; [done|]. by apply Hcells.
Qed.

Lemma cell_allocated c c' :
  0 ≤ c < cells_of w → cell w c = Some 0 →
  cell (allocated w c) c' = if decide (c = c') then Some (nextBrickIndex w) else cell w c'.
Proof.
  intros Hc Hz. unfold cell, allocated. simpl.
  rewrite ta_get_set, (wf_grid_bits w Hwf), (wf_grid_length w Hwf).
  pose proof (next_small c Hc Hz). pose proof (wf_next w Hwf). pose proof (wf_small w Hwf).
  unfold small, cells_of in *.
  rewrite Z.mod_small by lia.
  repeat case_decide; try done; tauto.
Qed.

Lemma wf_allocated c :
  0 ≤ c < cells_of w → cell w c = Some 0 → wf (allocated w c).
Proof.
  intros Hc Hz.
  pose proof (cell_allocated c) as Hcell.
  pose proof (wf_next w Hwf) as Hnext.
  destruct Hwf as [H1 H2 H3 H4 H5 H6 H7 H8 H9 H10 H11 H12 H13 H14 H15].
  split; simpl; try done.
  - by rewrite ta_bits_set.
  - by rewrite ta_length_set.
  - lia.
  - lia.
  - destruct H9 as (cells & Hnd & Hlen & Hcells).
    exists (c :: cells). split; [|split].
    + apply NoDup_cons. split; [|done]. intros Hin. by apply Hcells in Hin as [_ ?].
    + simpl length. lia.
    + intros c' Hc'. unfold cells_of. simpl. fold (cells_of w).
      rewrite Hcell by done. case_decide as Hd.
      * subst. split; [done|]. intros [=]. lia.
      * apply elem_of_cons in Hc' as [->|Hc']; [done|]. by apply Hcells.
  - intros c' v. rewrite Hcell by done. case_decide.
    + intros [= <-]. lia.
    + intros Hv. apply H10 in Hv. lia.
  - intros c1 c2 v. rewrite !Hcell by done.
    repeat case_decide; subst; try done.
    + intros [= <-] Hv _. apply H10 in Hv. lia.
    + intros Hv [= <-] _. apply H10 in Hv. lia.
    + apply H11.
  - intros c' v. rewrite Hcell by done. rewrite (jm_get_app_fresh _ _ _ _ next_fresh).
    case_decide.
    + intros [= <-] _. rewrite decide_True by done. eauto.
    + intros Hv Hv0. case_decide; [eauto|]. by eapply H12.
  - rewrite jm_keys_app. apply NoDup_app. split; [done|]. split.
    + intros k Hk [->|[]%elem_of_nil]%elem_of_cons. apply H14 in Hk. lia.
    + apply NoDup_singleton.
  - intros k. rewrite jm_keys_app. intros [Hk|[->|[]%elem_of_nil]%elem_of_cons]%elem_of_app.
    + apply H14 in Hk. lia.
    + lia.
  - intros k brick. rewrite (jm_get_app_fresh _ _ _ _ next_fresh). case_decide.
    + intros [= <-]. simpl. split; [done|]. split; [done|].
      intros i v Hv. apply ta_get_fresh_inv in Hv. lia.
    + apply H15.
Qed.

End SetVoxel.

(* ===================================================================== *)
(** * Reads, and what a write changes                                     *)
(* ===================================================================== *)

Lemma getVoxel_read w x y z : getVoxel x y z w = Normal (read w x y z) w.
Proof.
  unfold read, getVoxel. repeat case_match; done.
Qed.

Lemma created_updated w c l r g b a :
  JsMap.get (bricks w) (nextBrickIndex w) = None →
  created w c l r g b a = updated (allocated w c) (nextBrickIndex w) l r g b a.
Proof.
  intros Hfresh. unfold created, updated, allocated, set_bricks. simpl.
  by rewrite (jm_alter_app_fresh _ _ _ _ Hfresh).
Qed.

Section Reads.

Variable w : BrickMapWorld.
Hypothesis Hwf : wf w.

Lemma read_eq x y z :
  in_world w x y z →
  read w x y z =
    match cell w (coarse_index_of w x y z) with
    | None => None
    | Some k =>
        if decide (k = 0) then Some zero_voxel
        else match JsMap.get (bricks w) k with
             | None => None
             | Some brick => Some (voxel_of_brick brick (local_index_of w x y z))
             end
    end.
Proof.
  intros Hin. unfold read, getVoxel. rewrite (in_world_not_out w _ _ _ Hin).
  unfold _worldToCoarse.
  change (_getCoarseIndex w _ _ _) with (coarse_index_of w x y z).
  pose proof (coarse_index_of_range w Hwf _ _ _ Hin) as Hc.
  destruct (Z.ltb_spec (coarse_index_of w x y z) 0) as [?|_]; [lia|].
  unfold cell. destruct (TypedArray.get _ _) as [k|]; [|done].
  case_decide as Hk.
  - subst. done.
  - destruct k; [done | |]; destruct (JsMap.get _ _); done.
Qed.

Lemma wf_updated k l r g b a : wf (updated w k l r g b a).
Proof.
  destruct Hwf as [H1 H2 H3 H4 H5 H6 H7 H8 H9 H10 H11 H12 H13 H14 H15].
  split; simpl; try done.
  - intros c v Hc Hv. rewrite jm_get_alter. case_decide; [|by eapply H12].
    subst. destruct (H12 c v Hc Hv) as [brick ->]. simpl. eauto.
  - by rewrite jm_keys_alter.
  - intros k'. rewrite jm_keys_alter. apply H14.
  - intros k' brick. rewrite jm_get_alter. case_decide; [|apply H15].
    destruct (JsMap.get (bricks w) k') as [brick0|] eqn:Hb; [|done].
    simpl. intros [= <-]. destruct (H15 _ _ Hb) as (Hbits & Hlen & Hbytes).
    rewrite bits_store4, length_store4. split; [done|]. split; [done|].
    by apply bytes_store4.
Qed.

End Reads.

Lemma in_world_updated w k l r g b a x y z :
  in_world (updated w k l r g b a) x y z ↔ in_world w x y z.
Proof. done. Qed.

Lemma in_world_allocated w c x y z :
  in_world (allocated w c) x y z ↔ in_world w x y z.
Proof. done. Qed.

(** Writing the brick [k] at slot [l] changes the voxel stored there and no
    other. *)
Lemma read_updated w x y z k r g b a x' y' z' :
  wf w → in_world w x y z → in_world w x' y' z' →
  cell w (coarse_index_of w x y z) = Some k → k ≠ 0 →
  read (updated w k (local_index_of w x y z) r g b a) x' y' z' =
    if decide (x' = x ∧ y' = y ∧ z' = z) then Some (stored_voxel r g b a)
    else read w x' y' z'.
Proof.
  intros Hwf Hin Hin' Hc Hk.
  rewrite (read_eq _ (wf_updated w Hwf _ _ _ _ _ _)) by done.
  rewrite (read_eq w Hwf) by done.
  change (cell (updated _ _ _ _ _ _ _) ?c) with (cell w c).
  change (coarse_index_of (updated _ _ _ _ _ _ _) x' y' z') with (coarse_index_of w x' y' z').
  change (local_index_of (updated _ _ _ _ _ _ _) x' y' z') with (local_index_of w x' y' z').
  destruct (local_index_of_range w Hwf _ _ _ Hin) as (Hl0 & Hl3 & Hl4).
  destruct (local_index_of_range w Hwf _ _ _ Hin') as (Hl0' & Hl3' & Hl4').
  destruct (wf_cell_brick w Hwf _ _ Hc Hk) as [brick Hbrick].
  destruct (wf_brick_shape w Hwf _ _ Hbrick) as (Hbits & Hlen & _).
  case_decide as Hsame.
  - destruct Hsame as (-> & -> & ->). rewrite Hc. rewrite decide_False by done.
    simpl. rewrite jm_get_alter, decide_True by done. rewrite Hbrick. simpl.
    unfold voxel_of_brick, stored_voxel.
    rewrite !get_store4, Hbits by lia. change (2 ^ 8) with 256.
    repeat first [rewrite decide_True by lia | rewrite decide_False by lia]. done.
  - destruct (cell w (coarse_index_of w x' y' z')) as [k'|] eqn:Hc'; [|done].
    case_decide as Hk'; [done|]. simpl. rewrite jm_get_alter.
    case_decide as Hkk; [|done]. subst k'. rewrite Hbrick. simpl.
    assert (coarse_index_of w x y z = coarse_index_of w x' y' z') as Hcc
      by (by eapply (wf_cell_inj w Hwf)).
    assert (local_index_of w x y z ≠ local_index_of w x' y' z') as Hll.
    { intros Hll. apply Hsame.
      destruct (voxel_address_inj w Hwf _ _ _ _ _ _ Hin Hin' Hcc Hll) as (-> & -> & ->). done. }
    unfold voxel_of_brick. rewrite !get_store4 by lia.
    repeat first [rewrite decide_False by lia]. done.
Qed.

(** Creating the brick of an empty cell changes no voxel. *)
Lemma read_allocated w c x y z :
  wf w → 0 ≤ c < cells_of w → cell w c = Some 0 → in_world w x y z →
  read (allocated w c) x y z = read w x y z.
Proof.
  intros Hwf Hc Hz Hin.
  rewrite (read_eq _ (wf_allocated w Hwf c Hc Hz)) by done.
  rewrite (read_eq w Hwf) by done.
  change (coarse_index_of (allocated _ _) x y z) with (coarse_index_of w x y z).
  change (local_index_of (allocated _ _) x y z) with (local_index_of w x y z).
  rewrite (cell_allocated w Hwf c _ Hc Hz).
  pose proof (wf_next w Hwf) as Hnext.
  destruct (local_index_of_range w Hwf _ _ _ Hin) as (Hl0 & Hl3 & Hl4).
  case_decide as Hcc.
  - subst c. rewrite Hz. rewrite decide_False by lia. rewrite decide_True by done.
    simpl. rewrite (jm_get_app_fresh _ _ _ _ (next_fresh w Hwf)), decide_True by done.
    unfold voxel_of_brick, zero_voxel. rewrite !ta_get_fresh by lia. done.
  - destruct (cell w (coarse_index_of w x y z)) as [k|] eqn:Hk; [|done].
    case_decide; [done|]. simpl.
    rewrite (jm_get_app_fresh _ _ _ _ (next_fresh w Hwf)).
    apply (wf_cell_lt w Hwf) in Hk. rewrite decide_False by lia. done.
Qed.

(** ** The effect of an in-bounds [setVoxel] *)

Lemma setVoxel_in_world w x y z r g b a :
  wf w → in_world w x y z →
  ∃ w', setVoxel x y z r g b a w = Normal true w' ∧ wf w' ∧
    coarseSize w' = coarseSize w ∧ brickSize w' = brickSize w ∧
    worldSize w' = worldSize w ∧
    (∀ x' y' z', in_world w x' y' z' →
       read w' x' y' z' =
         if decide (x' = x ∧ y' = y ∧ z' = z) then Some (stored_voxel r g b a)
         else read w x' y' z').
Proof.
  intros Hwf Hin.
  pose proof (coarse_index_of_range w Hwf _ _ _ Hin) as Hc.
  destruct (setVoxel_cases w Hwf x y z r g b a Hin) as [[Hz ->]|(k & Hk & Hk0 & ->)].
  - rewrite (created_updated _ _ _ _ _ _ _ (next_fresh w Hwf)).
    pose proof (wf_allocated w Hwf _ Hc Hz) as Hwf'.
    eexists. split; [done|]. split; [by apply wf_updated|]. do 3 (split; [done|]).
    intros x' y' z' Hin'.
    change (local_index_of w x y z) with (local_index_of (allocated w (coarse_index_of w x y z)) x y z).
    rewrite (read_updated _ x y z) ; try done.
    + case_decide; [done|]. by apply read_allocated.
    + change (coarse_index_of (allocated _ _) x y z) with (coarse_index_of w x y z).
      rewrite (cell_allocated w Hwf _ _ Hc Hz). by rewrite decide_True.
    + pose proof (wf_next w Hwf). lia.
  - eexists. split; [done|]. split; [by apply wf_updated|]. do 3 (split; [done|]).
    intros x' y' z' Hin'. by apply read_updated.
Qed.

(* ===================================================================== *)
(** * Every reachable world satisfies the invariant                       *)
(* ===================================================================== *)

Lemma out_of_world_false w x y z : out_of_world w x y z = false ↔ in_world w x y z.
Proof.
  unfold out_of_world, in_world. rewrite !orb_false_iff.
  rewrite !Z.ltb_ge, !Z.geb_leb, !Z.leb_gt. tauto.
Qed.

Lemma setVoxel_out_of_world w x y z r g b a :
  ¬ in_world w x y z → setVoxel x y z r g b a w = Normal false w.
Proof.
  intros Hout. unfold setVoxel.
  destruct (out_of_world w x y z) eqn:E; [done|].
  by apply out_of_world_false in E.
Qed.

Lemma constructor_Some C B w :
  constructor C B = Some w ↔
  0 ≤ C * C * C ∧
  w = mkWorld C B (C * B) (TypedArray.mk 32 (C * C * C) ∅) JsMap.empty 1 64 None 0 0.
Proof.
  unfold constructor. destruct (TypedArray.alloc _ _) as [grid|] eqn:E.
  - apply ta_alloc_Some in E as [H ->]. split.
    + intros [= <-]. done.
    + intros [_ ->]. done.
  - split; [done|]. intros [H _]. unfold TypedArray.alloc in E.
    destruct (Z.ltb_spec (C * C * C) 0); [lia | done].
Qed.

Lemma wf_empty C B W A atlas vc bits0 :
  0 ≤ C → C * C * C < 2 ^ 32 → W = C * B → A = 64 → bits0 = 32 →
  wf (mkWorld C B W (TypedArray.mk bits0 (C * C * C) ∅) JsMap.empty 1 A atlas vc 0).
Proof.
  intros HC Hsmall -> -> ->.
  split; simpl; try done.
  - exists []. split; [apply NoDup_nil_2|]. split; [done|]. intros c []%elem_of_nil.
  - intros c v Hv. apply ta_get_fresh_inv in Hv. lia.
  - intros c1 c2 v Hv. apply ta_get_fresh_inv in Hv. done.
  - intros c v Hv. apply ta_get_fresh_inv in Hv. done.
  - apply NoDup_nil_2.
  - intros k []%elem_of_nil.
Qed.

Lemma constructor_wf C B w : constructor C B = Some w → small w → wf w.
Proof.
  intros [HC ->]%constructor_Some Hsmall. unfold small in Hsmall. simpl in Hsmall.
  apply wf_empty; try done.
  destruct (Z.le_gt_cases 0 C); [done|]. nia.
Qed.

Lemma clear_wf w : wf w → ∀ w', clear w = Normal tt w' → wf w'.
Proof.
  intros Hwf w' [= <-].
  pose proof (wf_grid_length w Hwf) as Hlen. pose proof (wf_grid_bits w Hwf) as Hbits.
  unfold TypedArray.fill_zero, set_coarseGrid. simpl.
  rewrite Hlen. unfold cells_of.
  apply wf_empty; try done; apply Hwf.
Qed.

Lemma setVoxel_wf w x y z r g b a ok w' :
  wf w → setVoxel x y z r g b a w = Normal ok w' → wf w'.
Proof.
  intros Hwf H.
  destruct (out_of_world w x y z) eqn:E.
  - unfold setVoxel in H. rewrite E in H. by injection H as <- <-.
  - apply out_of_world_false in E.
    destruct (setVoxel_in_world w x y z r g b a Hwf E) as (w'' & Hw'' & Hwf'' & _).
    rewrite Hw'' in H. by injection H as <- <-.
Qed.

Lemma wf_set_voxelCount n w : wf w → wf (set_voxelCount n w).
Proof. intros []. by split. Qed.

Lemma wf_set_brickAtlasData d w : wf w → wf (set_brickAtlasData d w).
Proof. intros []. by split. Qed.

Lemma exec_wf c w w' : wf w → exec c w = Normal tt w' → wf w'.
Proof.
  intros Hwf. destruct c as [x y z r g b a|x y z| | |]; simpl;
    unfold mbind, method_bind, mret, method_ret.
  - destruct (setVoxel _ _ _ _ _ _ _ w) as [ok w1|] eqn:E; [|done].
    intros [= <-]. by eapply setVoxel_wf.
  - rewrite getVoxel_read. by intros [= <-].
  - by apply clear_wf.
  - unfold countVoxels. intros [= <-]. by apply wf_set_voxelCount.
  - unfold buildAtlas. destruct (TypedArray.alloc _ _); [|done].
    intros [= <-]. by apply wf_set_brickAtlasData.
Qed.

Lemma run_wf cs w w' : wf w → run cs w = Normal tt w' → wf w'.
Proof.
  revert w. induction cs as [|c cs IH]; intros w Hwf; simpl.
  - by intros [= <-].
  - unfold mbind, method_bind. destruct (exec c w) as [[] w1|] eqn:E; [|done].
    apply IH. by eapply exec_wf.
Qed.

Lemma setVoxel_sizes w x y z r g b a ok w' :
  setVoxel x y z r g b a w = Normal ok w' → same_sizes w w'.
Proof.
  unfold setVoxel, _getOrCreateBrick, same_sizes.
  intros H. repeat case_match; simplify_eq; done.
Qed.

Lemma exec_sizes c w w' : exec c w = Normal tt w' → same_sizes w w'.
Proof.
  destruct c as [x y z r g b a|x y z| | |]; simpl;
    unfold mbind, method_bind, mret, method_ret.
  - destruct (setVoxel _ _ _ _ _ _ _ w) as [ok w1|] eqn:E; [|done].
    intros [= <-]. by eapply setVoxel_sizes.
  - rewrite getVoxel_read. by intros [= <-].
  - by intros [= <-].
  - unfold countVoxels. by intros [= <-].
  - unfold buildAtlas. destruct (TypedArray.alloc _ _); [|done]. by intros [= <-].
Qed.

Lemma run_sizes cs w w' : run cs w = Normal tt w' → same_sizes w w'.
Proof.
  revert w. induction cs as [|c cs IH]; intros w; simpl.
  - by intros [= <-].
  - unfold mbind, method_bind. destruct (exec c w) as [[] w1|] eqn:E; [|done].
    intros H. apply IH in H. apply exec_sizes in E.
    unfold same_sizes in *. intuition congruence.
Qed.

Lemma reachable_wf w : reachable w → small w → wf w.
Proof.
  intros (C & B & w0 & cs & Hnew & Hrun) Hsmall.
  apply (run_wf cs w0); [|done].
  apply (constructor_wf C B); [done|].
  apply run_sizes in Hrun as (HC & _). unfold small in *. by rewrite <- HC.
Qed.

(* ===================================================================== *)
(** * Claims about the brick map                                          *)
(* ===================================================================== *)

(** A world of one coarse cell with bricks of 8^3 voxels, as built by
    [new BrickMapWorld(1, 8)], and one of 2^3 coarse cells. *)
Lemma world_1_8 :
  constructor 1 8 =
    Some (mkWorld 1 8 8 (TypedArray.mk 32 1 ∅) JsMap.empty 1 64 None 0 0).
Proof. reflexivity. Qed.

Lemma world_2_8 :
  constructor 2 8 =
    Some (mkWorld 2 8 16 (TypedArray.mk 32 8 ∅) JsMap.empty 1 64 None 0 0).
Proof. reflexivity. Qed.

Lemma reachable_constructed C B w : constructor C B = Some w → reachable w.
Proof. intros H. exists C, B, w, []. done. Qed.

Lemma reachable_run cs w w' : reachable w → run cs w = Normal tt w' → reachable w'.
Proof.
  intros (C & B & w0 & cs0 & Hnew & Hrun) H. exists C, B, w0, (cs0 ++ cs).
  split; [done|]. clear Hnew. revert w0 Hrun.
  induction cs0 as [|c cs0 IH]; simpl; intros w0.
  - by intros [= ->].
  - unfold mbind, method_bind. destruct (exec c w0) as [[] w1|]; [|done]. apply IH.
Qed.

(** C6.  [setVoxel] at a coordinate with a component outside
    [0, worldSize) returns [false] and leaves the world as it was: the
    coarse grid, the bricks, the counters and the index allocator are the
    fields of the same record.  The call completes normally, it does not
    throw.  This holds in every state of the object. *)
Theorem C6_setVoxel_out_of_bounds (w : BrickMapWorld) (x y z r g b a : Z) :
  x < 0 ∨ worldSize w ≤ x ∨ y < 0 ∨ worldSize w ≤ y ∨ z < 0 ∨ worldSize w ≤ z →
  setVoxel x y z r g b a w = Normal false w.
Proof.
  intros Hout. apply setVoxel_out_of_world. unfold in_world. lia.
Qed.

Lemma C6_setVoxel_out_of_bounds_witness :
  let w := mkWorld 2 8 16 (TypedArray.mk 32 8 ∅) JsMap.empty 1 64 None 0 0 in
  setVoxel 3 16 5 10 20 30 255 w = Normal false w.
Proof.
  intros w. apply (C6_setVoxel_out_of_bounds w 3 16 5 10 20 30 255).
  simpl. lia.
Defined.

(** C10.  For an in-bounds coordinate and any integer channel arguments,
    [setVoxel] stores every channel modulo 256, and the [getVoxel] that
    follows returns these bytes; they are the arguments themselves exactly
    when every argument is in 0..255. *)
Theorem C10_channels_stored_mod_256 (w : BrickMapWorld) (x y z r g b a : Z) :
  reachable w → small w → in_world w x y z →
  ∃ w', setVoxel x y z r g b a w = Normal true w' ∧
        getVoxel x y z w' =
          Normal (Some (Voxel.mk (Some (r mod 256)) (Some (g mod 256))
                                 (Some (b mod 256)) (Some (a mod 256)))) w' ∧
        (Voxel.mk (Some (r mod 256)) (Some (g mod 256))
                  (Some (b mod 256)) (Some (a mod 256))
         = Voxel.mk (Some r) (Some g) (Some b) (Some a)
         ↔ 0 ≤ r ≤ 255 ∧ 0 ≤ g ≤ 255 ∧ 0 ≤ b ≤ 255 ∧ 0 ≤ a ≤ 255).
Proof.
  intros Hreach Hsmall Hin.
  pose proof (reachable_wf w Hreach Hsmall) as Hwf.
  destruct (setVoxel_in_world w x y z r g b a Hwf Hin)
    as (w' & Hset & Hwf' & _ & _ & _ & Hread).
  exists w'. split; [done|]. split.
  - rewrite getVoxel_read, (Hread x y z Hin). by rewrite decide_True.
  - split.
    + intros [= Hr Hg Hb Ha]. lia.
    + intros (Hr & Hg & Hb & Ha). rewrite !Z.mod_small by lia. done.
Qed.

Lemma C10_channels_stored_mod_256_witness :
  let w := mkWorld 2 8 16 (TypedArray.mk 32 8 ∅) JsMap.empty 1 64 None 0 0 in
  ∃ w', setVoxel 9 3 15 256 (-1) 511 1000 w = Normal true w' ∧
        getVoxel 9 3 15 w' =
          Normal (Some (Voxel.mk (Some (256 mod 256)) (Some (-1 mod 256))
                                 (Some (511 mod 256)) (Some (1000 mod 256)))) w' ∧
        (Voxel.mk (Some (256 mod 256)) (Some (-1 mod 256))
                  (Some (511 mod 256)) (Some (1000 mod 256))
         = Voxel.mk (Some 256) (Some (-1)) (Some 511) (Some 1000)
         ↔ 0 ≤ 256 ≤ 255 ∧ 0 ≤ -1 ≤ 255 ∧ 0 ≤ 511 ≤ 255 ∧ 0 ≤ 1000 ≤ 255).
Proof.
  intros w. apply (C10_channels_stored_mod_256 w 9 3 15 256 (-1) 511 1000).
  - apply (reachable_constructed 2 8). reflexivity.
  - unfold small. simpl. lia.
  - unfold in_world. simpl. lia.
Defined.

(** C2.  For an in-bounds coordinate and a record whose channels are
    integers in 0..255 with a positive alpha, [setVoxel] followed by
    [getVoxel] at the same coordinate returns the record that was written. *)
Theorem C2_set_get_roundtrip (w : BrickMapWorld) (x y z r g b a : Z) :
  reachable w → small w → in_world w x y z →
  0 ≤ r ≤ 255 → 0 ≤ g ≤ 255 → 0 ≤ b ≤ 255 → 0 < a ≤ 255 →
  ∃ w', setVoxel x y z r g b a w = Normal true w' ∧
        getVoxel x y z w' =
          Normal (Some (Voxel.mk (Some r) (Some g) (Some b) (Some a))) w'.
Proof.
  intros Hreach Hsmall Hin Hr Hg Hb Ha.
  pose proof (reachable_wf w Hreach Hsmall) as Hwf.
  destruct (setVoxel_in_world w x y z r g b a Hwf Hin)
    as (w' & Hset & Hwf' & _ & _ & _ & Hread).
  exists w'. split; [done|].
  rewrite getVoxel_read, (Hread x y z Hin), decide_True by done.
  unfold stored_voxel. rewrite !Z.mod_small by lia. done.
Qed.

Lemma C2_set_get_roundtrip_witness :
  let w := mkWorld 2 8 16 (TypedArray.mk 32 8 ∅) JsMap.empty 1 64 None 0 0 in
  ∃ w', setVoxel 9 3 15 93 64 55 255 w = Normal true w' ∧
        getVoxel 9 3 15 w' =
          Normal (Some (Voxel.mk (Some 93) (Some 64) (Some 55) (Some 255))) w'.
Proof.
  intros w. apply (C2_set_get_roundtrip w 9 3 15 93 64 55 255).
  - apply (reachable_constructed 2 8). reflexivity.
  - unfold small. simpl. lia.
  - unfold in_world. simpl. lia.
  - lia.
  - lia.
  - lia.
  - lia.
Defined.

(** ** Unwritten voxels *)

Lemma in_world_same_sizes w w' x y z :
  same_sizes w w' → in_world w x y z → in_world w' x y z.
Proof. intros (_ & _ & HW). unfold in_world. by rewrite HW. Qed.

Lemma read_cleared w w' x y z :
  wf w → in_world w x y z → clear w = Normal tt w' → read w' x y z = Some zero_voxel.
Proof.
  intros Hwf Hin Hclear. pose proof (clear_wf w Hwf w' Hclear) as Hwf'.
  injection Hclear as <-.
  rewrite (read_eq _ Hwf') by done.
  pose proof (coarse_index_of_range _ Hwf' x y z Hin) as Hc.
  destruct (cell_in_range _ Hwf' _ Hc) as [k Hk]. rewrite Hk.
  apply ta_get_fill_zero in Hk as ->. done.
Qed.

Lemma read_constructed C B w x y z :
  constructor C B = Some w → small w → in_world w x y z →
  read w x y z = Some zero_voxel.
Proof.
  intros Hnew Hsmall Hin. pose proof (constructor_wf C B w Hnew Hsmall) as Hwf.
  rewrite (read_eq _ Hwf) by done.
  pose proof (coarse_index_of_range _ Hwf x y z Hin) as Hc.
  destruct (cell_in_range _ Hwf _ Hc) as [k Hk]. rewrite Hk.
  apply constructor_Some in Hnew as [_ ->].
  apply ta_get_fresh_inv in Hk as ->. done.
Qed.

Lemma read_set_voxelCount n w x y z : read (set_voxelCount n w) x y z = read w x y z.
Proof.
  unfold read, getVoxel, out_of_world, _worldToCoarse, _worldToLocal,
    _getCoarseIndex, _getBrickLocalIndex. simpl.
  repeat case_match; simplify_eq; done.
Qed.

Lemma read_set_brickAtlasData d w x y z :
  read (set_brickAtlasData d w) x y z = read w x y z.
Proof.
  unfold read, getVoxel, out_of_world, _worldToCoarse, _worldToLocal,
    _getCoarseIndex, _getBrickLocalIndex. simpl.
  repeat case_match; simplify_eq; done.
Qed.

Lemma read_exec_other c w w' x y z :
  wf w → in_world w x y z → writes_to x y z c = false → c ≠ CallClear →
  exec c w = Normal tt w' → read w' x y z = read w x y z.
Proof.
  intros Hwf Hin Hw Hc.
  destruct c as [x' y' z' r g b a|x' y' z'| | |]; simpl;
    unfold mbind, method_bind, mret, method_ret.
  - destruct (setVoxel _ _ _ _ _ _ _ w) as [ok w1|] eqn:E; [|done].
    intros [= <-].
    destruct (out_of_world w x' y' z') eqn:Hout.
    + unfold setVoxel in E. rewrite Hout in E. by injection E as <- <-.
    + apply out_of_world_false in Hout.
      destruct (setVoxel_in_world w x' y' z' r g b a Hwf Hout)
        as (w'' & Hset & _ & _ & _ & _ & Hread).
      rewrite Hset in E. injection E as <- <-.
      rewrite (Hread _ _ _ Hin). rewrite decide_False; [done|].
      intros (-> & -> & ->). simpl in Hw. by rewrite !Z.eqb_refl in Hw.
  - rewrite getVoxel_read. by intros [= <-].
  - done.
  - unfold countVoxels. intros [= <-]. apply read_set_voxelCount.
  - unfold buildAtlas. destruct (TypedArray.alloc _ _); [|done].
    intros [= <-]. apply read_set_brickAtlasData.
Qed.

Lemma read_clean cs x y z : ∀ w clean w',
  wf w → in_world w x y z →
  (clean = true → read w x y z = Some zero_voxel) →
  run cs w = Normal tt w' → clean_after x y z clean cs = true →
  read w' x y z = Some zero_voxel.
Proof.
  induction cs as [|c cs IH]; intros w clean w' Hwf Hin Hclean; simpl.
  - intros [= <-] ->. by apply Hclean.
  - unfold mbind, method_bind. destruct (exec c w) as [[] w1|] eqn:E; [|done].
    intros Hrun Hafter.
    pose proof (exec_wf _ _ _ Hwf E) as Hwf1.
    pose proof (in_world_same_sizes _ _ _ _ _ (exec_sizes _ _ _ E) Hin) as Hin1.
    assert (c = CallClear ∨ c ≠ CallClear) as [->|Hc]
      by (destruct c; first [by left | by right]).
    + apply (IH w1 true w'); try done. intros _. by apply (read_cleared w).
    + destruct (writes_to x y z c) eqn:Hw.
      * apply (IH w1 false w'); try done. by destruct c.
      * apply (IH w1 clean w'); try done.
        -- intros Hcl. rewrite (read_exec_other c w w1) by done. by apply Hclean.
        -- destruct c; try done; simpl in *; by rewrite Hw in Hafter.
Qed.

(** C7.  [getVoxel] at an in-bounds coordinate whose coarse cell holds
    index 0 returns the record (0, 0, 0, 0) and leaves the world as it was,
    so it allocates no brick; and so does [getVoxel] at an in-bounds
    coordinate that no [setVoxel] has written since the construction or the
    last [clear()], whatever else was written. *)
Theorem C7_getVoxel_unwritten (w : BrickMapWorld) (x y z : Z) :
  in_world w x y z →
  brick_index_of w x y z = Some 0 ∨
  (∃ C B w0 cs, constructor C B = Some w0 ∧ small w0 ∧
                run cs w0 = Normal tt w ∧ clean_after x y z true cs = true) →
  getVoxel x y z w =
    Normal (Some (Voxel.mk (Some 0) (Some 0) (Some 0) (Some 0))) w.
Proof.
  intros Hin [Hzero|(C & B & w0 & cs & Hnew & Hsmall & Hrun & Hclean)].
  - unfold getVoxel. apply out_of_world_false in Hin as ->.
    unfold brick_index_of, coarse_index_of in Hzero.
    destruct (_worldToCoarse w x y z) as [[cx cy] cz].
    pose proof (ta_get_Some_range _ _ _ Hzero) as Hrange.
    destruct (Z.ltb_spec (_getCoarseIndex w cx cy cz) 0) as [?|_]; [lia|].
    by rewrite Hzero.
  - rewrite getVoxel_read. f_equal.
    pose proof (constructor_wf C B w0 Hnew Hsmall) as Hwf0.
    pose proof (run_sizes _ _ _ Hrun) as Hsizes.
    assert (in_world w0 x y z) as Hin0.
    { destruct Hsizes as (_ & _ & HW). unfold in_world in *. by rewrite <- HW. }
    apply (read_clean cs x y z w0 true w); try done.
    intros _. by apply (read_constructed C B).
Qed.

Lemma C7_getVoxel_unwritten_witness :
  ∃ w, run [CallSetVoxel 0 0 0 1 2 3 255; CallClear; CallSetVoxel 9 3 15 93 64 55 255]
           (mkWorld 2 8 16 (TypedArray.mk 32 8 ∅) JsMap.empty 1 64 None 0 0)
       = Normal tt w ∧
       getVoxel 10 3 15 w =
         Normal (Some (Voxel.mk (Some 0) (Some 0) (Some 0) (Some 0))) w.
Proof.
  eexists. split; [vm_compute; reflexivity|].
  apply C7_getVoxel_unwritten.
  - unfold in_world. simpl. lia.
  - right. exists 2, 8, (mkWorld 2 8 16 (TypedArray.mk 32 8 ∅) JsMap.empty 1 64 None 0 0),
      [CallSetVoxel 0 0 0 1 2 3 255; CallClear; CallSetVoxel 9 3 15 93 64 55 255].
    split; [reflexivity|]. split; [unfold small; simpl; lia|].
    split; [vm_compute; reflexivity | reflexivity].
Defined.

(** ** Brick laziness *)





(** ** Allocated bricks and occupancy *)

Lemma occupied_store4 brick l r g b a :
  TypedArray.bits brick = 8 → 0 ≤ l → l mod 4 = 0 →
  l + 3 < TypedArray.length brick → a mod 256 ≠ 0 →
  occupied_brick (store4 l r g b a brick).
Proof.
  intros Hbits Hl0 Hl4 Hl3 Ha. exists (l / 4), (a mod 256).
  split; [lia|]. split.
  - replace (4 * (l / 4) + 3) with (l + 3) by lia.
    rewrite get_store4, Hbits by lia.
    repeat first [rewrite decide_True by lia | rewrite decide_False by lia]. done.
  - pose proof (Z.mod_pos_bound a 256). lia.
Qed.

Lemma no_empty_brick_updated w x y z k r g b a :
  wf w → no_empty_brick w → in_world w x y z →
  cell w (coarse_index_of w x y z) = Some k → k ≠ 0 → a mod 256 ≠ 0 →
  no_empty_brick (updated w k (local_index_of w x y z) r g b a).
Proof.
  intros Hwf Hneb Hin Hk Hk0 Ha c' k' Hc' Hk'.
  change (cell (updated _ _ _ _ _ _ _) c') with (cell w c') in Hc'.
  simpl. rewrite jm_get_alter. case_decide as Hkk.
  - subst k'. destruct (wf_cell_brick w Hwf _ _ Hk Hk0) as [brick Hbrick].
    destruct (wf_brick_shape w Hwf _ _ Hbrick) as (Hbits & Hlen & _).
    destruct (local_index_of_range w Hwf _ _ _ Hin) as (Hl0 & Hl3 & Hl4).
    rewrite Hbrick. simpl. eexists. split; [done|].
    apply occupied_store4; try done. lia.
  - by apply (Hneb c').
Qed.

Lemma no_empty_brick_created w x y z r g b a :
  wf w → no_empty_brick w → in_world w x y z →
  cell w (coarse_index_of w x y z) = Some 0 → a mod 256 ≠ 0 →
  no_empty_brick (created w (coarse_index_of w x y z) (local_index_of w x y z) r g b a).
Proof.
  intros Hwf Hneb Hin Hz Ha c' k' Hc' Hk'.
  pose proof (coarse_index_of_range w Hwf _ _ _ Hin) as Hc.
  change (cell (created _ ?c _ _ _ _ _) c') with (cell (allocated w c) c') in Hc'.
  rewrite (cell_allocated w Hwf _ _ Hc Hz) in Hc'.
  simpl. rewrite (jm_get_app_fresh _ _ _ _ (next_fresh w Hwf)).
  destruct (local_index_of_range w Hwf _ _ _ Hin) as (Hl0 & Hl3 & Hl4).
  case_decide as Hcc.
  - injection Hc' as <-. rewrite decide_True by done.
    eexists. split; [done|]. by apply occupied_store4.
  - pose proof (wf_cell_lt w Hwf _ _ Hc'). rewrite decide_False by lia.
    by apply (Hneb c').
Qed.

Lemma no_empty_brick_exec c w w' :
  wf w → no_empty_brick w → opaque_write c → exec c w = Normal tt w' →
  no_empty_brick w'.
Proof.
  intros Hwf Hneb Hop.
  destruct c as [x y z r g b a|x y z| | |]; simpl;
    unfold mbind, method_bind, mret, method_ret.
  - destruct (setVoxel _ _ _ _ _ _ _ w) as [ok w1|] eqn:E; [|done].
    intros [= <-]. simpl in Hop.
    destruct (out_of_world w x y z) eqn:Hout.
    + unfold setVoxel in E. rewrite Hout in E. by injection E as <- <-.
    + apply out_of_world_false in Hout.
      destruct (setVoxel_cases w Hwf x y z r g b a Hout)
        as [[Hz Hset]|(k & Hk & Hk0 & Hset)];
        rewrite Hset in E; injection E as <- <-.
      * by apply no_empty_brick_created.
      * by apply no_empty_brick_updated.
  - rewrite getVoxel_read. by intros [= <-].
  - intros [= <-] c k Hc Hk. apply ta_get_fill_zero in Hc. done.
  - unfold countVoxels. intros [= <-]. exact Hneb.
  - unfold buildAtlas. destruct (TypedArray.alloc _ _); [|done].
    intros [= <-]. exact Hneb.
Qed.

Lemma no_empty_brick_run cs : ∀ w w',
  wf w → no_empty_brick w → Forall opaque_write cs → run cs w = Normal tt w' →
  no_empty_brick w'.
Proof.
  induction cs as [|c cs IH]; intros w w' Hwf Hneb Hall; simpl.
  - by intros [= <-].
  - apply Forall_cons in Hall as [Hc Hall].
    unfold mbind, method_bind. destruct (exec c w) as [[] w1|] eqn:E; [|done].
    apply IH; [by eapply exec_wf | by eapply no_empty_brick_exec | done].
Qed.

(** C9, as the code has it.  When no [setVoxel] call stores a zero alpha
    byte, that is when every alpha argument is not a multiple of 256 (any
    alpha in 1..255, the default 255 included), every allocated brick holds
    a voxel with a positive alpha, after any calls. *)
Theorem C9_allocated_bricks_occupied (C B : Z) (w0 w : BrickMapWorld) (cs : list call) :
  constructor C B = Some w0 → small w0 →
  Forall opaque_write cs → run cs w0 = Normal tt w →
  no_empty_brick w.
Proof.
  intros Hnew Hsmall Hall Hrun.
  apply (no_empty_brick_run cs w0 w); try done.
  - by apply (constructor_wf C B).
  - intros c k Hc. apply constructor_Some in Hnew as [_ ->].
    apply ta_get_fresh_inv in Hc. done.
Qed.

Lemma C9_allocated_bricks_occupied_witness :
  ∃ w, run [CallSetVoxel 9 3 15 93 64 55 255; CallSetVoxel 9 3 15 1 2 3 1]
           (mkWorld 2 8 16 (TypedArray.mk 32 8 ∅) JsMap.empty 1 64 None 0 0)
       = Normal tt w ∧ no_empty_brick w.
Proof.
  eexists. split; [vm_compute; reflexivity|].
  apply (C9_allocated_bricks_occupied 2 8
           (mkWorld 2 8 16 (TypedArray.mk 32 8 ∅) JsMap.empty 1 64 None 0 0) _
           [CallSetVoxel 9 3 15 93 64 55 255; CallSetVoxel 9 3 15 1 2 3 1]).
  - reflexivity.
  - unfold small. simpl. lia.
  - repeat apply Forall_cons_2; try apply Forall_nil_2; simpl; lia.
  - vm_compute. reflexivity.
Defined.

(** C9, as stated, fails: a first write with alpha 0 into an empty region
    allocates the brick of that region and stores no occupied voxel in it.
    The world is [new BrickMapWorld(1, 8)] after
    [setVoxel(0, 0, 0, 255, 0, 0, 0)]. *)
Lemma C9_counterexample :
  ∃ w, run [CallSetVoxel 0 0 0 255 0 0 0]
           (mkWorld 1 8 8 (TypedArray.mk 32 1 ∅) JsMap.empty 1 64 None 0 0)
       = Normal tt w ∧
       cell w 0 = Some 1 ∧ ¬ no_empty_brick w.
Proof.
  set (w0 := mkWorld 1 8 8 (TypedArray.mk 32 1 ∅) JsMap.empty 1 64 None 0 0).
  assert (wf w0) as Hwf0.
  { apply (constructor_wf 1 8); [reflexivity | unfold small; simpl; lia]. }
  assert (in_world w0 0 0 0) as Hin by (unfold in_world; simpl; lia).
  exists (created w0 0 0 255 0 0 0).
  assert (setVoxel 0 0 0 255 0 0 0 w0 = Normal true (created w0 0 0 255 0 0 0)) as Hset.
  { destruct (setVoxel_cases w0 Hwf0 0 0 0 255 0 0 0 Hin) as [[_ ->]|(k & Hk & Hk0 & _)].
    - reflexivity.
    - exfalso. apply Hk0. vm_compute in Hk. congruence. }
  split; [|split].
  - simpl. unfold mbind, method_bind. rewrite Hset. reflexivity.
  - reflexivity.
  - intros Hneb. destruct (Hneb 0 1) as (brick & Hbrick & i & v & Hi & Hget & Hv).
    + reflexivity.
    + done.
    + assert (JsMap.get (bricks (created w0 0 0 255 0 0 0)) 1
              = Some (store4 0 255 0 0 0 (TypedArray.mk 8 2048 ∅))) as E by reflexivity.
      rewrite E in Hbrick. injection Hbrick as <-.
      rewrite get_store4 in Hget by (simpl; lia).
      repeat case_decide; try lia.
      * injection Hget as <-. simpl in Hv. lia.
      * apply ta_get_fresh_inv in Hget. lia.
Qed.

(* ===================================================================== *)
(** * The atlas                                                           *)
(* ===================================================================== *)

Lemma fold_left_bind {A B S : Type} (f : S → B → S) (g : A → list B) (l : list A) (s : S) :
  fold_left f (l ≫= g) s = fold_left (λ s x, fold_left f (g x) s) l s.
Proof.
  revert s. induction l as [|x l IH]; intros s; [done|].
  rewrite bind_cons, fold_left_app. simpl. apply IH.
Qed.

Lemma fold_left_ext_in {A S : Type} (f g : S → A → S) (l : list A) (s : S) :
  (∀ s x, f s x = g s x) → fold_left f l s = fold_left g l s.
Proof.
  intros H. revert s. induction l as [|x l IH]; intros s; [done|].
  simpl. rewrite H. apply IH.
Qed.

Lemma for_range_stores (n : Z) (body : Z → TypedArray.t → TypedArray.t)
    (g : Z → list (Z * option Z)) (atlas : TypedArray.t) :
  (∀ i a, body i a = fold_left atlas_store (g i) a) →
  for_range n body atlas = fold_left atlas_store (seqZ 0 n ≫= g) atlas.
Proof.
  intros H. unfold for_range. rewrite fold_left_bind.
  apply fold_left_ext_in. intros s x. apply H.
Qed.

Lemma atlas_copy_voxel_stores B S ax ay az brickData lz ly lx atlas :
  atlas_copy_voxel B S ax ay az brickData lz ly lx atlas =
    fold_left atlas_store (voxel_stores B S ax ay az brickData lz ly lx) atlas.
Proof.
  unfold atlas_copy_voxel, voxel_stores, atlas_dst, brick_src, atlas_store. simpl.
  rewrite !Z.add_0_r. done.
Qed.

Lemma atlas_copy_brick_stores A B S atlas entry :
  atlas_copy_brick A B S atlas entry = fold_left atlas_store (brick_stores A B S entry) atlas.
Proof.
  destruct entry as [brickIndex brickData]. unfold atlas_copy_brick, brick_stores. simpl.
  apply for_range_stores. intros lz a.
  apply for_range_stores. intros ly a'.
  apply for_range_stores. intros lx a''.
  apply atlas_copy_voxel_stores.
Qed.

Lemma buildAtlas_stores w :
  buildAtlas w =
    let S := atlasSize w * brickSize w in
    match TypedArray.alloc 8 (S * S * S * 4) with
    | None => Throw
    | Some fresh =>
        let atlas :=
          fold_left atlas_store (bricks w ≫= brick_stores (atlasSize w) (brickSize w) S) fresh in
        Normal atlas (set_brickAtlasData (Some atlas) w)
    end.
Proof.
  unfold buildAtlas. simpl. destruct (TypedArray.alloc _ _) as [fresh|]; [|done].
  rewrite fold_left_bind.
  rewrite (fold_left_ext_in _
    (λ s x, fold_left atlas_store (brick_stores (atlasSize w) (brickSize w)
                                     (atlasSize w * brickSize w) x) s)); [done|].
  intros s x. apply atlas_copy_brick_stores.
Qed.

Lemma length_stores ws atlas :
  TypedArray.length (fold_left atlas_store ws atlas) = TypedArray.length atlas.
Proof.
  revert atlas. induction ws as [|s ws IH]; intros atlas; [done|].
  simpl. rewrite IH. unfold atlas_store, TypedArray.set_js. apply ta_length_set.
Qed.

Lemma bits_stores ws atlas :
  TypedArray.bits (fold_left atlas_store ws atlas) = TypedArray.bits atlas.
Proof.
  revert atlas. induction ws as [|s ws IH]; intros atlas; [done|].
  simpl. rewrite IH. unfold atlas_store, TypedArray.set_js. apply ta_bits_set.
Qed.

(** If some store goes to [p] and every store to [p] carries the byte [v],
    the buffer holds [v] at [p] in the end, whatever the order. *)
Lemma get_stores ws atlas p v :
  TypedArray.bits atlas = 8 → 0 ≤ p < TypedArray.length atlas → 0 ≤ v < 256 →
  (∃ e, (p, e) ∈ ws) → (∀ e, (p, e) ∈ ws → e = Some v) →
  TypedArray.get (fold_left atlas_store ws atlas) p = Some v.
Proof.
  intros Hbits Hp Hv. induction ws as [|[i e] ws IH] using rev_ind.
  - intros [e []%elem_of_nil].
  - intros [e0 Hex] Hall. rewrite fold_left_app. simpl.
    unfold atlas_store at 1, TypedArray.set_js. simpl.
    rewrite ta_get_set, length_stores, bits_stores, Hbits.
    case_decide as Hi.
    + destruct Hi as [-> _]. rewrite (Hall e) by (apply elem_of_app; right; left).
      simpl. change (2 ^ 8) with 256. by rewrite Z.mod_small.
    + assert (i ≠ p) as Hne by (intros ->; apply Hi; done).
      apply IH.
      * apply elem_of_app in Hex as [Hex|[= <- _]%list_elem_of_singleton]; [eauto|done].
      * intros e' He'. apply Hall. apply elem_of_app. by left.
Qed.

Lemma elem_of_brick_stores A B S entry p e :
  (p, e) ∈ brick_stores A B S entry ↔
  ∃ lz ly lx c, 0 ≤ lz < B ∧ 0 ≤ ly < B ∧ 0 ≤ lx < B ∧ 0 ≤ c < 4 ∧
    p = atlas_dst B S (Z.rem (entry.1 - 1) A) (Z.rem ((entry.1 - 1) / A) A)
                  ((entry.1 - 1) / (A * A)) lz ly lx + c ∧
    e = TypedArray.get entry.2 (brick_src B lz ly lx + c).
Proof.
  unfold brick_stores. simpl. split.
  - intros (lz & (ly & (lx & Hin & Hlx)%list_elem_of_bind & Hly)%list_elem_of_bind
              & Hlz)%list_elem_of_bind.
    apply elem_of_seqZ in Hlx, Hly, Hlz.
    unfold voxel_stores in Hin. apply list_elem_of_fmap in Hin as (c & [= -> ->] & Hc).
    exists lz, ly, lx, c. repeat (split; [lia|]).
    split; [|done].
    repeat (apply elem_of_cons in Hc as [->|Hc]; [lia|]). by apply elem_of_nil in Hc.
  - intros (lz & ly & lx & c & Hlz & Hly & Hlx & Hc & -> & ->).
    apply list_elem_of_bind. exists lz. split; [|apply elem_of_seqZ; lia].
    apply list_elem_of_bind. exists ly. split; [|apply elem_of_seqZ; lia].
    apply list_elem_of_bind. exists lx. split; [|apply elem_of_seqZ; lia].
    unfold voxel_stores. apply list_elem_of_fmap. exists c. split; [done|].
    assert (c = 0 ∨ c = 1 ∨ c = 2 ∨ c = 3) as [ -> | [ -> | [ -> | -> ]]] by lia;
      repeat constructor.
Qed.

Lemma buildAtlas_built w :
  0 ≤ atlasSize w * brickSize w →
  buildAtlas w = Normal (built_atlas w) (set_brickAtlasData (Some (built_atlas w)) w).
Proof.
  intros HS. rewrite buildAtlas_stores. simpl.
  assert (TypedArray.alloc 8 (atlasSize w * brickSize w * (atlasSize w * brickSize w)
                              * (atlasSize w * brickSize w) * 4)
          = Some (TypedArray.mk 8 (atlasSize w * brickSize w * (atlasSize w * brickSize w)
                                   * (atlasSize w * brickSize w) * 4) ∅)) as ->.
  { apply ta_alloc_Some. split; [nia | done]. }
  done.
Qed.

Lemma length_built_atlas w :
  TypedArray.length (built_atlas w) =
    atlasSize w * brickSize w * (atlasSize w * brickSize w) * (atlasSize w * brickSize w) * 4.
Proof. unfold built_atlas. by rewrite length_stores. Qed.

(** A brick index is determined by its atlas cell. *)
Lemma atlas_cell_inj (A k k' : Z) :
  0 < A → 1 ≤ k → 1 ≤ k' →
  (k - 1) mod A = (k' - 1) mod A →
  ((k - 1) / A) mod A = ((k' - 1) / A) mod A →
  (k - 1) / (A * A) = (k' - 1) / (A * A) →
  k = k'.
Proof.
  intros HA Hk Hk' Hx Hy Hz.
  rewrite <- !Z.div_div in Hz by lia.
  pose proof (Z.div_mod (k - 1) A). pose proof (Z.div_mod (k' - 1) A).
  pose proof (Z.div_mod ((k - 1) / A) A). pose proof (Z.div_mod ((k' - 1) / A) A).
  assert ((k - 1) / A = (k' - 1) / A) by (rewrite H1, H2 by lia; congruence).
  assert (k - 1 = k' - 1) by (rewrite H, H0 by lia; congruence).
  lia.
Qed.

Lemma digit_pair_range (A B a l : Z) :
  0 ≤ a < A → 0 ≤ l < B → 0 ≤ a * B + l < A * B.
Proof.
  intros Ha Hl. split.
  - apply Z.add_nonneg_nonneg; [apply Z.mul_nonneg_nonneg|]; lia.
  - assert ((a + 1) * B ≤ A * B) by (apply Z.mul_le_mono_nonneg_r; lia). lia.
Qed.

Lemma atlas_index_inj (A B ax ay az lz ly lx c ax' ay' az' lz' ly' lx' c' : Z) :
  0 ≤ ax < A → 0 ≤ ay < A → 0 ≤ ax' < A → 0 ≤ ay' < A →
  0 ≤ lz < B → 0 ≤ ly < B → 0 ≤ lx < B → 0 ≤ c < 4 →
  0 ≤ lz' < B → 0 ≤ ly' < B → 0 ≤ lx' < B → 0 ≤ c' < 4 →
  atlas_dst B (A * B) ax ay az lz ly lx + c = atlas_dst B (A * B) ax' ay' az' lz' ly' lx' + c' →
  (ax = ax' ∧ ay = ay' ∧ az = az') ∧ lz = lz' ∧ ly = ly' ∧ lx = lx' ∧ c = c'.
Proof.
  intros Hax Hay Hax' Hay' Hlz Hly Hlx Hc Hlz' Hly' Hlx' Hc'. unfold atlas_dst. intros H.
  pose proof (digit_pair_range A B ax lx Hax Hlx) as HX.
  pose proof (digit_pair_range A B ay ly Hay Hly) as HY.
  pose proof (digit_pair_range A B ax' lx' Hax' Hlx') as HX'.
  pose proof (digit_pair_range A B ay' ly' Hay' Hly') as HY'.
  assert (c + (ax * B + lx + (ay * B + ly) * (A * B) + (az * B + lz) * (A * B) * (A * B)) * 4
          = c' + (ax' * B + lx' + (ay' * B + ly') * (A * B)
                  + (az' * B + lz') * (A * B) * (A * B)) * 4) as H' by lia.
  apply digits_unique in H' as [-> HQ]; try done.
  apply digits3_unique in HQ as (EX & EY & EZ); try done.
  rewrite (Z.add_comm (ax * B)), (Z.add_comm (ax' * B)) in EX.
  rewrite (Z.add_comm (ay * B)), (Z.add_comm (ay' * B)) in EY.
  rewrite (Z.add_comm (az * B)), (Z.add_comm (az' * B)) in EZ.
  apply digits_unique in EX as [-> ->]; try done.
  apply digits_unique in EY as [-> ->]; try done.
  apply digits_unique in EZ as [-> ->]; try done.
Qed.

Lemma atlas_index_range (A B ax ay az lz ly lx c : Z) :
  0 ≤ ax < A → 0 ≤ ay < A → 0 ≤ az < A →
  0 ≤ lz < B → 0 ≤ ly < B → 0 ≤ lx < B → 0 ≤ c < 4 →
  0 ≤ atlas_dst B (A * B) ax ay az lz ly lx + c < A * B * (A * B) * (A * B) * 4.
Proof.
  intros Hax Hay Haz Hlz Hly Hlx Hc. unfold atlas_dst.
  pose proof (digit_pair_range A B ax lx Hax Hlx) as HX.
  pose proof (digit_pair_range A B ay ly Hay Hly) as HY.
  pose proof (digit_pair_range A B az lz Haz Hlz) as HZ.
  pose proof (digits3_range (A * B) _ _ _ HX HY HZ). lia.
Qed.

(** Two stores of [buildAtlas] to the same byte of the atlas come from the
    same brick, the same voxel and the same channel. *)
Lemma atlas_dst_inj (A B k k' lz ly lx c lz' ly' lx' c' : Z) :
  0 < A → 0 < B → 1 ≤ k → 1 ≤ k' →
  0 ≤ lz < B → 0 ≤ ly < B → 0 ≤ lx < B → 0 ≤ c < 4 →
  0 ≤ lz' < B → 0 ≤ ly' < B → 0 ≤ lx' < B → 0 ≤ c' < 4 →
  atlas_dst B (A * B) ((k - 1) mod A) (((k - 1) / A) mod A) ((k - 1) / (A * A)) lz ly lx + c =
  atlas_dst B (A * B) ((k' - 1) mod A) (((k' - 1) / A) mod A) ((k' - 1) / (A * A)) lz' ly' lx' + c' →
  k = k' ∧ lz = lz' ∧ ly = ly' ∧ lx = lx' ∧ c = c'.
Proof.
  intros HA HB Hk Hk' Hlz Hly Hlx Hc Hlz' Hly' Hlx' Hc' H.
  apply atlas_index_inj in H as ((Ex & Ey & Ez) & Hrest);
    try done; try (apply Z.mod_pos_bound; done).
  split; [|done]. by apply (atlas_cell_inj A).
Qed.

Lemma atlas_dst_range (A B k lz ly lx c : Z) :
  0 < A → 0 < B → 1 ≤ k ≤ A * A * A →
  0 ≤ lz < B → 0 ≤ ly < B → 0 ≤ lx < B → 0 ≤ c < 4 →
  0 ≤ atlas_dst B (A * B) ((k - 1) mod A) (((k - 1) / A) mod A) ((k - 1) / (A * A)) lz ly lx + c
    < A * B * (A * B) * (A * B) * 4.
Proof.
  intros HA HB Hk Hlz Hly Hlx Hc.
  apply atlas_index_range; try done; try (apply Z.mod_pos_bound; done).
  split.
  - apply Z.div_pos; [lia|]. apply Z.mul_pos_pos; done.
  - apply Z.div_lt_upper_bound; [apply Z.mul_pos_pos; done|].
    lia.
Qed.

Lemma get_built_atlas w k brick lz ly lx c :
  wf w → 0 < brickSize w →
  JsMap.get (bricks w) k = Some brick →
  k ≤ atlasSize w * atlasSize w * atlasSize w →
  0 ≤ lz < brickSize w → 0 ≤ ly < brickSize w → 0 ≤ lx < brickSize w → 0 ≤ c < 4 →
  TypedArray.get (built_atlas w)
    (atlas_dst (brickSize w) (atlasSize w * brickSize w)
       ((k - 1) mod atlasSize w) (((k - 1) / atlasSize w) mod atlasSize w)
       ((k - 1) / (atlasSize w * atlasSize w)) lz ly lx + c)
  = TypedArray.get brick (brick_src (brickSize w) lz ly lx + c).
Proof.
  intros Hwf HB Hbrick Hcap Hlz Hly Hlx Hc.
  assert (0 < atlasSize w) as HA by (rewrite (wf_atlasSize w Hwf); lia).
  pose proof (wf_keys_range w Hwf k (jm_get_Some_key _ _ _ Hbrick)) as [Hk1 _].
  destruct (wf_brick_shape w Hwf k brick Hbrick) as (Hbits & Hlen & Hbytes).
  assert (0 ≤ brick_src (brickSize w) lz ly lx + c < brick_bytes w) as Hsrc.
  { unfold brick_src, brick_bytes.
    pose proof (digits3_range (brickSize w) _ _ _ Hlx Hly Hlz). lia. }
  destruct (proj2 (ta_get_is_Some brick _) ltac:(rewrite Hlen; exact Hsrc)) as [v Hv].
  rewrite Hv. unfold built_atlas.
  apply get_stores.
  - done.
  - simpl. by apply atlas_dst_range.
  - by apply (Hbytes _ _ Hv).
  - exists (Some v). apply list_elem_of_bind. exists (k, brick).
    split; [|by apply jm_get_Some_elem].
    apply elem_of_brick_stores. exists lz, ly, lx, c. simpl.
    rewrite !Z.rem_mod_nonneg; try lia; [done|]. apply Z.div_pos; lia.
  - intros e ([k' brick'] & Hin & Hentry)%list_elem_of_bind.
    apply elem_of_brick_stores in Hin
      as (lz' & ly' & lx' & c' & Hlz' & Hly' & Hlx' & Hc' & Hp & ->). simpl in *.
    assert (k' ∈ JsMap.keys (bricks w)) as Hkey.
    { unfold JsMap.keys. apply list_elem_of_fmap. by exists (k', brick'). }
    pose proof (wf_keys_range w Hwf k' Hkey) as [Hk1' _].
    rewrite !Z.rem_mod_nonneg in Hp; try lia; [|apply Z.div_pos; lia].
    apply atlas_dst_inj in Hp as (-> & -> & -> & -> & ->); try done.
    apply (jm_elem_get_Some _ _ _ (wf_keys_nodup w Hwf)) in Hentry.
    rewrite Hbrick in Hentry. injection Hentry as <-. done.
Qed.

(** C3, as the code has it.  The atlas has room for [atlasSize]^3 = 64^3
    bricks.  For every occupied voxel whose brick index is at most that
    capacity, the buffer that [buildAtlas] returns holds, at the atlas
    coordinate of the voxel, the record that [getVoxel] returns for it. *)
Theorem C3_atlas_fidelity (w : BrickMapWorld) (x y z idx al : Z) (v : Voxel.t) :
  reachable w → small w → in_world w x y z →
  getVoxel x y z w = Normal (Some v) w → Voxel.a v = Some al → 0 < al →
  brick_index_of w x y z = Some idx →
  idx ≤ atlasSize w * atlasSize w * atlasSize w →
  ∃ atlas w', buildAtlas w = Normal atlas w' ∧
    let '(lx, ly, lz) := _worldToLocal w x y z in
    atlas_record atlas (atlasSize w * brickSize w)
                 (atlas_coord (atlasSize w) (brickSize w) idx lx ly lz) = v.
Proof.
  intros Hreach Hsmall Hin Hget Ha Hal Hidx Hcap.
  pose proof (reachable_wf w Hreach Hsmall) as Hwf.
  destruct (in_world_sizes w Hwf _ _ _ Hin) as [HB HC].
  pose proof (wf_atlasSize w Hwf) as HA.
  exists (built_atlas w), (set_brickAtlasData (Some (built_atlas w)) w).
  split; [apply buildAtlas_built; lia|].
  rewrite getVoxel_read in Hget. injection Hget as Hread.
  rewrite (read_eq w Hwf) in Hread by done.
  unfold brick_index_of in Hidx. unfold cell in Hread. rewrite Hidx in Hread.
  case_decide as Hidx0.
  { injection Hread as <-. simpl in Ha. injection Ha as <-. lia. }
  destruct (JsMap.get (bricks w) idx) as [brick|] eqn:Hbrick; [|done].
  injection Hread as <-.
  rewrite (local_index_of_eq w Hwf) by done.
  unfold _worldToLocal. destruct Hin as (Hx & Hy & Hz).
  rewrite !Z.rem_mod_nonneg by lia.
  pose proof (Z.mod_pos_bound x _ HB) as Hlx.
  pose proof (Z.mod_pos_bound y _ HB) as Hly.
  pose proof (Z.mod_pos_bound z _ HB) as Hlz.
  unfold atlas_record, atlas_coord, voxel_of_brick.
  pose proof (λ c, get_built_atlas w idx brick _ _ _ c Hwf HB Hbrick Hcap Hlz Hly Hlx) as Hb.
  unfold atlas_dst, brick_src in Hb.
  f_equal.
  - specialize (Hb 0 ltac:(lia)). rewrite !Z.add_0_r in Hb. exact Hb.
  - exact (Hb 1 ltac:(lia)).
  - exact (Hb 2 ltac:(lia)).
  - exact (Hb 3 ltac:(lia)).
Qed.

Lemma C3_atlas_fidelity_witness :
  ∃ w, run [CallSetVoxel 9 3 15 93 64 55 255]
           (mkWorld 2 8 16 (TypedArray.mk 32 8 ∅) JsMap.empty 1 64 None 0 0)
       = Normal tt w ∧
  ∃ atlas w', buildAtlas w = Normal atlas w' ∧
    let '(lx, ly, lz) := _worldToLocal w 9 3 15 in
    atlas_record atlas (atlasSize w * brickSize w)
                 (atlas_coord (atlasSize w) (brickSize w) 1 lx ly lz)
      = Voxel.mk (Some 93) (Some 64) (Some 55) (Some 255).
Proof.
  eexists. split; [vm_compute; reflexivity|].
  apply (C3_atlas_fidelity _ 9 3 15 1 255).
  - exists 2, 8, (mkWorld 2 8 16 (TypedArray.mk 32 8 ∅) JsMap.empty 1 64 None 0 0),
      [CallSetVoxel 9 3 15 93 64 55 255].
    split; [reflexivity | vm_compute; reflexivity].
  - unfold small. simpl. lia.
  - unfold in_world. simpl. lia.
  - vm_compute. reflexivity.
  - reflexivity.
  - lia.
  - vm_compute. reflexivity.
  - simpl. lia.
Defined.

(** ** More bricks than the atlas holds *)

Lemma run_app cs1 cs2 w :
  run (cs1 ++ cs2) w =
    match run cs1 w with
    | Normal _ w1 => run cs2 w1
    | Throw => Throw
    end.
Proof.
  revert w. induction cs1 as [|c cs1 IH]; intros w; simpl; [done|].
  unfold mbind, method_bind. destruct (exec c w) as [[] w1|]; [apply IH | done].
Qed.

Lemma fill_calls_succ n : 0 ≤ n → fill_calls (Z.succ n) = fill_calls n ++ [fill_call n].
Proof.
  intros Hn. unfold fill_calls, Z.succ. rewrite seqZ_app by lia.
  rewrite fmap_app. done.
Qed.

Section Fill.

Lemma fill_in_world w k :
  same_sizes world_65_8 w → 0 ≤ k < 274625 →
  in_world w (8 * (k mod 65)) (8 * ((k / 65) mod 65)) (8 * (k / 4225)).
Proof.
  intros (_ & _ & HW) Hk. unfold in_world. rewrite HW. simpl. lia.
Qed.

Lemma fill_coarse_index w k :
  wf w → same_sizes world_65_8 w → 0 ≤ k < 274625 →
  coarse_index_of w (8 * (k mod 65)) (8 * ((k / 65) mod 65)) (8 * (k / 4225)) = k.
Proof.
  intros Hwf Hs Hk. rewrite (coarse_index_of_eq w Hwf) by (by apply fill_in_world).
  destruct Hs as (-> & -> & _). simpl.
  rewrite !(Z.mul_comm 8), !Z.div_mul by lia. lia.
Qed.

Lemma fill_spec n :
  0 ≤ n → n ≤ 274625 →
  ∃ w, run (fill_calls n) world_65_8 = Normal tt w ∧ wf w ∧ same_sizes world_65_8 w ∧
       atlasSize w = 64 ∧ nextBrickIndex w = n + 1 ∧
       (∀ k, 0 ≤ k < n → cell w k = Some (k + 1)) ∧
       (∀ k, n ≤ k < 274625 → cell w k = Some 0) ∧
       (0 < n →
        read w (8 * ((n - 1) mod 65)) (8 * (((n - 1) / 65) mod 65)) (8 * ((n - 1) / 4225))
          = Some (stored_voxel 255 255 255 255)).
Proof.
  intros Hn. pattern n. apply natlike_ind; [| |exact Hn]; clear n Hn.
  - intros _. exists world_65_8.
    assert (wf world_65_8) as Hwf0.
    { apply (constructor_wf 65 8); [reflexivity | unfold small; simpl; lia]. }
    split; [done|]. split; [done|]. split; [done|]. split; [done|]. split; [done|].
    split; [intros; lia|]. split; [|lia].
    intros k Hk. by apply ta_get_fresh.
  - intros n Hn IH Hle.
    destruct IH as (w & Hrun & Hwf & Hs & HA & Hnext & Hlow & Hhigh & _); [lia|].
    assert (0 ≤ n < 274625) as Hk by lia.
    pose proof (fill_in_world w n Hs Hk) as Hin.
    pose proof (fill_coarse_index w n Hwf Hs Hk) as Hc.
    pose proof (Hhigh n ltac:(lia)) as Hz.
    assert (0 ≤ n < cells_of w) as Hrange.
    { unfold cells_of. destruct Hs as (-> & _). simpl. lia. }
    destruct (setVoxel_in_world w _ _ _ 255 255 255 255 Hwf Hin)
      as (w' & Hset & Hwf' & HC' & HB' & HW' & Hread).
    destruct (setVoxel_cases w Hwf _ _ _ 255 255 255 255 Hin)
      as [[_ Hset']|(k & Hk' & Hk0 & _)]; [|rewrite Hc, Hz in Hk'; congruence].
    rewrite Hset in Hset'. injection Hset' as Hw'. rewrite Hc in Hw'.
    exists w'. split; [|split; [done|split; [|split; [|split; [|split; [|split]]]]]].
    + rewrite fill_calls_succ, run_app, Hrun by done. simpl.
      unfold mbind, method_bind, fill_call. rewrite Hset. done.
    + destruct Hs as (? & ? & ?). unfold same_sizes. by rewrite HC', HB', HW'.
    + by rewrite Hw'.
    + rewrite Hw'. simpl. lia.
    + intros k Hk'. rewrite Hw'.
      change (cell (created w n ?l _ _ _ _) k) with (cell (allocated w n) k).
      rewrite (cell_allocated w Hwf n k Hrange Hz).
      case_decide; [subst; f_equal; lia | apply Hlow; lia].
    + intros k Hk'. rewrite Hw'.
      change (cell (created w n ?l _ _ _ _) k) with (cell (allocated w n) k).
      rewrite (cell_allocated w Hwf n k Hrange Hz).
      case_decide; [lia | apply Hhigh; lia].
    + intros _. replace (Z.succ n - 1) with n by lia.
      rewrite (Hread _ _ _ Hin). by rewrite decide_True.
Qed.

End Fill.

(** C3, as stated, fails when there are more bricks than atlas cells.  In
    [new BrickMapWorld(65, 8)], write one voxel into each of the first
    262145 coarse cells.  The voxel (512, 16, 496) of the last of them is
    occupied and its brick has index 262145 = 64^3 + 1; its atlas coordinate
    (0, 0, 512) is outside the buffer of 512^3 records, where [buildAtlas]
    stored nothing and a read gives [undefined]. *)
Lemma C3_counterexample :
  ∃ w atlas w',
    run (fill_calls 262145)
        (mkWorld 65 8 520 (TypedArray.mk 32 274625 ∅) JsMap.empty 1 64 None 0 0)
      = Normal tt w ∧
    getVoxel 512 16 496 w =
      Normal (Some (Voxel.mk (Some 255) (Some 255) (Some 255) (Some 255))) w ∧
    brick_index_of w 512 16 496 = Some 262145 ∧
    buildAtlas w = Normal atlas w' ∧
    atlas_record atlas (64 * 8) (atlas_coord 64 8 262145 0 0 0)
      = Voxel.mk None None None None.
Proof.
  assert (0 < 262145) as H1 by lia.
  assert (0 ≤ 262144 < 274625) as H2 by lia.
  assert (0 ≤ 262144 < 262145) as H3 by lia.
  destruct (fill_spec 262145) as (w & Hrun & Hwf & Hs & HA & Hnext & Hlow & Hhigh & Hread);
    [lia | lia |].
  exists w, (built_atlas w), (set_brickAtlasData (Some (built_atlas w)) w).
  split; [exact Hrun|]. clear Hrun. split; [|split; [|split]].
  - rewrite getVoxel_read. f_equal. apply Hread. exact H1.
  - unfold brick_index_of.
    change 512 with (8 * (262144 mod 65)).
    change 16 with (8 * ((262144 / 65) mod 65)).
    change 496 with (8 * (262144 / 4225)).
    rewrite (fill_coarse_index w 262144 Hwf Hs H2).
    apply (Hlow 262144 H3).
  - apply buildAtlas_built. destruct Hs as (_ & -> & _). rewrite HA. done.
  - unfold atlas_record, atlas_coord, voxel_of_brick.
    assert (∀ i, 536870912 ≤ i → TypedArray.get (built_atlas w) i = None) as Hout.
    { intros i Hi. destruct (TypedArray.get _ i) eqn:E; [|done].
      apply ta_get_Some_range in E. rewrite length_built_atlas in E.
      destruct Hs as (_ & HB & _). rewrite HB, HA in E. simpl in E.
      clear - E Hi. lia. }
    rewrite !Hout; [done | | | |]; vm_compute; congruence.
Qed.

(* ===================================================================== *)
(** * Claims about the traversal                                          *)
(* ===================================================================== *)

(** The decimal literals of the shader, as binary32 values. *)
Lemma literal_half : F32.half = (F32.one / F32.two)%f32.
Proof. reflexivity. Qed.

Lemma literal_milli : F32.milli = (F32.one / F32.of_Z 1000)%f32.
Proof. reflexivity. Qed.

(** The bytes 255 and 0 of an RGBA8 texel, as the sampler presents them. *)
Lemma unorm8_255 : unorm8 255 = F32.one.
Proof. reflexivity. Qed.

Lemma unorm8_0 : unorm8 0 = F32.zero.
Proof. reflexivity. Qed.

(** C1, as the code has it.  In the world of one brick of 8^3 voxels whose
    only written voxel is (4, 4, 4) with record (255, 0, 0, 255), and with a
    step budget of at least one, [traceRay] from (4, 4, -10) toward
    (0, 0, 1) reports a hit at the voxel (4, 4, 4) with normal (0, 0, -1)
    and distance exactly 14.0, after one coarse step.  The colour it
    reports is the record as the RGBA8 sampler presents it, every byte
    divided by 255: (1.0, 0.0, 0.0, 1.0). *)
Theorem C1_hit_exactness (maxSteps : Z) :
  1 ≤ maxSteps →
  single_voxel_trace maxSteps =
    Some (mkHit true
                (Some (Vec3 (F32.of_Z 4) (F32.of_Z 4) (F32.of_Z 4)))
                (Vec3 F32.zero F32.zero (F32.opp F32.one))
                (Some (Vec4 (unorm8 255) (unorm8 0) (unorm8 0) (unorm8 255)))
                (Some (F32.of_Z 14))
                1).
Proof.
  intros Hsteps. destruct maxSteps as [|p|p]; try lia.
  vm_compute. reflexivity.
Qed.

Lemma C1_hit_exactness_witness :
  (distance <$> single_voxel_trace 256) = Some (Some (F32.of_Z 14)).
Proof.
  rewrite (C1_hit_exactness 256 ltac:(lia)). reflexivity.
Defined.

(** C1, as stated, fails on the colour: with the default budget of 256
    steps the traversal hits, and the colour it reports is not the bytes
    (255, 0, 0, 255) but the normalised texel; 1.0 is not 255.0. *)
Lemma C1_counterexample :
  ∃ res, single_voxel_trace 256 = Some res ∧
         hit res = true ∧
         color res = Some (Vec4 F32.one F32.zero F32.zero F32.one) ∧
         color res ≠ Some (Vec4 (F32.of_Z 255) (F32.of_Z 0) (F32.of_Z 0) (F32.of_Z 255)).
Proof.
  eexists. split; [vm_compute; reflexivity|].
  vm_compute. split; [reflexivity|]. split; [reflexivity | congruence].
Qed.

(** ** The step budget *)

Lemma traceBrick_loop_spec U n : ∀ brickIndex rayOrigin rayDir brickMin step deltaDist s result,
  let out := traceBrick_loop U n brickIndex rayOrigin rayDir brickMin step deltaDist s result in
  (out.1 = false ∧ out.2 = result) ∨
  (out.1 = true ∧ steps out.2 = steps result ∧
   ∃ voxel, hit out.2 = true ∧ color out.2 = Some voxel ∧ (ca voxel >? F32.zero)%f32 = true).
Proof.
  induction n as [|n IH]; intros brickIndex rayOrigin rayDir brickMin step deltaDist s result; simpl.
  - by left.
  - destruct (ca (getVoxelFromBrick U brickIndex (mapPos s)) >? F32.zero)%f32 eqn:Hocc.
    + right. simpl. split; [done|]. split; [done|]. eexists. done.
    + destruct (outside_brick (mapPos (dda_step step deltaDist s))); [by left|].
      apply IH.
Qed.

Lemma traceBrick_spec U brickIndex rayOrigin rayDir coarsePos result :
  let out := traceBrick U brickIndex rayOrigin rayDir coarsePos result in
  (out.1 = false ∧ out.2 = result) ∨
  (out.1 = true ∧ steps out.2 = steps result ∧
   ∃ voxel, hit out.2 = true ∧ color out.2 = Some voxel ∧ (ca voxel >? F32.zero)%f32 = true).
Proof.
  unfold traceBrick. destruct (_ || _); [by left|]. apply traceBrick_loop_spec.
Qed.

Lemma traceRay_loop_steps U origin direction step deltaDist n : ∀ i s result,
  let res := traceRay_loop U n i origin direction step deltaDist s result in
  steps res = steps result ∨
  i + 1 ≤ steps res ≤ Z.min (u_maxSteps U) (i + Z.of_nat n).
Proof.
  induction n as [|n IH]; intros i s result; simpl; [by left|].
  destruct (Z.geb_spec i (u_maxSteps U)) as [Hge|Hlt]; [by left|].
  set (result1 := set_steps (i + 1) result).
  set (out := if getBrickIndex U (mapPos s) >? 0
              then traceBrick U (getBrickIndex U (mapPos s)) origin direction (mapPos s) result1
              else (false, result1)).
  assert (steps out.2 = i + 1) as Hsteps.
  { subst out. destruct (_ >? 0); [|done].
    destruct (traceBrick_spec U (getBrickIndex U (mapPos s)) origin direction (mapPos s) result1)
      as [[_ ->]|(_ & -> & _)]; done. }
  destruct out as [found result2]. simpl in Hsteps.
  destruct found; [right; lia|].
  destruct (outside_grid U _); [right; lia|].
  destruct (IH (i + 1) (dda_step step deltaDist s) result2) as [H|H]; right; lia.
Qed.

Lemma traceRay_loop_hit U origin direction step deltaDist n : ∀ i s result,
  occupied_hit result →
  occupied_hit (traceRay_loop U n i origin direction step deltaDist s result).
Proof.
  induction n as [|n IH]; intros i s result Hres; simpl; [done|].
  destruct (i >=? u_maxSteps U); [done|].
  set (result1 := set_steps (i + 1) result).
  assert (occupied_hit result1) as Hres1 by (by destruct result).
  set (out := if getBrickIndex U (mapPos s) >? 0
              then traceBrick U (getBrickIndex U (mapPos s)) origin direction (mapPos s) result1
              else (false, result1)).
  assert (occupied_hit out.2) as Hout.
  { subst out. destruct (_ >? 0); [|done].
    destruct (traceBrick_spec U (getBrickIndex U (mapPos s)) origin direction (mapPos s) result1)
      as [[_ ->]|(_ & _ & Hv)]; [done | by right]. }
  destruct out as [found result2]. simpl in Hout.
  destruct found; [done|].
  destruct (outside_grid U _); [done|].
  by apply IH.
Qed.

(** One iteration of the coarse loop, unfolded. *)
Lemma traceRay_loop_S U n i origin direction step deltaDist s result :
  traceRay_loop U (S n) i origin direction step deltaDist s result =
    if i >=? u_maxSteps U then result
    else
      let out :=
        if getBrickIndex U (mapPos s) >? 0
        then traceBrick U (getBrickIndex U (mapPos s)) origin direction (mapPos s)
                        (set_steps (i + 1) result)
        else (false, set_steps (i + 1) result) in
      if out.1 then out.2
      else if outside_grid U (mapPos (dda_step step deltaDist s)) then out.2
      else traceRay_loop U n (i + 1) origin direction step deltaDist
                         (dda_step step deltaDist s) out.2.
Proof.
  cbn [traceRay_loop]. destruct (i >=? u_maxSteps U); [done|].
  cbv zeta. by destruct (if _ >? 0 then _ else _).
Qed.

(** What the brick lookup of iteration [i] leaves in [steps]. *)
Lemma coarse_lookup_steps U origin direction s result k :
  steps (if getBrickIndex U (mapPos s) >? 0
         then traceBrick U (getBrickIndex U (mapPos s)) origin direction (mapPos s)
                         (set_steps k result)
         else (false, set_steps k result)).2 = k.
Proof.
  destruct (_ >? 0); [|done].
  destruct (traceBrick_spec U (getBrickIndex U (mapPos s)) origin direction (mapPos s)
              (set_steps k result)) as [[_ ->]|(_ & -> & _)]; done.
Qed.

(** Iterations beyond the budget are not run: the loop that may run [n]
    iterations from counter [i] is the loop that may run only
    [u_maxSteps - i] of them. *)
Lemma traceRay_loop_truncate U origin direction step deltaDist n : ∀ i s result,
  traceRay_loop U n i origin direction step deltaDist s result =
  traceRay_loop U (Nat.min n (Z.to_nat (u_maxSteps U - i))) i
                origin direction step deltaDist s result.
Proof.
  induction n as [|n IH]; intros i s result; [done|].
  destruct (Z.geb_spec i (u_maxSteps U)) as [Hge|Hlt].
  - replace (Z.to_nat (u_maxSteps U - i)) with O by lia. rewrite Nat.min_0_r.
    rewrite traceRay_loop_S. cbn [traceRay_loop].
    by destruct (Z.geb_spec i (u_maxSteps U)); [|lia].
  - replace (Z.to_nat (u_maxSteps U - i))
      with (S (Z.to_nat (u_maxSteps U - (i + 1)))) by lia.
    cbn [Nat.min]. rewrite !traceRay_loop_S.
    destruct (i >=? u_maxSteps U); [done|]. cbv zeta.
    destruct (if _ >? 0 then _ else _) as [found result2]. cbn [fst snd].
    destruct found; [done|]. destruct (outside_grid U _); [done|]. apply IH.
Qed.

(** [steps] counts the iterations run: a loop entered at counter [i] with
    [steps = i] returns the result that [steps - i] iterations produce. *)
Lemma traceRay_loop_exact U origin direction step deltaDist n : ∀ i s result,
  steps result = i →
  let res := traceRay_loop U n i origin direction step deltaDist s result in
  i ≤ steps res ∧
  traceRay_loop U (Z.to_nat (steps res - i)) i origin direction step deltaDist s result = res.
Proof.
  induction n as [|n IH]; intros i s result Hi; cbv zeta.
  { cbn [traceRay_loop]. rewrite Hi. split; [lia|].
    replace (Z.to_nat (i - i)) with O by lia. done. }
  rewrite traceRay_loop_S.
  destruct (i >=? u_maxSteps U) eqn:Hge.
  { rewrite Hi. split; [lia|]. by replace (Z.to_nat (i - i)) with O by lia. }
  cbv zeta.
  pose proof (coarse_lookup_steps U origin direction s result (i + 1)) as Hsteps.
  set (out := if getBrickIndex U (mapPos s) >? 0
              then traceBrick U (getBrickIndex U (mapPos s)) origin direction (mapPos s)
                              (set_steps (i + 1) result)
              else (false, set_steps (i + 1) result)) in *.
  assert (∀ res, i + 1 ≤ steps res →
            traceRay_loop U (Z.to_nat (steps res - i)) i origin direction step deltaDist
                          s result =
            if out.1 then out.2
            else if outside_grid U (mapPos (dda_step step deltaDist s)) then out.2
            else traceRay_loop U (Z.to_nat (steps res - (i + 1))) (i + 1) origin direction
                               step deltaDist (dda_step step deltaDist s) out.2) as Hunfold.
  { intros res Hres.
    replace (Z.to_nat (steps res - i)) with (S (Z.to_nat (steps res - (i + 1)))) by lia.
    rewrite traceRay_loop_S, Hge. done. }
  destruct (out.1) eqn:Hfound.
  { split; [lia|]. rewrite Hunfold by lia. by rewrite ?Hfound. }
  destruct (outside_grid U _) eqn:Hout.
  { split; [lia|]. rewrite Hunfold by lia. by rewrite ?Hfound, ?Hout. }
  destruct (IH (i + 1) (dda_step step deltaDist s) out.2 Hsteps) as [Hle Heq].
  split; [lia|]. rewrite Hunfold by lia. by rewrite ?Hfound, ?Hout.
Qed.

(** A loop that may run [m] iterations records at most [m] of them. *)
Lemma traceRay_loop_counts U origin direction step deltaDist m i s result :
  steps result = i →
  steps (traceRay_loop U m i origin direction step deltaDist s result) ≤ i + Z.of_nat m.
Proof.
  intros Hi.
  destruct (traceRay_loop_steps U origin direction step deltaDist m i s result) as [H|H];
    cbv zeta in H; lia.
Qed.

(** [traceRay_within] is the initial result for every bound, when the ray
    misses the box of the world, or the coarse loop from one DDA state. *)
Lemma traceRay_within_loop U origin direction :
  (∀ cap, traceRay_within U cap origin direction = mkHit false None (vec3_of F32.zero) None None 0) ∨
  (∃ step deltaDist s, ∀ cap,
     traceRay_within U cap origin direction =
     traceRay_loop U cap 0 origin direction step deltaDist s
                   (mkHit false None (vec3_of F32.zero) None None 0)).
Proof.
  unfold traceRay_within. destruct (_ || _); [by left|].
  right. eexists _, _, _. intros cap. reflexivity.
Qed.

Lemma traceRay_is_within U origin direction :
  traceRay U origin direction = traceRay_within U (Z.to_nat 512) origin direction.
Proof. reflexivity. Qed.

(** C8, as the code has it.  [traceRay] is a total function: for every ray
    and every [u_maxSteps] it returns a result.  Iterations of the coarse
    loop beyond the budget are never run: the loop entered at counter [i]
    with [n] iterations allowed is the loop with only [u_maxSteps - i]
    allowed, so that [traceRay] is the traversal whose loop header allows
    max(0, min(u_maxSteps, 512)) iterations, which is min(u_maxSteps, 512)
    for a non-negative budget and none for a negative one.  The step count
    of the result is the number of iterations run: it lies between 0 and
    that bound, the traversal allowed exactly [steps] iterations returns
    the same result, and no traversal allowed fewer does.  A result with
    [hit = true] carries the record of an occupied voxel, so a traversal
    that exhausts its budget without finding one returns [hit = false]
    with the steps recorded. *)
Theorem C8_step_budget (U : uniforms) (origin direction : vec3) :
  let res := traceRay U origin direction in
  let budget := Z.max 0 (Z.min (u_maxSteps U) 512) in
  (∀ n i step deltaDist s result,
     traceRay_loop U n i origin direction step deltaDist s result =
     traceRay_loop U (Nat.min n (Z.to_nat (u_maxSteps U - i))) i
                   origin direction step deltaDist s result) ∧
  res = traceRay_within U (Z.to_nat budget) origin direction ∧
  0 ≤ steps res ≤ budget ∧
  res = traceRay_within U (Z.to_nat (steps res)) origin direction ∧
  (∀ cap, traceRay_within U cap origin direction = res → steps res ≤ Z.of_nat cap) ∧
  occupied_hit res.
Proof.
  intros res budget.
  assert (0 ≤ steps res ≤ budget) as Hsteps.
  { subst res budget. unfold traceRay. destruct (_ || _); [cbn [steps]; lia|].
    match goal with
    | |- context [traceRay_loop U ?n ?i ?o ?d ?st ?dd ?s ?r] =>
        destruct (traceRay_loop_steps U o d st dd n i s r) as [H|H];
        cbn [steps] in H; rewrite ?Z2Nat.id in H by done;
        set (out := traceRay_loop U n i o d st dd s r) in *; clearbody out
    end; lia. }
  split; [intros; apply traceRay_loop_truncate|].
  subst res. rewrite traceRay_is_within in *.
  destruct (traceRay_within_loop U origin direction) as [Hmiss|(step & deltaDist & s & Hloop)].
  - rewrite !Hmiss in *. split; [done|]. split; [done|]. split; [done|].
    split; [cbn [steps]; lia | by left].
  - split; [|split; [done|split; [|split]]].
    + rewrite !Hloop, traceRay_loop_truncate. f_equal. subst budget. lia.
    + rewrite Hloop at 2.
      destruct (traceRay_loop_exact U origin direction step deltaDist (Z.to_nat 512) 0 s
                  (mkHit false None (vec3_of F32.zero) None None 0) eq_refl) as [_ Heq].
      cbv zeta in Heq. rewrite Z.sub_0_r in Heq. rewrite <- Hloop in Heq. by rewrite Heq.
    + intros cap Hcap. rewrite <- Hcap, Hloop.
      pose proof (traceRay_loop_counts U origin direction step deltaDist cap 0 s
                    (mkHit false None (vec3_of F32.zero) None None 0) eq_refl). lia.
    + rewrite Hloop. apply traceRay_loop_hit. by left.
Qed.

(** A grid of 8^3 coarse cells whose only brick, in the cell (0, 0, 4),
    holds one opaque voxel, at (4, 4, 32); the ray from (4.5, 4.5, -10)
    toward (0, 0, 1) finds it in the fifth iteration.  With a budget of 2
    the traversal is the one whose loop allows 2 iterations: it returns
    no hit and 2 steps, and no loop allowed 1 iteration returns that. *)
Lemma C8_step_budget_witness :
  let world maxSteps :=
    Uniforms (Texture 8 8 8 (TypedArray.mk 32 512 {[256 := 1]}))
             (Texture 512 512 512 (TypedArray.mk 8 536870912 {[8211 := 255]}))
             (vec3_of (F32.of_Z 8)) (vec3_of (F32.of_Z 64)) maxSteps in
  let origin := Vec3 (F32.of_Z 4 + F32.half)%f32 (F32.of_Z 4 + F32.half)%f32 (F32.of_Z (-10)) in
  let direction := Vec3 F32.zero F32.zero F32.one in
  traceRay (world 2) origin direction = traceRay_within (world 2) 2 origin direction ∧
  steps (traceRay (world 2) origin direction) ≤ 2 ∧
  traceRay (world 2) origin direction = mkHit false None (vec3_of F32.zero) None None 2 ∧
  hit (traceRay (world 256) origin direction) = true ∧
  steps (traceRay (world 256) origin direction) = 5.
Proof.
  intros world origin direction.
  destruct (C8_step_budget (world 2) origin direction) as (_ & Hcap & _ & _ & Hleast & _).
  split; [exact Hcap|]. split.
  - apply (Hleast 2%nat). vm_compute. reflexivity.
  - vm_compute. repeat split; reflexivity.
Defined.

(** C8, as stated, fails for a negative budget: with [u_maxSteps = -1] the
    first test [i >= u_maxSteps] leaves the loop, no iteration is run and
    [steps] is 0, which is not at most min(u_maxSteps, 512) = -1. *)
Lemma C8_counterexample :
  let U := one_voxel_uniforms (-1) in
  let origin := Vec3 (F32.of_Z 4) (F32.of_Z 4) (F32.of_Z (-10)) in
  let direction := Vec3 F32.zero F32.zero F32.one in
  Z.min (u_maxSteps U) 512 = -1 ∧
  traceRay U origin direction = traceRay_within U 0 origin direction ∧
  steps (traceRay U origin direction) = 0 ∧
  ¬ (steps (traceRay U origin direction) ≤ Z.min (u_maxSteps U) 512).
Proof.
  intros U origin direction.
  assert (steps (traceRay U origin direction) = 0) as Hsteps by (vm_compute; reflexivity).
  split; [reflexivity|]. split; [vm_compute; reflexivity|]. split; [done|].
  rewrite Hsteps. change (Z.min (u_maxSteps U) 512) with (-1). lia.
Qed.

(** ** Zero direction components *)




















(* ===================================================================== *)
(** * Further properties of the world class                               *)
(* ===================================================================== *)

Lemma read_outside w x y z : ¬ in_world w x y z → read w x y z = None.
Proof.
  intros H. unfold read, getVoxel.
  destruct (out_of_world w x y z) eqn:E; [done|].
  by apply out_of_world_false in E.
Qed.

Lemma read_in_world w x y z :
  wf w → in_world w x y z →
  ∃ r g b a,
    read w x y z = Some (Voxel.mk (Some r) (Some g) (Some b) (Some a)) ∧
    0 ≤ r < 256 ∧ 0 ≤ g < 256 ∧ 0 ≤ b < 256 ∧ 0 ≤ a < 256.
Proof.
  intros Hwf Hin. rewrite (read_eq w Hwf) by done.
  destruct (cell_in_range w Hwf (coarse_index_of w x y z)) as [k Hk].
  { by apply coarse_index_of_range. }
  rewrite Hk. case_decide as Hz.
  - exists 0, 0, 0, 0. split; [done|lia].
  - destruct (wf_cell_brick w Hwf _ _ Hk Hz) as [brick Hb]. rewrite Hb.
    destruct (wf_brick_shape w Hwf _ _ Hb) as (_ & Hlen & Hbytes).
    destruct (local_index_of_range w Hwf x y z Hin) as (Hl0 & Hl3 & _).
    rewrite <- Hlen in Hl3. unfold voxel_of_brick.
    destruct (proj2 (ta_get_is_Some brick (local_index_of w x y z))) as [r Hr]; [lia|].
    destruct (proj2 (ta_get_is_Some brick (local_index_of w x y z + 1))) as [g Hg]; [lia|].
    destruct (proj2 (ta_get_is_Some brick (local_index_of w x y z + 2))) as [b Hb']; [lia|].
    destruct (proj2 (ta_get_is_Some brick (local_index_of w x y z + 3))) as [a Ha]; [lia|].
    exists r, g, b, a. rewrite Hr, Hg, Hb', Ha. split; [done|].
    apply Hbytes in Hr, Hg, Hb', Ha. lia.
Qed.

(** X1.  [getVoxel] never changes the world and never throws; in a world
    built by the constructor and any calls it returns [null] exactly for
    the coordinates outside the world, and for a coordinate inside it a
    record whose four channels are bytes. *)
Theorem X1_getVoxel_null_iff_outside (w : BrickMapWorld) (x y z : Z) :
  reachable w → small w →
  ∃ v, getVoxel x y z w = Normal v w ∧
       (v = None ↔ ¬ in_world w x y z) ∧
       (in_world w x y z →
        ∃ r g b a, v = Some (Voxel.mk (Some r) (Some g) (Some b) (Some a)) ∧
                   0 ≤ r < 256 ∧ 0 ≤ g < 256 ∧ 0 ≤ b < 256 ∧ 0 ≤ a < 256).
Proof.
  intros Hreach Hsmall. pose proof (reachable_wf w Hreach Hsmall) as Hwf.
  exists (read w x y z). split; [apply getVoxel_read|].
  split; [split|].
  - intros Hnone Hin.
    destruct (read_in_world w x y z Hwf Hin) as (r & g & b & a & Hv & _). congruence.
  - apply read_outside.
  - apply read_in_world, Hwf.
Qed.

Lemma X1_getVoxel_null_iff_outside_witness :
  let w := mkWorld 2 8 16 (TypedArray.mk 32 8 ∅) JsMap.empty 1 64 None 0 0 in
  ∃ v, getVoxel 3 16 5 w = Normal v w ∧
       (v = None ↔ ¬ in_world w 3 16 5) ∧
       (in_world w 3 16 5 →
        ∃ r g b a, v = Some (Voxel.mk (Some r) (Some g) (Some b) (Some a)) ∧
                   0 ≤ r < 256 ∧ 0 ≤ g < 256 ∧ 0 ≤ b < 256 ∧ 0 ≤ a < 256).
Proof.
  intros w. apply (X1_getVoxel_null_iff_outside w 3 16 5).
  - apply (reachable_constructed 2 8). reflexivity.
  - unfold small. simpl. lia.
Defined.

Lemma setVoxel_reads w x y z r g b a :
  wf w → in_world w x y z →
  ∃ w', setVoxel x y z r g b a w = Normal true w' ∧ wf w' ∧ same_sizes w w' ∧
    ∀ x' y' z',
      read w' x' y' z' =
        if decide (x' = x ∧ y' = y ∧ z' = z) then Some (stored_voxel r g b a)
        else read w x' y' z'.
Proof.
  intros Hwf Hin.
  destruct (setVoxel_in_world w x y z r g b a Hwf Hin)
    as (w' & Hset & Hwf' & HC & HB & HW & Hread).
  exists w'. split; [done|]. split; [done|]. split; [done|].
  intros x' y' z'.
  destruct (decide (in_world w x' y' z')) as [Hin'|Hout]; [by apply Hread|].
  rewrite decide_False by (intros (-> & -> & ->); done).
  rewrite (read_outside w) by done. apply read_outside.
  unfold in_world in *. rewrite HW. done.
Qed.

(** X2.  A write changes no other voxel: after an in-bounds [setVoxel],
    [getVoxel] at every other coordinate returns what it returned before,
    whether the write created a brick or not. *)
Theorem X2_setVoxel_frame (w : BrickMapWorld) (x y z r g b a x' y' z' : Z) :
  reachable w → small w → in_world w x y z →
  (x', y', z') ≠ (x, y, z) →
  ∃ w', setVoxel x y z r g b a w = Normal true w' ∧
        ∀ v, getVoxel x' y' z' w = Normal v w → getVoxel x' y' z' w' = Normal v w'.
Proof.
  intros Hreach Hsmall Hin Hne.
  pose proof (reachable_wf w Hreach Hsmall) as Hwf.
  destruct (setVoxel_reads w x y z r g b a Hwf Hin) as (w' & Hset & _ & _ & Hread).
  exists w'. split; [done|]. intros v Hv.
  rewrite getVoxel_read in Hv. rewrite getVoxel_read, Hread.
  rewrite decide_False by (intros (-> & -> & ->); done).
  congruence.
Qed.

Lemma X2_setVoxel_frame_witness :
  let w := mkWorld 2 8 16 (TypedArray.mk 32 8 ∅) JsMap.empty 1 64 None 0 0 in
  ∃ w', setVoxel 9 3 15 93 64 55 255 w = Normal true w' ∧
        ∀ v, getVoxel 10 3 15 w = Normal v w → getVoxel 10 3 15 w' = Normal v w'.
Proof.
  intros w. apply (X2_setVoxel_frame w 9 3 15 93 64 55 255 10 3 15).
  - apply (reachable_constructed 2 8). reflexivity.
  - unfold small. simpl. lia.
  - unfold in_world. simpl. lia.
  - congruence.
Defined.

(** X3.  Two writes to different voxels commute as far as [getVoxel] can
    tell: in either order both calls succeed and every coordinate reads the
    same afterwards, although the bricks may have been numbered in a
    different order. *)
Theorem X3_writes_commute (w : BrickMapWorld)
    (x1 y1 z1 r1 g1 b1 a1 x2 y2 z2 r2 g2 b2 a2 : Z) :
  reachable w → small w →
  in_world w x1 y1 z1 → in_world w x2 y2 z2 → (x1, y1, z1) ≠ (x2, y2, z2) →
  ∃ w12 w21,
    run [CallSetVoxel x1 y1 z1 r1 g1 b1 a1; CallSetVoxel x2 y2 z2 r2 g2 b2 a2] w
      = Normal tt w12 ∧
    run [CallSetVoxel x2 y2 z2 r2 g2 b2 a2; CallSetVoxel x1 y1 z1 r1 g1 b1 a1] w
      = Normal tt w21 ∧
    ∀ x y z, read w12 x y z = read w21 x y z.
Proof.
  intros Hreach Hsmall Hin1 Hin2 Hne.
  pose proof (reachable_wf w Hreach Hsmall) as Hwf.
  destruct (setVoxel_reads w x1 y1 z1 r1 g1 b1 a1 Hwf Hin1)
    as (wa & Hseta & Hwfa & Hsa & Hreada).
  destruct (setVoxel_reads w x2 y2 z2 r2 g2 b2 a2 Hwf Hin2)
    as (wb & Hsetb & Hwfb & Hsb & Hreadb).
  destruct (setVoxel_reads wa x2 y2 z2 r2 g2 b2 a2 Hwfa) as (w12 & Hset12 & _ & _ & Hread12).
  { by apply (in_world_same_sizes w). }
  destruct (setVoxel_reads wb x1 y1 z1 r1 g1 b1 a1 Hwfb) as (w21 & Hset21 & _ & _ & Hread21).
  { by apply (in_world_same_sizes w). }
  exists w12, w21. split; [|split].
  - simpl. unfold mbind, method_bind, mret, method_ret. simpl.
    unfold mbind, method_bind. rewrite Hseta. simpl. by rewrite Hset12.
  - simpl. unfold mbind, method_bind, mret, method_ret. simpl.
    unfold mbind, method_bind. rewrite Hsetb. simpl. by rewrite Hset21.
  - intros x y z. rewrite Hread12, Hread21, Hreada, Hreadb.
    repeat case_decide; try done.
    destruct_and!. simplify_eq.
Qed.

Lemma X3_writes_commute_witness :
  let w := mkWorld 2 8 16 (TypedArray.mk 32 8 ∅) JsMap.empty 1 64 None 0 0 in
  ∃ w12 w21,
    run [CallSetVoxel 9 3 15 93 64 55 255; CallSetVoxel 0 0 0 1 2 3 4] w
      = Normal tt w12 ∧
    run [CallSetVoxel 0 0 0 1 2 3 4; CallSetVoxel 9 3 15 93 64 55 255] w
      = Normal tt w21 ∧
    ∀ x y z, read w12 x y z = read w21 x y z.
Proof.
  intros w. apply (X3_writes_commute w 9 3 15 93 64 55 255 0 0 0 1 2 3 4).
  - apply (reachable_constructed 2 8). reflexivity.
  - unfold small. simpl. lia.
  - unfold in_world. simpl. lia.
  - unfold in_world. simpl. lia.
  - congruence.
Defined.

(** X4.  [clear()] brings a world back to the state the constructor left,
    but for the atlas buffer: [brickAtlasData] keeps the buffer of the last
    [buildAtlas], which still shows the bricks that were cleared. *)
Theorem X4_clear_restores_constructed (C B : Z) (w0 w : BrickMapWorld) (cs : list call) :
  constructor C B = Some w0 → small w0 → run cs w0 = Normal tt w →
  clear w = Normal tt (set_brickAtlasData (brickAtlasData w) w0).
Proof.
  intros Hnew Hsmall Hrun.
  pose proof (constructor_wf _ _ _ Hnew Hsmall) as Hwf0.
  pose proof (run_wf _ _ _ Hwf0 Hrun) as Hwf.
  destruct (run_sizes _ _ _ Hrun) as (HC & HB & HW).
  apply constructor_Some in Hnew as [_ ->]. simpl in *.
  unfold clear, set_brickAtlasData, set_brickCount, set_voxelCount, set_nextBrickIndex,
    set_bricks, set_coarseGrid, TypedArray.fill_zero. simpl.
  rewrite HC, HB, HW, (wf_atlasSize w Hwf), (wf_grid_bits w Hwf), (wf_grid_length w Hwf).
  unfold cells_of. rewrite HC. done.
Qed.

Lemma X4_clear_restores_constructed_witness :
  let w0 := mkWorld 2 8 16 (TypedArray.mk 32 8 ∅) JsMap.empty 1 64 None 0 0 in
  ∃ w, run [CallSetVoxel 9 3 15 93 64 55 255; CallCountVoxels] w0 = Normal tt w ∧
       clear w = Normal tt (set_brickAtlasData (brickAtlasData w) w0).
Proof.
  intros w0. eexists. split; [vm_compute; reflexivity|].
  apply (X4_clear_restores_constructed 2 8 w0 _
           [CallSetVoxel 9 3 15 93 64 55 255; CallCountVoxels]).
  - reflexivity.
  - unfold small. simpl. lia.
  - vm_compute. reflexivity.
Defined.
(* ===================================================================== *)
(** * Bricks, cells and counters                                          *)
(* ===================================================================== *)

Section Census.

Variable w : BrickMapWorld.
Hypothesis Hwf : wf w.

(** The cells listed by the invariant are all the non-zero cells, and their
    brick indices are all the indices handed out. *)
Lemma cells_census :
  ∃ cells : list Z,
    NoDup cells ∧ Z.of_nat (List.length cells) = nextBrickIndex w - 1 ∧
    (∀ c, c ∈ cells ↔ 0 ≤ c < cells_of w ∧ cell w c ≠ Some 0) ∧
    (∀ k, 1 ≤ k < nextBrickIndex w → ∃ c, c ∈ cells ∧ cell w c = Some k).
Proof.
  destruct (wf_cells w Hwf) as (cells & Hnd & Hlen & Hcells).
  pose proof (wf_next w Hwf) as Hnext.
  set (f := λ c, default 0 (cell w c)).
  assert (∀ c, c ∈ cells → ∃ v, cell w c = Some v ∧ f c = v ∧ 1 ≤ v < nextBrickIndex w)
    as Hval.
  { intros c Hc. destruct (Hcells c Hc) as [Hr Hn].
    destruct (cell_in_range w Hwf c Hr) as [v Hv]. exists v.
    split; [done|]. split; [unfold f; by rewrite Hv|].
    pose proof (wf_cell_lt w Hwf c v Hv). assert (v ≠ 0) by congruence. lia. }
  assert (NoDup (f <$> cells)) as Hndv.
  { apply NoDup_fmap_2_strong; [|done]. intros c1 c2 H1 H2 Heq.
    destruct (Hval c1 H1) as (v1 & Hv1 & Hf1 & ?).
    destruct (Hval c2 H2) as (v2 & Hv2 & Hf2 & ?).
    apply (wf_cell_inj w Hwf c1 c2 v1); [done|congruence|lia]. }
  assert (f <$> cells ≡ₚ seqZ 1 (nextBrickIndex w - 1)) as Hperm.
  { apply submseteq_length_Permutation.
    - apply NoDup_submseteq; [done|]. intros v Hv.
      apply list_elem_of_fmap in Hv as (c & -> & Hc).
      destruct (Hval c Hc) as (v & _ & -> & ?). apply elem_of_seqZ. lia.
    - rewrite length_fmap, length_seqZ. lia. }
  assert (∀ k, 1 ≤ k < nextBrickIndex w → ∃ c, c ∈ cells ∧ cell w c = Some k) as Hcover.
  { intros k Hk. assert (k ∈ f <$> cells) as Hin.
    { rewrite Hperm. apply elem_of_seqZ. lia. }
    apply list_elem_of_fmap in Hin as (c & Hkc & Hc). exists c. split; [done|].
    destruct (Hval c Hc) as (v & Hv & Hf & _). congruence. }
  exists cells. split; [done|]. split; [done|]. split; [|done].
  intros c. split; [apply Hcells|]. intros [Hr Hn].
  destruct (cell_in_range w Hwf c Hr) as [v Hv].
  pose proof (wf_cell_lt w Hwf c v Hv). assert (v ≠ 0) by congruence.
  destruct (Hcover v) as (c' & Hc' & Hv'); [lia|].
  by rewrite (wf_cell_inj w Hwf c c' v Hv Hv').
Qed.

Lemma allocated_cells_length :
  Z.of_nat (List.length (allocated_cells w)) = nextBrickIndex w - 1.
Proof.
  destruct cells_census as (cells & Hnd & Hlen & Hcells & _).
  rewrite <- Hlen. f_equal. apply Permutation_length, NoDup_Permutation.
  - apply NoDup_filter, NoDup_seqZ.
  - done.
  - intros c. unfold allocated_cells. rewrite list_elem_of_filter, elem_of_seqZ, Hcells.
    split; intros []; split; (done || lia).
Qed.

Lemma brick_index_cell k :
  1 ≤ k < nextBrickIndex w → ∃ c, 0 ≤ c < cells_of w ∧ cell w c = Some k.
Proof.
  intros Hk. destruct cells_census as (cells & _ & _ & Hcells & Hcover).
  destruct (Hcover k Hk) as (c & Hc & Hv). exists c. split; [|done].
  by apply Hcells.
Qed.

Lemma brick_index_mapped k :
  is_Some (JsMap.get (bricks w) k) ↔ 1 ≤ k < nextBrickIndex w.
Proof.
  split.
  - intros [brick Hb]. apply (wf_keys_range w Hwf). by eapply jm_get_Some_key.
  - intros Hk. destruct (brick_index_cell k Hk) as (c & _ & Hc).
    apply (wf_cell_brick w Hwf c k Hc). lia.
Qed.

Lemma bricks_length : Z.of_nat (List.length (bricks w)) = nextBrickIndex w - 1.
Proof.
  pose proof (wf_next w Hwf) as Hnext.
  assert (JsMap.keys (bricks w) ≡ₚ seqZ 1 (nextBrickIndex w - 1)) as Hperm.
  { apply NoDup_Permutation; [apply (wf_keys_nodup w Hwf)|apply NoDup_seqZ|].
    intros k. rewrite elem_of_seqZ. split.
    - intros Hk. apply (wf_keys_range w Hwf) in Hk. lia.
    - intros Hk. destruct (proj2 (brick_index_mapped k)) as [brick Hb]; [lia|].
      by eapply jm_get_Some_key. }
  apply Permutation_length in Hperm. unfold JsMap.keys in Hperm.
  rewrite length_fmap, length_seqZ in Hperm. lia.
Qed.

Lemma cells_of_bound : nextBrickIndex w - 1 ≤ cells_of w.
Proof.
  destruct cells_census as (cells & Hnd & Hlen & Hcells & _).
  rewrite <- Hlen. apply pigeonhole; [|done|].
  - pose proof (wf_coarse w Hwf). unfold cells_of. nia.
  - intros c Hc. by apply Hcells.
Qed.

End Census.

(** X5.  The counter [brickCount] is exact: it is the number of bricks in
    the map, the number of non-zero cells of the coarse grid and the number
    of indices handed out, and it never exceeds the number of coarse
    cells. *)
Theorem X5_brickCount_exact (w : BrickMapWorld) :
  reachable w → small w →
  brickCount w = Z.of_nat (List.length (bricks w)) ∧
  brickCount w = Z.of_nat (List.length (allocated_cells w)) ∧
  brickCount w = nextBrickIndex w - 1 ∧
  0 ≤ brickCount w ≤ coarseSize w * coarseSize w * coarseSize w.
Proof.
  intros Hreach Hsmall. pose proof (reachable_wf w Hreach Hsmall) as Hwf.
  rewrite (wf_count w Hwf), (bricks_length w Hwf), (allocated_cells_length w Hwf).
  split; [done|]. split; [done|]. split; [done|]. split.
  - pose proof (wf_next w Hwf). lia.
  - apply (cells_of_bound w Hwf).
Qed.

Lemma X5_brickCount_exact_witness :
  ∃ w, run [CallSetVoxel 9 3 15 93 64 55 255; CallSetVoxel 0 0 0 1 2 3 4;
            CallSetVoxel 1 0 0 1 2 3 4]
           (mkWorld 2 8 16 (TypedArray.mk 32 8 ∅) JsMap.empty 1 64 None 0 0)
       = Normal tt w ∧
       brickCount w = Z.of_nat (List.length (bricks w)) ∧
       brickCount w = Z.of_nat (List.length (allocated_cells w)) ∧
       brickCount w = nextBrickIndex w - 1 ∧
       0 ≤ brickCount w ≤ coarseSize w * coarseSize w * coarseSize w.
Proof.
  eexists. split; [vm_compute; reflexivity|].
  apply X5_brickCount_exact.
  - exists 2, 8, (mkWorld 2 8 16 (TypedArray.mk 32 8 ∅) JsMap.empty 1 64 None 0 0),
      [CallSetVoxel 9 3 15 93 64 55 255; CallSetVoxel 0 0 0 1 2 3 4;
       CallSetVoxel 1 0 0 1 2 3 4].
    split; [reflexivity | vm_compute; reflexivity].
  - unfold small. simpl. lia.
Defined.

(** X6.  The coarse grid and the brick map name the same bricks: an index is
    a key of the map exactly when it has been handed out, and every index
    handed out is stored in one coarse cell and in no other. *)
Theorem X6_grid_and_map_agree (w : BrickMapWorld) (k : Z) :
  reachable w → small w →
  (is_Some (JsMap.get (bricks w) k) ↔ 1 ≤ k < nextBrickIndex w) ∧
  (1 ≤ k < nextBrickIndex w →
   ∃ c, 0 ≤ c < cells_of w ∧ cell w c = Some k ∧ ∀ c', cell w c' = Some k → c' = c).
Proof.
  intros Hreach Hsmall. pose proof (reachable_wf w Hreach Hsmall) as Hwf.
  split; [apply (brick_index_mapped w Hwf)|].
  intros Hk. destruct (brick_index_cell w Hwf k Hk) as (c & Hr & Hc).
  exists c. split; [done|]. split; [done|].
  intros c' Hc'. apply (wf_cell_inj w Hwf c' c k Hc' Hc). lia.
Qed.

Lemma X6_grid_and_map_agree_witness :
  ∃ w, run [CallSetVoxel 9 3 15 93 64 55 255]
           (mkWorld 2 8 16 (TypedArray.mk 32 8 ∅) JsMap.empty 1 64 None 0 0)
       = Normal tt w ∧
       (is_Some (JsMap.get (bricks w) 1) ↔ 1 ≤ 1 < nextBrickIndex w) ∧
       (1 ≤ 1 < nextBrickIndex w →
        ∃ c, 0 ≤ c < cells_of w ∧ cell w c = Some 1 ∧ ∀ c', cell w c' = Some 1 → c' = c).
Proof.
  eexists. split; [vm_compute; reflexivity|].
  apply X6_grid_and_map_agree.
  - exists 2, 8, (mkWorld 2 8 16 (TypedArray.mk 32 8 ∅) JsMap.empty 1 64 None 0 0),
      [CallSetVoxel 9 3 15 93 64 55 255].
    split; [reflexivity | vm_compute; reflexivity].
  - unfold small. simpl. lia.
Defined.

Lemma fold_left_const_sum {A : Type} (f : A → Z) (c : Z) (l : list A) (n : Z) :
  (∀ x, x ∈ l → f x = c) →
  fold_left (λ n x, n + f x) l n = n + Z.of_nat (List.length l) * c.
Proof.
  revert n. induction l as [|x l IH]; intros n Hf; simpl; [lia|].
  rewrite IH by (intros y Hy; apply Hf; by right).
  rewrite (Hf x) by left. lia.
Qed.

(** X7.  [getMemoryUsage] reports the bytes actually held: [coarseGrid]
    is four bytes per coarse cell, [bricks] is the sum of the byte lengths
    of the bricks in the map, [total] is their sum, and the world is left
    as it was. *)
Theorem X7_getMemoryUsage_exact (w : BrickMapWorld) :
  reachable w → small w →
  ∃ m, getMemoryUsage w = Normal m w ∧
       MemoryUsage.coarseGrid m = byteLength (coarseGrid w) ∧
       MemoryUsage.coarseGrid m = 4 * (coarseSize w * coarseSize w * coarseSize w) ∧
       MemoryUsage.bricks m = bricks_byteLength w ∧
       MemoryUsage.total m =
         4 * (coarseSize w * coarseSize w * coarseSize w) + bricks_byteLength w.
Proof.
  intros Hreach Hsmall. pose proof (reachable_wf w Hreach Hsmall) as Hwf.
  eexists. split; [reflexivity|]. cbn [MemoryUsage.coarseGrid MemoryUsage.bricks MemoryUsage.total].
  assert (byteLength (coarseGrid w) = 4 * (coarseSize w * coarseSize w * coarseSize w)) as Hgrid.
  { unfold byteLength. rewrite (wf_grid_bits w Hwf), (wf_grid_length w Hwf).
    unfold cells_of. change (32 / 8) with 4. lia. }
  assert (bricks_byteLength w = brickCount w * brickSize w * brickSize w * brickSize w * 4)
    as Hbricks.
  { unfold bricks_byteLength.
    rewrite (fold_left_const_sum byteLength (brick_bytes w)).
    - unfold JsMap.values. rewrite length_fmap, (bricks_length w Hwf), (wf_count w Hwf).
      unfold brick_bytes. lia.
    - intros brick Hin. apply list_elem_of_fmap in Hin as ([k brick'] & -> & Hin).
      apply (jm_elem_get_Some _ _ _ (wf_keys_nodup w Hwf)) in Hin.
      destruct (wf_brick_shape w Hwf _ _ Hin) as (Hbits & Hlen & _).
      unfold byteLength. simpl. rewrite Hbits, Hlen. change (8 / 8) with 1. lia. }
  rewrite Hbricks, Hgrid. done.
Qed.

Lemma X7_getMemoryUsage_exact_witness :
  ∃ w, run [CallSetVoxel 9 3 15 93 64 55 255; CallSetVoxel 0 0 0 1 2 3 4]
           (mkWorld 2 8 16 (TypedArray.mk 32 8 ∅) JsMap.empty 1 64 None 0 0)
       = Normal tt w ∧
  ∃ m, getMemoryUsage w = Normal m w ∧
       MemoryUsage.coarseGrid m = byteLength (coarseGrid w) ∧
       MemoryUsage.coarseGrid m = 4 * (coarseSize w * coarseSize w * coarseSize w) ∧
       MemoryUsage.bricks m = bricks_byteLength w ∧
       MemoryUsage.total m =
         4 * (coarseSize w * coarseSize w * coarseSize w) + bricks_byteLength w.
Proof.
  eexists. split; [vm_compute; reflexivity|].
  apply X7_getMemoryUsage_exact.
  - exists 2, 8, (mkWorld 2 8 16 (TypedArray.mk 32 8 ∅) JsMap.empty 1 64 None 0 0),
      [CallSetVoxel 9 3 15 93 64 55 255; CallSetVoxel 0 0 0 1 2 3 4].
    split; [reflexivity | vm_compute; reflexivity].
  - unfold small. simpl. lia.
Defined.
(* ===================================================================== *)
(** * Counting occupied voxels                                            *)
(* ===================================================================== *)

Lemma sum_shift {A : Type} (h : A → Z) (l : list A) (n d : Z) :
  fold_left (λ n j, n + h j) l (n + d) = fold_left (λ n j, n + h j) l n + d.
Proof.
  revert n. induction l as [|j l IH]; intros n; simpl; [done|].
  replace (n + d + h j) with (n + h j + d) by lia. apply IH.
Qed.

Lemma sum_ext {A : Type} (h h' : A → Z) (l : list A) (n : Z) :
  (∀ j, j ∈ l → h' j = h j) →
  fold_left (λ n j, n + h' j) l n = fold_left (λ n j, n + h j) l n.
Proof.
  revert n. induction l as [|j l IH]; intros n Hext; simpl; [done|].
  rewrite (Hext j) by left. apply IH. intros i Hi. apply Hext. by right.
Qed.

Lemma sum_change (h h' : Z → Z) (l : list Z) (j0 n : Z) :
  NoDup l → j0 ∈ l → (∀ j, j ∈ l → j ≠ j0 → h' j = h j) →
  fold_left (λ n j, n + h' j) l n = fold_left (λ n j, n + h j) l n + (h' j0 - h j0).
Proof.
  revert n. induction l as [|j l IH]; intros n Hnd Hin Hext; [by apply elem_of_nil in Hin|].
  apply NoDup_cons in Hnd as [Hj Hnd]. simpl.
  destruct (decide (j = j0)) as [->|Hne].
  - rewrite (sum_ext h h').
    + replace (n + h' j0) with (n + h j0 + (h' j0 - h j0)) by lia. apply sum_shift.
    + intros i Hi. apply Hext; [by right|]. intros ->. done.
  - rewrite (Hext j) by (done || left). apply IH; [done| |].
    + apply elem_of_cons in Hin as [->|Hin]; done.
    + intros i Hi. apply Hext. by right.
Qed.

Lemma sum_bounds {A : Type} (h : A → Z) (c : Z) (l : list A) (n : Z) :
  (∀ j, j ∈ l → 0 ≤ h j ≤ c) →
  n ≤ fold_left (λ n j, n + h j) l n ≤ n + Z.of_nat (List.length l) * c.
Proof.
  revert n. induction l as [|j l IH]; intros n Hb; simpl; [lia|].
  pose proof (Hb j ltac:(left)).
  pose proof (IH (n + h j) ltac:(intros i Hi; apply Hb; by right)). lia.
Qed.

(** [countVoxels] adds, for every brick, the number of its positive alpha
    bytes. *)
Lemma count_brick_sum brick n :
  count_brick brick n =
    fold_left (λ n j, n + Z_of_bool (positive (TypedArray.get brick (3 + 4 * j))))
              (seqZ 0 (TypedArray.length brick / 4)) n.
Proof.
  unfold count_brick, for_range. apply fold_left_ext_in. intros s j.
  destruct (TypedArray.get brick (3 + 4 * j)) as [v|]; simpl; [|lia].
  destruct (0 <? v); simpl; lia.
Qed.

Lemma count_brick_acc brick n : count_brick brick n = n + count_brick brick 0.
Proof.
  rewrite !count_brick_sum.
  pose proof (sum_shift
    (λ j, Z_of_bool (positive (TypedArray.get brick (3 + 4 * j))))
    (seqZ 0 (TypedArray.length brick / 4)) 0 n) as H.
  rewrite Z.add_0_l in H. rewrite H. lia.
Qed.

Lemma counted_sum w :
  counted w = fold_left (λ n brick, n + count_brick brick 0) (JsMap.values (bricks w)) 0.
Proof.
  unfold counted, countVoxels. apply fold_left_ext_in. intros n brick.
  apply count_brick_acc.
Qed.

Lemma count_brick_bounds brick :
  0 ≤ count_brick brick 0 ≤ Z.max 0 (TypedArray.length brick / 4).
Proof.
  rewrite count_brick_sum.
  pose proof (sum_bounds
    (λ j, Z_of_bool (positive (TypedArray.get brick (3 + 4 * j)))) 1
    (seqZ 0 (TypedArray.length brick / 4)) 0) as H.
  rewrite length_seqZ in H. cut (∀ b, 0 ≤ Z_of_bool b ≤ 1).
  - intros Hb. specialize (H ltac:(intros; apply Hb)). lia.
  - intros []; simpl; lia.
Qed.

Lemma count_brick_fresh n : count_brick (TypedArray.mk 8 n ∅) 0 = 0.
Proof.
  rewrite count_brick_sum.
  rewrite (fold_left_const_sum _ 0); [lia|].
  intros j _. destruct (TypedArray.get _ _) as [v|] eqn:E; [|done].
  apply ta_get_fresh_inv in E as ->. done.
Qed.

Lemma count_brick_store4 brick l r g b a :
  TypedArray.bits brick = 8 → 0 ≤ l → l mod 4 = 0 → l + 3 < TypedArray.length brick →
  count_brick (store4 l r g b a brick) 0 =
    count_brick brick 0 - Z_of_bool (positive (TypedArray.get brick (l + 3)))
                        + Z_of_bool (0 <? a mod 256).
Proof.
  intros Hbits Hl Hmod Hlen. rewrite !count_brick_sum, length_store4.
  rewrite (sum_change
             (λ j, Z_of_bool (positive (TypedArray.get brick (3 + 4 * j))))
             (λ j, Z_of_bool (positive (TypedArray.get (store4 l r g b a brick) (3 + 4 * j))))
             _ (l / 4)).
  - replace (3 + 4 * (l / 4)) with (l + 3) by lia.
    rewrite get_store4 by lia. rewrite Hbits.
    repeat first [rewrite decide_True by lia | rewrite decide_False by lia].
    change (2 ^ 8) with 256. simpl. lia.
  - apply NoDup_seqZ.
  - apply elem_of_seqZ. lia.
  - intros j _ Hj. rewrite get_store4 by lia.
    repeat first [rewrite decide_True by lia | rewrite decide_False by lia]. done.
Qed.

Lemma sum_values_alter {V : Type} (h : V → Z) (f : V → V) (m : JsMap.t V) k v n :
  JsMap.get m k = Some v →
  fold_left (λ n x, n + h x) (JsMap.values (JsMap.alter f k m)) n =
    fold_left (λ n x, n + h x) (JsMap.values m) n + (h (f v) - h v).
Proof.
  revert n. induction m as [|[k' v'] m IH]; intros n; simpl; [done|].
  destruct (Z.eqb k' k).
  - intros [= ->]. simpl.
    replace (n + h (f v)) with (n + h v + (h (f v) - h v)) by lia. apply sum_shift.
  - intros Hget. simpl. by apply IH.
Qed.

Lemma setVoxel_counted w x y z r g b a :
  wf w → in_world w x y z →
  ∃ w', setVoxel x y z r g b a w = Normal true w' ∧
        counted w' =
          counted w - Z_of_bool (occupied w x y z) + Z_of_bool (0 <? a mod 256).
Proof.
  intros Hwf Hin.
  destruct (local_index_of_range w Hwf x y z Hin) as (Hl0 & Hl3 & Hl4).
  unfold occupied. rewrite (read_eq w Hwf) by done.
  destruct (setVoxel_cases w Hwf x y z r g b a Hin)
    as [[Hc Hset] | (k & Hc & Hk & Hset)]; rewrite Hset, Hc; eexists; (split; [done|]).
  - rewrite decide_True by done. rewrite !counted_sum. cbn [created bricks].
    unfold JsMap.values. rewrite fmap_app, fold_left_app.
    cbn [fmap list_fmap snd fold_left].
    rewrite count_brick_store4
      by (cbn [TypedArray.bits TypedArray.length]; done || lia).
    rewrite count_brick_fresh, ta_get_fresh by lia.
    cbn [zero_voxel Voxel.a positive]. simpl. lia.
  - rewrite decide_False by done.
    destruct (wf_cell_brick w Hwf _ _ Hc Hk) as [brick Hb]. rewrite Hb.
    destruct (wf_brick_shape w Hwf _ _ Hb) as (Hbits & Hlen & _).
    rewrite !counted_sum. unfold updated. cbn [set_bricks bricks].
    rewrite (sum_values_alter _ _ _ _ _ _ Hb).
    rewrite count_brick_store4 by (done || lia).
    cbn [voxel_of_brick Voxel.a]. lia.
Qed.

(** X8.  [countVoxels] follows the writes: an in-bounds [setVoxel] changes
    the count by one up when it makes an empty voxel occupied, by one down
    when it stores a zero alpha byte over an occupied voxel, and not at all
    otherwise. *)
Theorem X8_countVoxels_tracks_writes (w : BrickMapWorld) (x y z r g b a : Z) :
  reachable w → small w → in_world w x y z →
  ∃ w', setVoxel x y z r g b a w = Normal true w' ∧
        counted w' =
          counted w - Z_of_bool (occupied w x y z) + Z_of_bool (0 <? a mod 256).
Proof.
  intros Hreach Hsmall Hin. apply setVoxel_counted; [|done].
  by apply reachable_wf.
Qed.

Lemma X8_countVoxels_tracks_writes_witness :
  let w := mkWorld 2 8 16 (TypedArray.mk 32 8 ∅) JsMap.empty 1 64 None 0 0 in
  ∃ w', setVoxel 9 3 15 93 64 55 255 w = Normal true w' ∧
        counted w' =
          counted w - Z_of_bool (occupied w 9 3 15) + Z_of_bool (0 <? 255 mod 256).
Proof.
  intros w. apply (X8_countVoxels_tracks_writes w 9 3 15 93 64 55 255).
  - apply (reachable_constructed 2 8). reflexivity.
  - unfold small. simpl. lia.
  - unfold in_world. simpl. lia.
Defined.

Lemma read_countVoxels w n w' x y z :
  countVoxels w = Normal n w' → read w' x y z = read w x y z.
Proof. intros [= _ <-]. apply read_set_voxelCount. Qed.

(** X9.  [uploadWorld] hands the shader the coarse grid and the atlas of the
    current bricks and refreshes [voxelCount] with the number of occupied
    voxels, at most [brickSize]^3 per brick; it changes no voxel and no
    brick. *)
Theorem X9_uploadWorld_effect (w : BrickMapWorld) (maxSteps : Z) :
  reachable w → small w → 0 < brickSize w →
  ∃ U w', uploadWorld maxSteps w = Normal U w' ∧
    tex_data (u_coarseGrid U) = coarseGrid w ∧
    tex_data (u_brickAtlas U) = built_atlas w ∧
    brickAtlasData w' = Some (built_atlas w) ∧
    voxelCount w' = counted w ∧
    0 ≤ voxelCount w' ≤ brickCount w * (brickSize w * brickSize w * brickSize w) ∧
    bricks w' = bricks w ∧ coarseGrid w' = coarseGrid w ∧ brickCount w' = brickCount w ∧
    ∀ x y z, read w' x y z = read w x y z.
Proof.
  intros Hreach Hsmall HB. pose proof (reachable_wf w Hreach Hsmall) as Hwf.
  pose proof (wf_atlasSize w Hwf) as HA.
  unfold uploadWorld, mbind, method_bind, mret, method_ret.
  rewrite buildAtlas_built by lia. simpl.
  eexists _, _. split; [reflexivity|]. cbn.
  split; [done|]. split; [done|]. split; [done|].
  assert (fold_left (λ n brick, count_brick brick n) (JsMap.values (bricks w)) 0
          = counted w) as -> by done.
  split; [done|]. split.
  - rewrite counted_sum.
    pose proof (sum_bounds (λ brick, count_brick brick 0)
                  (brickSize w * brickSize w * brickSize w)
                  (JsMap.values (bricks w)) 0) as Hsum.
    assert (Z.of_nat (List.length (JsMap.values (bricks w))) = nextBrickIndex w - 1)
      as Hcount.
    { unfold JsMap.values. rewrite length_fmap. apply (bricks_length w Hwf). }
    rewrite Hcount in Hsum.
    rewrite (wf_count w Hwf). apply Hsum. intros brick Hin.
    apply list_elem_of_fmap in Hin as ([k brick'] & -> & Hin).
    apply (jm_elem_get_Some _ _ _ (wf_keys_nodup w Hwf)) in Hin.
    destruct (wf_brick_shape w Hwf _ _ Hin) as (_ & Hlen & _).
    pose proof (count_brick_bounds brick') as Hb. simpl. rewrite Hlen in Hb.
    unfold brick_bytes in Hb. nia.
  - split; [done|]. split; [done|]. split; [done|].
    intros x y z. by rewrite read_set_voxelCount, read_set_brickAtlasData.
Qed.

Lemma X9_uploadWorld_effect_witness :
  let w := mkWorld 2 8 16 (TypedArray.mk 32 8 ∅) JsMap.empty 1 64 None 0 0 in
  ∃ U w', uploadWorld 256 w = Normal U w' ∧
    tex_data (u_coarseGrid U) = coarseGrid w ∧
    tex_data (u_brickAtlas U) = built_atlas w ∧
    brickAtlasData w' = Some (built_atlas w) ∧
    voxelCount w' = counted w ∧
    0 ≤ voxelCount w' ≤ brickCount w * (brickSize w * brickSize w * brickSize w) ∧
    bricks w' = bricks w ∧ coarseGrid w' = coarseGrid w ∧ brickCount w' = brickCount w ∧
    ∀ x y z, read w' x y z = read w x y z.
Proof.
  intros w. apply (X9_uploadWorld_effect w 256).
  - apply (reachable_constructed 2 8). reflexivity.
  - unfold small. simpl. lia.
  - simpl. lia.
Defined.
(* ===================================================================== *)
(** * What the shader fetches                                             *)
(* ===================================================================== *)

Lemma wrap32_small z : - 2 ^ 31 ≤ z < 2 ^ 31 → wrap32 z = z.
Proof. intros H. unfold wrap32. rewrite Z.mod_small by lia. lia. Qed.

(** The sizes reach the shader as floats and are converted back with
    [int(...)]; every size up to 2048, and so every size of a small world,
    makes the round trip. *)
Lemma int_of_float_of_Z (n : Z) : 0 ≤ n ≤ 2048 → int_of_float (F32.of_Z n) = n.
Proof.
  intros Hn.
  assert (forallb (λ n, int_of_float (F32.of_Z n) =? n) (seqZ 0 2049) = true) as Hall
    by (vm_compute; reflexivity).
  rewrite forallb_forall in Hall. apply Z.eqb_eq, Hall.
  apply list_elem_of_In, elem_of_seqZ. lia.
Qed.

Lemma small_coarseSize w : wf w → 0 ≤ coarseSize w ≤ 1625.
Proof.
  intros Hwf. pose proof (wf_coarse w Hwf) as H0. pose proof (wf_small w Hwf) as Hs.
  unfold small in Hs. split; [done|].
  destruct (decide (coarseSize w ≤ 1625)) as [|Hbig]; [done|]. exfalso.
  assert (1626 * 1626 ≤ coarseSize w * coarseSize w) as H2 by nia.
  assert (1626 * 1626 * 1626 ≤ coarseSize w * coarseSize w * coarseSize w) as H3 by nia.
  change (2 ^ 32) with 4294967296 in Hs. lia.
Qed.

Lemma uploadWorld_uniforms w maxSteps U w' :
  uploadWorld maxSteps w = Normal U w' →
  U = Uniforms (Texture (coarseSize w) (coarseSize w) (coarseSize w) (coarseGrid w))
               (Texture (atlasSize w * brickSize w) (atlasSize w * brickSize w)
                        (atlasSize w * brickSize w) (built_atlas w))
               (vec3_of (F32.of_Z (coarseSize w)))
               (vec3_of (F32.of_Z (atlasSize w)))
               maxSteps.
Proof.
  unfold uploadWorld, mbind, method_bind, mret, method_ret.
  rewrite buildAtlas_stores. cbn zeta.
  destruct (TypedArray.alloc 8 _) as [fresh|] eqn:Halloc; [|done].
  apply ta_alloc_Some in Halloc as [_ ->]. simpl. by intros [= <- _].
Qed.

Lemma uploadWorld_returns w maxSteps :
  0 ≤ atlasSize w * brickSize w →
  uploadWorld maxSteps w =
    Normal (Uniforms (Texture (coarseSize w) (coarseSize w) (coarseSize w) (coarseGrid w))
                     (Texture (atlasSize w * brickSize w) (atlasSize w * brickSize w)
                              (atlasSize w * brickSize w) (built_atlas w))
                     (vec3_of (F32.of_Z (coarseSize w)))
                     (vec3_of (F32.of_Z (atlasSize w)))
                     maxSteps)
           (set_voxelCount (counted w) (set_brickAtlasData (Some (built_atlas w)) w)).
Proof.
  intros H. unfold uploadWorld, mbind, method_bind, mret, method_ret.
  by rewrite buildAtlas_built.
Qed.

(** Decide the integer comparisons of a goal one after the other. *)
Ltac bool_lia :=
  repeat match goal with
         | |- context [?a >=? ?b] => rewrite (Z.geb_leb a b)
         | |- context [?a >? ?b] => rewrite (Z.gtb_ltb a b)
         | |- context [?a <? ?b] =>
             destruct (Z.ltb_spec a b); try lia; cbn [orb andb negb]
         | |- context [?a <=? ?b] =>
             destruct (Z.leb_spec a b); try lia; cbn [orb andb negb]
         | |- context [?a =? ?b] =>
             destruct (Z.eqb_spec a b); try lia; cbn [orb andb negb]
         end.

Section Sampling.

Variable w : BrickMapWorld.
Variable U : uniforms.
Hypothesis Hwf : wf w.
Hypothesis Hgrid :
  u_coarseGrid U = Texture (coarseSize w) (coarseSize w) (coarseSize w) (coarseGrid w).
Hypothesis Hsize : u_coarseGridSize U = vec3_of (F32.of_Z (coarseSize w)).
Hypothesis Hatlas :
  u_brickAtlas U = Texture (atlasSize w * brickSize w) (atlasSize w * brickSize w)
                           (atlasSize w * brickSize w) (built_atlas w).
Hypothesis Hasize : u_atlasSize U = vec3_of (F32.of_Z (atlasSize w)).

(** The shader's coarse lookup is the coarse grid of the world. *)
Lemma getBrickIndex_grid cx cy cz :
  getBrickIndex U (IVec3 cx cy cz) = default 0 (cell w (_getCoarseIndex w cx cy cz)).
Proof.
  pose proof (small_coarseSize w Hwf) as HC.
  unfold getBrickIndex, _getCoarseIndex, texelFetch_r32ui, texel_inside, texel_offset, cell.
  rewrite Hgrid, Hsize. cbn [ix iy iz vx vy vz vec3_of tex_width tex_height tex_depth tex_data].
  rewrite int_of_float_of_Z by lia.
  destruct (decide (0 ≤ cx < coarseSize w ∧ 0 ≤ cy < coarseSize w ∧ 0 ≤ cz < coarseSize w))
    as [Hin|Hout].
  - bool_lia; done.
  - assert (TypedArray.get (coarseGrid w) (-1) = None) as Hnone.
    { unfold TypedArray.get, TypedArray.in_range. done. }
    bool_lia; by rewrite Hnone.
Qed.

Lemma outside_grid_iff p :
  outside_grid U p = false ↔
  0 ≤ ix p < coarseSize w ∧ 0 ≤ iy p < coarseSize w ∧ 0 ≤ iz p < coarseSize w.
Proof.
  pose proof (small_coarseSize w Hwf) as HC.
  unfold outside_grid. rewrite Hsize. cbn [vx vy vz vec3_of].
  rewrite int_of_float_of_Z by lia.
  split.
  - intros H. repeat (apply orb_false_elim in H as [H ?]).
    repeat match goal with
           | H : (_ >=? _) = false |- _ => rewrite Z.geb_leb in H; apply Z.leb_gt in H
           | H : (_ <? _) = false |- _ => apply Z.ltb_ge in H
           end. lia.
  - intros H. bool_lia; done.
Qed.

Hypothesis HB : brickSize w = BRICK_SIZE.

(** The shader's atlas lookup is the brick of the map. *)
Lemma getVoxelFromBrick_brick k brick lx ly lz :
  JsMap.get (bricks w) k = Some brick →
  k ≤ atlasSize w * atlasSize w * atlasSize w →
  0 ≤ lx < 8 → 0 ≤ ly < 8 → 0 ≤ lz < 8 →
  getVoxelFromBrick U k (IVec3 lx ly lz) =
    sampled (voxel_of_brick brick (brick_src 8 lz ly lx)).
Proof.
  intros Hbrick Hcap Hlx Hly Hlz.
  pose proof (wf_atlasSize w Hwf) as HA.
  pose proof (wf_keys_range w Hwf k (jm_get_Some_key _ _ _ Hbrick)) as [Hk1 _].
  unfold BRICK_SIZE in HB.
  pose proof (λ c, get_built_atlas w k brick lz ly lx c Hwf ltac:(lia) Hbrick Hcap
                     ltac:(lia) ltac:(lia) ltac:(lia)) as Hget.
  rewrite HA, HB in Hget, Hatlas. rewrite HA in Hcap, Hasize.
  change (64 * 64) with 4096 in Hget. change (64 * 8) with 512 in Hget, Hatlas.
  set (ax := (k - 1) mod 64) in *.
  set (ay := ((k - 1) / 64) mod 64) in *.
  set (az := (k - 1) / 4096) in *.
  assert (0 ≤ ax < 64 ∧ 0 ≤ ay < 64 ∧ 0 ≤ az < 64) as (Hax & Hay & Haz)
    by (subst ax ay az; lia).
  assert (brickIndexToAtlasPos U k = IVec3 ax ay az) as Hpos.
  { unfold brickIndexToAtlasPos. rewrite Hasize. cbn [vx vy vec3_of].
    rewrite (int_of_float_of_Z 64) by lia.
    unfold isub, int_of_uint, imod, idiv, imul.
    rewrite (wrap32_small k) by lia. rewrite (wrap32_small (k - 1)) by lia.
    change (wrap32 (64 * 64)) with 4096.
    rewrite !Z.quot_div_nonneg by lia.
    rewrite !wrap32_small by lia.
    rewrite !Z.rem_mod_nonneg by lia. done. }
  unfold getVoxelFromBrick. rewrite Hpos.
  destruct (Z.eqb_spec k 0) as [|_]; [lia|].
  unfold BRICK_SIZE, imap2, ivec3_of, imul, iadd. cbn [ix iy iz].
  rewrite !(wrap32_small (_ * 8)) by lia. rewrite !wrap32_small by lia.
  unfold texelFetch_rgba8, texel_inside, texel_offset. rewrite Hatlas.
  cbn [ix iy iz tex_width tex_height tex_depth tex_data].
  assert (((0 <=? ax * 8 + lx) && (ax * 8 + lx <? 512) &&
           (0 <=? ay * 8 + ly) && (ay * 8 + ly <? 512) &&
           (0 <=? az * 8 + lz) && (az * 8 + lz <? 512)) = true) as ->.
  { bool_lia; done. }
  unfold sampled, voxel_of_brick. cbn [Voxel.r Voxel.g Voxel.b Voxel.a].
  unfold atlas_dst in Hget.
  rewrite (Hget 0), (Hget 1), (Hget 2), (Hget 3) by lia.
  by rewrite Z.add_0_r.
Qed.

Lemma getVoxelFromBrick_empty p :
  getVoxelFromBrick U 0 p = sampled zero_voxel.
Proof.
  unfold getVoxelFromBrick, sampled. simpl. by rewrite unorm8_0.
Qed.

(** For a voxel of the world, the two lookups of the shader give the
    record that [getVoxel] returns, as the sampler presents it. *)
Lemma shader_fetch x y z :
  brickCount w ≤ atlasSize w * atlasSize w * atlasSize w →
  in_world w x y z →
  ∃ v, read w x y z = Some v ∧
       getVoxelFromBrick U (getBrickIndex U (coarse_pos w x y z)) (local_pos w x y z)
         = sampled v.
Proof.
  intros Hcap Hin. unfold coarse_pos, local_pos, _worldToCoarse, _worldToLocal.
  rewrite getBrickIndex_grid.
  rewrite (read_eq w Hwf) by done.
  change (_getCoarseIndex w (x / brickSize w) (y / brickSize w) (z / brickSize w))
    with (coarse_index_of w x y z).
  destruct (cell_in_range w Hwf (coarse_index_of w x y z)) as [k Hk].
  { by apply coarse_index_of_range. }
  rewrite Hk. cbn [default]. case_decide as Hz.
  - subst k. eexists. split; [done|]. apply getVoxelFromBrick_empty.
  - destruct (wf_cell_brick w Hwf _ _ Hk Hz) as [brick Hb]. rewrite Hb.
    eexists. split; [done|].
    pose proof (wf_cell_lt w Hwf _ _ Hk) as Hlt.
    pose proof (wf_count w Hwf) as Hcount.
    destruct Hin as (Hx & Hy & Hz').
    rewrite (wf_worldSize w Hwf) in Hx, Hy, Hz'.
    pose proof HB as HB8. unfold BRICK_SIZE in HB8.
    rewrite !Z.rem_mod_nonneg by lia.
    rewrite (getVoxelFromBrick_brick k brick) by (done || lia).
    rewrite (local_index_of_eq w Hwf).
    + unfold brick_src. by rewrite HB8.
    + unfold in_world. rewrite (wf_worldSize w Hwf). done.
Qed.

End Sampling.

(** X10.  The coarse lookup of the shader agrees with the world: after
    [uploadWorld], [getBrickIndex] at a cell of the grid returns the brick
    index that the coarse grid holds there, and 0 at a position outside the
    grid, where [_getCoarseIndex] gives -1. *)
Theorem X10_getBrickIndex_is_coarse_cell
    (w w' : BrickMapWorld) (maxSteps : Z) (U : uniforms) (cx cy cz : Z) :
  reachable w → small w → uploadWorld maxSteps w = Normal U w' →
  getBrickIndex U (IVec3 cx cy cz) = default 0 (cell w (_getCoarseIndex w cx cy cz)) ∧
  (_getCoarseIndex w cx cy cz = -1 → getBrickIndex U (IVec3 cx cy cz) = 0).
Proof.
  intros Hreach Hsmall Hup. pose proof (reachable_wf w Hreach Hsmall) as Hwf.
  apply uploadWorld_uniforms in Hup. subst U.
  assert (∀ cx cy cz,
    getBrickIndex
      (Uniforms (Texture (coarseSize w) (coarseSize w) (coarseSize w) (coarseGrid w))
                (Texture (atlasSize w * brickSize w) (atlasSize w * brickSize w)
                         (atlasSize w * brickSize w) (built_atlas w))
                (vec3_of (F32.of_Z (coarseSize w))) (vec3_of (F32.of_Z (atlasSize w)))
                maxSteps) (IVec3 cx cy cz)
    = default 0 (cell w (_getCoarseIndex w cx cy cz))) as Hidx.
  { intros. by apply getBrickIndex_grid. }
  split; [apply Hidx|]. intros Hout. rewrite Hidx, Hout. done.
Qed.

Lemma X10_getBrickIndex_is_coarse_cell_witness :
  ∃ w U w',
    run [CallSetVoxel 9 3 15 93 64 55 255]
        (mkWorld 2 8 16 (TypedArray.mk 32 8 ∅) JsMap.empty 1 64 None 0 0)
      = Normal tt w ∧
    uploadWorld 256 w = Normal U w' ∧
    getBrickIndex U (IVec3 1 0 1) = default 0 (cell w (_getCoarseIndex w 1 0 1)) ∧
    (_getCoarseIndex w 1 0 1 = -1 → getBrickIndex U (IVec3 1 0 1) = 0).
Proof.
  eexists _, _, _. split; [vm_compute; reflexivity|].
  split; [apply uploadWorld_returns; simpl; lia|].
  eapply X10_getBrickIndex_is_coarse_cell.
  - exists 2, 8, (mkWorld 2 8 16 (TypedArray.mk 32 8 ∅) JsMap.empty 1 64 None 0 0),
      [CallSetVoxel 9 3 15 93 64 55 255].
    split; [reflexivity | vm_compute; reflexivity].
  - unfold small. simpl. lia.
  - apply uploadWorld_returns. simpl. lia.
Defined.

(** X11.  The shader samples what the world stores: after [uploadWorld] of
    a world with 8^3 bricks that fit the atlas, for every voxel of the
    world [getVoxelFromBrick], applied to the brick index that
    [getBrickIndex] finds for the voxel's coarse cell and to the voxel's
    position in the brick, is the record that [getVoxel] returns with
    every byte divided by 255. *)
Theorem X11_shader_samples_getVoxel
    (w w' : BrickMapWorld) (maxSteps : Z) (U : uniforms) (x y z : Z) :
  reachable w → small w → brickSize w = BRICK_SIZE →
  brickCount w ≤ atlasSize w * atlasSize w * atlasSize w →
  uploadWorld maxSteps w = Normal U w' → in_world w x y z →
  ∃ v, getVoxel x y z w = Normal (Some v) w ∧
       getVoxelFromBrick U (getBrickIndex U (coarse_pos w x y z)) (local_pos w x y z)
         = sampled v.
Proof.
  intros Hreach Hsmall HB Hcap Hup Hin. pose proof (reachable_wf w Hreach Hsmall) as Hwf.
  apply uploadWorld_uniforms in Hup.
  destruct (shader_fetch w U Hwf ltac:(by subst U) ltac:(by subst U) ltac:(by subst U)
              ltac:(by subst U) HB x y z Hcap Hin) as (v & Hv & Hfetch).
  exists v. split; [|exact Hfetch]. rewrite getVoxel_read. by rewrite Hv.
Qed.

Lemma X11_shader_samples_getVoxel_witness :
  ∃ w U w',
    run [CallSetVoxel 9 3 15 93 64 55 255]
        (mkWorld 2 8 16 (TypedArray.mk 32 8 ∅) JsMap.empty 1 64 None 0 0)
      = Normal tt w ∧
    uploadWorld 256 w = Normal U w' ∧
    ∃ v, getVoxel 9 3 15 w = Normal (Some v) w ∧
         getVoxelFromBrick U (getBrickIndex U (coarse_pos w 9 3 15)) (local_pos w 9 3 15)
           = sampled v.
Proof.
  eexists _, _, _. split; [vm_compute; reflexivity|].
  split; [apply uploadWorld_returns; simpl; lia|].
  eapply X11_shader_samples_getVoxel.
  - exists 2, 8, (mkWorld 2 8 16 (TypedArray.mk 32 8 ∅) JsMap.empty 1 64 None 0 0),
      [CallSetVoxel 9 3 15 93 64 55 255].
    split; [reflexivity | vm_compute; reflexivity].
  - unfold small. simpl. lia.
  - reflexivity.
  - simpl. lia.
  - apply uploadWorld_returns. simpl. lia.
  - unfold in_world. simpl. lia.
Defined.
(* ===================================================================== *)
(** * What a traversal can report                                         *)
(* ===================================================================== *)

Lemma outside_brick_false p : outside_brick p = false ↔ inside_brick p.
Proof.
  unfold outside_brick, inside_brick, BRICK_SIZE. split.
  - intros H. repeat (apply orb_false_elim in H as [H ?]).
    repeat match goal with
           | H : (_ >=? _) = false |- _ => rewrite Z.geb_leb in H; apply Z.leb_gt in H
           | H : (_ <? _) = false |- _ => apply Z.ltb_ge in H
           end. lia.
  - intros H. bool_lia; done.
Qed.

Lemma iclamp_inside p :
  inside_brick (iclamp p (ivec3_of 0) (ivec3_of (BRICK_SIZE - 1))).
Proof. unfold inside_brick, iclamp, imap2, ivec3_of, BRICK_SIZE. simpl. lia. Qed.

Lemma empty_voxel_transparent U p :
  (ca (getVoxelFromBrick U 0 p) >? F32.zero)%f32 = false.
Proof. reflexivity. Qed.

(** The normal and the distance that [traceBrick] writes on a hit. *)
Lemma brick_hit_fields rayOrigin rayDir brickMin step s voxel result :
  let res := brick_hit rayOrigin rayDir brickMin step s voxel result in
  hit res = true ∧ color res = Some voxel ∧
  pos res = Some (vadd brickMin (vec3_of_ivec3 (mapPos s))) ∧
  (∃ k, normal res = face_normal k step) ∧
  is_Some (distance res) ∧ steps res = steps result.
Proof.
  unfold brick_hit. cbn [hit color pos normal distance steps].
  split; [done|]. split; [done|]. split; [done|]. split; [|split; [|done]].
  - destruct (side s =? 0); [by exists AxisX|].
    destruct (side s =? 1); [by exists AxisY|]. by exists AxisZ.
  - destruct (side s =? 0); [done|]. destruct (side s =? 1); done.
Qed.

Lemma traceBrick_loop_found U n :
  ∀ brickIndex rayOrigin rayDir brickMin step deltaDist s result res,
  outside_brick (mapPos s) = false →
  traceBrick_loop U n brickIndex rayOrigin rayDir brickMin step deltaDist s result
    = (true, res) →
  ∃ s', outside_brick (mapPos s') = false ∧
        (ca (getVoxelFromBrick U brickIndex (mapPos s')) >? F32.zero)%f32 = true ∧
        res = brick_hit rayOrigin rayDir brickMin step s'
                        (getVoxelFromBrick U brickIndex (mapPos s')) result.
Proof.
  induction n as [|n IH];
    intros brickIndex rayOrigin rayDir brickMin step deltaDist s result res Hin Hloop;
    cbn [traceBrick_loop] in Hloop; [done|].
  destruct (ca (getVoxelFromBrick U brickIndex (mapPos s)) >? F32.zero)%f32 eqn:Hocc.
  - injection Hloop as <-. by exists s.
  - destruct (outside_brick (mapPos (dda_step step deltaDist s))) eqn:Hout; [done|].
    by apply (IH _ _ _ _ _ _ _ _ _ Hout Hloop).
Qed.

Lemma traceBrick_found U brickIndex rayOrigin rayDir coarsePos result res :
  traceBrick U brickIndex rayOrigin rayDir coarsePos result = (true, res) →
  ∃ s, inside_brick (mapPos s) ∧ brickIndex ≠ 0 ∧
       (ca (getVoxelFromBrick U brickIndex (mapPos s)) >? F32.zero)%f32 = true ∧
       res = brick_hit rayOrigin rayDir
                       (vec3_of_ivec3 (imap2 imul coarsePos (ivec3_of BRICK_SIZE)))
                       (ivec3_of_vec3 (vsign rayDir)) s
                       (getVoxelFromBrick U brickIndex (mapPos s)) result.
Proof.
  unfold traceBrick. destruct (_ || _); [done|]. intros Hloop.
  apply traceBrick_loop_found in Hloop as (s & Hin & Hocc & ->).
  - exists s. split; [by apply outside_brick_false|]. split; [|done].
    intros ->. by rewrite empty_voxel_transparent in Hocc.
  - cbn [mapPos]. apply outside_brick_false, iclamp_inside.
Qed.

(** X12.  What [traceBrick] reports: when it returns true it has found,
    at a position inside the 8^3 brick, a texel of a brick other than the
    empty brick 0 whose alpha is positive; the result holds that texel as
    the colour, the brick's corner plus that position as the hit position,
    a normal that is zero but for one component, which is minus the step
    on that axis, and a distance, and keeps its step count. *)
Theorem X12_traceBrick_hit_record (U : uniforms) (brickIndex : Z)
    (rayOrigin rayDir : vec3) (coarsePos : ivec3) (result res : HitResult) :
  traceBrick U brickIndex rayOrigin rayDir coarsePos result = (true, res) →
  ∃ p k,
    inside_brick p ∧ brickIndex ≠ 0 ∧
    (ca (getVoxelFromBrick U brickIndex p) >? F32.zero)%f32 = true ∧
    hit res = true ∧
    color res = Some (getVoxelFromBrick U brickIndex p) ∧
    pos res = Some (vadd (vec3_of_ivec3 (imap2 imul coarsePos (ivec3_of BRICK_SIZE)))
                         (vec3_of_ivec3 p)) ∧
    normal res = face_normal k (ivec3_of_vec3 (vsign rayDir)) ∧
    is_Some (distance res) ∧
    steps res = steps result.
Proof.
  intros Hrun. apply traceBrick_found in Hrun as (s & Hin & Hk & Hocc & ->).
  destruct (brick_hit_fields rayOrigin rayDir
              (vec3_of_ivec3 (imap2 imul coarsePos (ivec3_of BRICK_SIZE)))
              (ivec3_of_vec3 (vsign rayDir)) s
              (getVoxelFromBrick U brickIndex (mapPos s)) result)
    as (Hhit & Hcol & Hpos & [k Hnorm] & Hdist & Hsteps).
  exists (mapPos s), k. done.
Qed.

Lemma X12_traceBrick_hit_record_witness :
  let U := one_voxel_uniforms 256 in
  let rayOrigin := Vec3 (F32.of_Z 4) (F32.of_Z 4) (F32.of_Z (-10)) in
  let rayDir := Vec3 F32.zero F32.zero F32.one in
  let result := mkHit false None (vec3_of F32.zero) None None 1 in
  ∃ res, traceBrick U 1 rayOrigin rayDir (IVec3 0 0 0) result = (true, res) ∧
  ∃ p k,
    inside_brick p ∧ 1 ≠ 0 ∧
    (ca (getVoxelFromBrick U 1 p) >? F32.zero)%f32 = true ∧
    hit res = true ∧
    color res = Some (getVoxelFromBrick U 1 p) ∧
    pos res = Some (vadd (vec3_of_ivec3 (imap2 imul (IVec3 0 0 0) (ivec3_of BRICK_SIZE)))
                         (vec3_of_ivec3 p)) ∧
    normal res = face_normal k (ivec3_of_vec3 (vsign rayDir)) ∧
    is_Some (distance res) ∧
    steps res = steps result.
Proof.
  intros U rayOrigin rayDir result.
  eexists. split; [vm_compute; reflexivity|].
  eapply (X12_traceBrick_hit_record U 1 rayOrigin rayDir (IVec3 0 0 0) result).
  vm_compute. reflexivity.
Defined.

(** ** The coarse loop *)

(** A result of the coarse loop that reports a hit was written by
    [traceBrick] in a cell that names a brick. *)
Lemma traceRay_loop_found U origin direction step deltaDist n : ∀ i s result,
  hit result = false →
  hit (traceRay_loop U n i origin direction step deltaDist s result) = true →
  ∃ cp result',
    (getBrickIndex U cp >? 0) = true ∧
    traceBrick U (getBrickIndex U cp) origin direction cp result'
      = (true, traceRay_loop U n i origin direction step deltaDist s result).
Proof.
  induction n as [|n IH]; intros i s result Hmiss Hhit; cbn [traceRay_loop] in *;
    [congruence|].
  destruct (i >=? u_maxSteps U); [congruence|].
  set (result1 := set_steps (i + 1) result) in *.
  assert (hit result1 = false) as Hmiss1 by done.
  destruct (getBrickIndex U (mapPos s) >? 0) eqn:Hidx.
  - destruct (traceBrick U (getBrickIndex U (mapPos s)) origin direction (mapPos s) result1)
      as [found result2] eqn:Hbrick.
    destruct found; [by exists (mapPos s), result1|].
    assert (result2 = result1) as ->.
    { destruct (traceBrick_spec U (getBrickIndex U (mapPos s)) origin direction
                  (mapPos s) result1) as [[_ Heq]|[Heq _]];
        rewrite Hbrick in Heq; simpl in Heq; congruence. }
    destruct (outside_grid U _); [congruence|]. by apply IH.
  - destruct (outside_grid U _); [congruence|]. by apply IH.
Qed.

Lemma traceRay_found U origin direction :
  hit (traceRay U origin direction) = true →
  ∃ cp result',
    (getBrickIndex U cp >? 0) = true ∧
    traceBrick U (getBrickIndex U cp) origin direction cp result'
      = (true, traceRay U origin direction).
Proof.
  unfold traceRay. destruct (_ || _); [done|]. by apply traceRay_loop_found.
Qed.

(** Without bricks the coarse loop changes nothing but the step count. *)
Lemma traceRay_loop_no_bricks U origin direction step deltaDist n : ∀ i s result,
  (∀ p, getBrickIndex U p = 0) →
  ∃ k, traceRay_loop U n i origin direction step deltaDist s result = set_steps k result.
Proof.
  induction n as [|n IH]; intros i s result Hempty; cbn [traceRay_loop].
  - exists (steps result). by destruct result.
  - destruct (i >=? u_maxSteps U); [exists (steps result); by destruct result|].
    rewrite Hempty. cbn [Z.gtb Z.compare].
    destruct (outside_grid U _); [by eexists|].
    destruct (IH (i + 1) (dda_step step deltaDist s) (set_steps (i + 1) result) Hempty)
      as [k ->]. by exists k.
Qed.

Lemma traceShadow_loop_no_bricks U origin direction step deltaDist n : ∀ s tempResult,
  (∀ p, getBrickIndex U p = 0) →
  traceShadow_loop U n origin direction step deltaDist s tempResult = F32.one.
Proof.
  induction n as [|n IH]; intros s tempResult Hempty; cbn [traceShadow_loop]; [done|].
  destruct (outside_grid U _); [done|].
  rewrite Hempty. cbn [Z.gtb Z.compare]. by apply IH.
Qed.

(** A shadow is cast by a brick: the loop answers 0.3 only where
    [traceBrick] found a texel. *)
Lemma traceShadow_loop_cases U origin direction step deltaDist n : ∀ s tempResult,
  traceShadow_loop U n origin direction step deltaDist s tempResult = F32.one ∨
  (traceShadow_loop U n origin direction step deltaDist s tempResult = f32_0_3 ∧
   ∃ cp result' res,
     outside_grid U cp = false ∧ (getBrickIndex U cp >? 0) = true ∧
     traceBrick U (getBrickIndex U cp) origin direction cp result' = (true, res)).
Proof.
  induction n as [|n IH]; intros s tempResult; cbn [traceShadow_loop]; [by left|].
  destruct (outside_grid U (mapPos s)) eqn:Hout; [by left|].
  destruct (getBrickIndex U (mapPos s) >? 0) eqn:Hidx; [|apply IH].
  destruct (traceBrick U (getBrickIndex U (mapPos s)) origin direction (mapPos s) tempResult)
    as [found result2] eqn:Hbrick.
  destruct found; [|apply IH].
  right. split; [done|]. by exists (mapPos s), tempResult, result2.
Qed.

(** The flag that [traceBrick] returns does not depend on the result it
    is given to fill in. *)
Lemma traceBrick_loop_flag U n :
  ∀ brickIndex rayOrigin rayDir brickMin step deltaDist s result1 result2,
  (traceBrick_loop U n brickIndex rayOrigin rayDir brickMin step deltaDist s result1).1 =
  (traceBrick_loop U n brickIndex rayOrigin rayDir brickMin step deltaDist s result2).1.
Proof.
  induction n as [|n IH];
    intros brickIndex rayOrigin rayDir brickMin step deltaDist s result1 result2;
    cbn [traceBrick_loop]; [done|].
  destruct (ca _ >? F32.zero)%f32; [done|].
  destruct (outside_brick _); [done|]. apply IH.
Qed.

Lemma traceBrick_flag U brickIndex rayOrigin rayDir coarsePos result1 result2 :
  (traceBrick U brickIndex rayOrigin rayDir coarsePos result1).1 =
  (traceBrick U brickIndex rayOrigin rayDir coarsePos result2).1.
Proof.
  unfold traceBrick. destruct (_ || _); [done|]. apply traceBrick_loop_flag.
Qed.

Lemma traceShadow_loop_indep U origin direction step deltaDist n : ∀ s temp1 temp2,
  traceShadow_loop U n origin direction step deltaDist s temp1 =
  traceShadow_loop U n origin direction step deltaDist s temp2.
Proof.
  induction n as [|n IH]; intros s temp1 temp2; cbn [traceShadow_loop]; [done|].
  destruct (outside_grid U _); [done|].
  destruct (getBrickIndex U (mapPos s) >? 0); [|apply IH].
  pose proof (traceBrick_flag U (getBrickIndex U (mapPos s)) origin direction (mapPos s)
                temp1 temp2) as Hflag.
  destruct (traceBrick U _ _ _ _ temp1) as [found1 r1].
  destruct (traceBrick U _ _ _ _ temp2) as [found2 r2].
  simpl in Hflag. subst found2. destruct found1; [done|apply IH].
Qed.

(** X13.  [traceShadow] answers 1.0 (lit) or 0.3 (shadowed) and nothing
    else; 0.3 is the float nearest to 3/10; the answer does not depend on
    the fields of [tempResult] that the shader leaves uninitialised; and a
    ray that starts in a coarse cell outside the grid is lit. *)
Theorem X13_traceShadow_answers (U : uniforms) (origin direction : vec3) :
  (traceShadow U origin direction = F32.one ∨ traceShadow U origin direction = f32_0_3) ∧
  f32_0_3 = (F32.of_Z 3 / F32.of_Z 10)%f32 ∧
  (∀ n step deltaDist s temp1 temp2,
     traceShadow_loop U n origin direction step deltaDist s temp1 =
     traceShadow_loop U n origin direction step deltaDist s temp2) ∧
  (∀ n step deltaDist s temp,
     outside_grid U (mapPos s) = true →
     traceShadow_loop U n origin direction step deltaDist s temp = F32.one).
Proof.
  split; [|split; [|split]].
  - unfold traceShadow.
    match goal with
    | |- context [traceShadow_loop U ?n ?o ?d ?st ?dd ?s ?t] =>
        destruct (traceShadow_loop_cases U o d st dd n s t) as [H|[H _]]
    end; [by left | by right].
  - vm_compute. reflexivity.
  - intros. apply traceShadow_loop_indep.
  - intros n step deltaDist s temp Hout. destruct n; cbn [traceShadow_loop]; [done|].
    by rewrite Hout.
Qed.
(* ===================================================================== *)
(** * Hits and shadows come from voxels of the world                      *)
(* ===================================================================== *)

(** The corner of a brick plus a position inside it, computed in floats,
    is the float of the voxel coordinate: no rounding occurs for the
    coordinates of a small world. *)
Lemma f32_cell_position (c p : Z) :
  0 ≤ c ≤ 1625 → 0 ≤ p < 8 →
  (float_of_int (imul c BRICK_SIZE) + float_of_int p)%f32
    = float_of_int (c * BRICK_SIZE + p).
Proof.
  intros Hc Hp. unfold imul, BRICK_SIZE, float_of_int. rewrite wrap32_small by lia.
  assert (forallb (λ c, forallb (λ p,
            bool_decide ((F32.of_Z (c * 8) + F32.of_Z p)%f32 = F32.of_Z (c * 8 + p)))
            (seqZ 0 8)) (seqZ 0 1626) = true) as Hall by (vm_compute; reflexivity).
  rewrite forallb_forall in Hall.
  specialize (Hall c ltac:(apply list_elem_of_In, elem_of_seqZ; lia)).
  rewrite forallb_forall in Hall.
  specialize (Hall p ltac:(apply list_elem_of_In, elem_of_seqZ; lia)).
  by apply bool_decide_eq_true in Hall.
Qed.

Lemma getCoarseIndex_outside w cx cy cz :
  ¬ (0 ≤ cx < coarseSize w ∧ 0 ≤ cy < coarseSize w ∧ 0 ≤ cz < coarseSize w) →
  _getCoarseIndex w cx cy cz = -1.
Proof. intros H. unfold _getCoarseIndex. bool_lia; done. Qed.

Lemma sampled_alpha v a :
  Voxel.a v = Some a → 0 ≤ a →
  (ca (sampled v) >? F32.zero)%f32 = true → positive (Voxel.a v) = true.
Proof.
  intros Ha Hpos Hocc. rewrite Ha. unfold sampled in Hocc. cbn [ca] in Hocc.
  rewrite Ha in Hocc. cbn [default from_option id] in Hocc. cbn [positive].
  destruct (decide (a = 0)) as [->|Hne]; [by rewrite unorm8_0 in Hocc|].
  apply Z.ltb_lt. lia.
Qed.

Section Soundness.

Variable w : BrickMapWorld.
Variable U : uniforms.
Hypothesis Hwf : wf w.
Hypothesis Hgrid :
  u_coarseGrid U = Texture (coarseSize w) (coarseSize w) (coarseSize w) (coarseGrid w).
Hypothesis Hsize : u_coarseGridSize U = vec3_of (F32.of_Z (coarseSize w)).
Hypothesis Hatlas :
  u_brickAtlas U = Texture (atlasSize w * brickSize w) (atlasSize w * brickSize w)
                           (atlasSize w * brickSize w) (built_atlas w).
Hypothesis Hasize : u_atlasSize U = vec3_of (F32.of_Z (atlasSize w)).
Hypothesis HB : brickSize w = BRICK_SIZE.
Hypothesis Hcap : brickCount w ≤ atlasSize w * atlasSize w * atlasSize w.

(** A texel that [traceBrick] reports is an occupied voxel of the world. *)
Lemma traceBrick_occupied rayOrigin rayDir cp result res :
  (getBrickIndex U cp >? 0) = true →
  traceBrick U (getBrickIndex U cp) rayOrigin rayDir cp result = (true, res) →
  ∃ x y z v k,
    in_world w x y z ∧ read w x y z = Some v ∧ occupied w x y z = true ∧
    hit res = true ∧
    color res = Some (sampled v) ∧
    pos res = Some (vec3_of_ivec3 (IVec3 x y z)) ∧
    normal res = face_normal k (ivec3_of_vec3 (vsign rayDir)).
Proof.
  intros Hidx Hbrick.
  apply traceBrick_found in Hbrick as (s & Hin & _ & Hocc & ->).
  destruct (brick_hit_fields rayOrigin rayDir
              (vec3_of_ivec3 (imap2 imul cp (ivec3_of BRICK_SIZE)))
              (ivec3_of_vec3 (vsign rayDir)) s
              (getVoxelFromBrick U (getBrickIndex U cp) (mapPos s)) result)
    as (Hhit & Hcol & Hpos & [k Hnorm] & _ & _).
  rewrite Hhit, Hcol, Hpos, Hnorm. clear Hhit Hcol Hpos Hnorm.
  destruct cp as [cx cy cz]. destruct (mapPos s) as [px py pz].
  unfold inside_brick in Hin. cbn [ix iy iz] in Hin.
  pose proof (small_coarseSize w Hwf) as HC.
  assert (0 ≤ cx < coarseSize w ∧ 0 ≤ cy < coarseSize w ∧ 0 ≤ cz < coarseSize w) as Hcell.
  { destruct (decide (0 ≤ cx < coarseSize w ∧ 0 ≤ cy < coarseSize w ∧ 0 ≤ cz < coarseSize w))
      as [|Hout]; [done|]. exfalso.
    rewrite (getBrickIndex_grid w U Hwf Hgrid Hsize) in Hidx.
    rewrite getCoarseIndex_outside in Hidx by done. done. }
  pose proof HB as HB8. unfold BRICK_SIZE in HB8, Hin.
  set (x := cx * BRICK_SIZE + px). set (y := cy * BRICK_SIZE + py).
  set (z := cz * BRICK_SIZE + pz).
  assert (in_world w x y z) as Hinw.
  { unfold in_world. rewrite (wf_worldSize w Hwf), HB8. subst x y z.
    unfold BRICK_SIZE. lia. }
  assert (coarse_pos w x y z = IVec3 cx cy cz) as Hcp.
  { unfold coarse_pos, _worldToCoarse. rewrite HB8. subst x y z. unfold BRICK_SIZE.
    f_equal; lia. }
  assert (local_pos w x y z = IVec3 px py pz) as Hlp.
  { unfold local_pos, _worldToLocal. rewrite HB8. subst x y z. unfold BRICK_SIZE.
    rewrite !Z.rem_mod_nonneg by lia. f_equal; lia. }
  destruct (shader_fetch w U Hwf Hgrid Hsize Hatlas Hasize HB x y z Hcap Hinw)
    as (v & Hread & Hfetch).
  rewrite Hcp, Hlp in Hfetch. rewrite Hfetch in Hocc |- *.
  destruct (read_in_world w x y z Hwf Hinw) as (r & g & b & a & Hv & _ & _ & _ & Ha).
  exists x, y, z, v, k.
  split; [done|]. split; [done|]. split.
  { unfold occupied. rewrite Hread. apply (sampled_alpha v a); [|lia|done].
    rewrite Hread in Hv. by injection Hv as ->. }
  split; [done|]. split; [done|]. split; [|done].
  unfold vadd, vmap2, vec3_of_ivec3, imap2, ivec3_of. cbn [vx vy vz ix iy iz].
  rewrite !f32_cell_position by lia. done.
Qed.

Lemma no_bricks_no_index :
  brickCount w = 0 → ∀ p, getBrickIndex U p = 0.
Proof.
  intros Hnone [cx cy cz]. rewrite (getBrickIndex_grid w U Hwf Hgrid Hsize).
  destruct (cell w (_getCoarseIndex w cx cy cz)) as [v|] eqn:Hv; [|done].
  pose proof (wf_cell_lt w Hwf _ _ Hv). pose proof (wf_count w Hwf). simpl. lia.
Qed.

End Soundness.

(** X14.  The renderer reports no phantom: when [traceRay] returns a hit
    for the uploaded world (8^3 bricks that fit the atlas), there is a
    voxel of the world with a positive alpha whose record, as the sampler
    presents it, is the colour of the result and whose integer coordinate
    is the hit position; the normal is minus the step of the ray along one
    axis. *)
Theorem X14_hit_is_occupied_voxel
    (w w' : BrickMapWorld) (maxSteps : Z) (U : uniforms) (origin direction : vec3) :
  reachable w → small w → brickSize w = BRICK_SIZE →
  brickCount w ≤ atlasSize w * atlasSize w * atlasSize w →
  uploadWorld maxSteps w = Normal U w' →
  hit (traceRay U origin direction) = true →
  ∃ x y z v k,
    in_world w x y z ∧
    getVoxel x y z w = Normal (Some v) w ∧ occupied w x y z = true ∧
    color (traceRay U origin direction) = Some (sampled v) ∧
    pos (traceRay U origin direction) = Some (vec3_of_ivec3 (IVec3 x y z)) ∧
    normal (traceRay U origin direction) = face_normal k (ivec3_of_vec3 (vsign direction)).
Proof.
  intros Hreach Hsmall HB Hcap Hup Hhit. pose proof (reachable_wf w Hreach Hsmall) as Hwf.
  apply uploadWorld_uniforms in Hup.
  apply traceRay_found in Hhit as (cp & result' & Hidx & Hbrick).
  destruct (traceBrick_occupied w U Hwf ltac:(by subst U) ltac:(by subst U)
              ltac:(by subst U) ltac:(by subst U) HB Hcap
              origin direction cp result' _ Hidx Hbrick)
    as (x & y & z & v & k & Hin & Hread & Hocc & _ & Hcol & Hpos & Hnorm).
  exists x, y, z, v, k. rewrite getVoxel_read, Hread. done.
Qed.

Lemma X14_hit_is_occupied_voxel_witness :
  let origin := Vec3 (F32.of_Z 4) (F32.of_Z 4) (F32.of_Z (-10)) in
  let direction := Vec3 F32.zero F32.zero F32.one in
  ∃ w U w',
    run [CallSetVoxel 4 4 4 255 0 0 255]
        (mkWorld 1 8 8 (TypedArray.mk 32 1 ∅) JsMap.empty 1 64 None 0 0)
      = Normal tt w ∧
    uploadWorld 256 w = Normal U w' ∧
    ∃ x y z v k,
      in_world w x y z ∧
      getVoxel x y z w = Normal (Some v) w ∧ occupied w x y z = true ∧
      color (traceRay U origin direction) = Some (sampled v) ∧
      pos (traceRay U origin direction) = Some (vec3_of_ivec3 (IVec3 x y z)) ∧
      normal (traceRay U origin direction)
        = face_normal k (ivec3_of_vec3 (vsign direction)).
Proof.
  intros origin direction.
  eexists _, _, _. split; [vm_compute; reflexivity|].
  split; [apply uploadWorld_returns; simpl; lia|].
  eapply X14_hit_is_occupied_voxel.
  - exists 1, 8, (mkWorld 1 8 8 (TypedArray.mk 32 1 ∅) JsMap.empty 1 64 None 0 0),
      [CallSetVoxel 4 4 4 255 0 0 255].
    split; [reflexivity | vm_compute; reflexivity].
  - unfold small. simpl. lia.
  - reflexivity.
  - simpl. lia.
  - apply uploadWorld_returns. simpl. lia.
  - vm_compute. reflexivity.
Defined.

(** X15.  A world without bricks, as the constructor or [clear()] leaves
    it, renders as sky: for every ray and every step budget [traceRay]
    reports no hit and leaves position, colour and distance unwritten, and
    [traceShadow] answers 1.0. *)
Theorem X15_no_bricks_no_hit
    (w w' : BrickMapWorld) (maxSteps : Z) (U : uniforms) (origin direction : vec3) :
  reachable w → small w → brickCount w = 0 →
  uploadWorld maxSteps w = Normal U w' →
  hit (traceRay U origin direction) = false ∧
  pos (traceRay U origin direction) = None ∧
  color (traceRay U origin direction) = None ∧
  distance (traceRay U origin direction) = None ∧
  traceShadow U origin direction = F32.one.
Proof.
  intros Hreach Hsmall Hnone Hup. pose proof (reachable_wf w Hreach Hsmall) as Hwf.
  apply uploadWorld_uniforms in Hup.
  pose proof (no_bricks_no_index w U Hwf ltac:(by subst U) ltac:(by subst U) Hnone)
    as Hempty.
  split; [|split; [|split; [|split]]];
    try (unfold traceRay; destruct (_ || _); [done|];
         match goal with
         | |- context [traceRay_loop U ?n ?i ?o ?d ?st ?dd ?s ?r] =>
             destruct (traceRay_loop_no_bricks U o d st dd n i s r Hempty) as [k ->]
         end; done).
  unfold traceShadow. by apply traceShadow_loop_no_bricks.
Qed.

Lemma X15_no_bricks_no_hit_witness :
  let origin := Vec3 (F32.of_Z 4) (F32.of_Z 4) (F32.of_Z (-10)) in
  let direction := Vec3 F32.zero F32.zero F32.one in
  ∃ w U w',
    run [CallSetVoxel 4 4 4 255 0 0 255; CallClear]
        (mkWorld 1 8 8 (TypedArray.mk 32 1 ∅) JsMap.empty 1 64 None 0 0)
      = Normal tt w ∧
    uploadWorld 256 w = Normal U w' ∧
    hit (traceRay U origin direction) = false ∧
    pos (traceRay U origin direction) = None ∧
    color (traceRay U origin direction) = None ∧
    distance (traceRay U origin direction) = None ∧
    traceShadow U origin direction = F32.one.
Proof.
  intros origin direction.
  eexists _, _, _. split; [vm_compute; reflexivity|].
  split; [apply uploadWorld_returns; simpl; lia|].
  eapply X15_no_bricks_no_hit.
  - exists 1, 8, (mkWorld 1 8 8 (TypedArray.mk 32 1 ∅) JsMap.empty 1 64 None 0 0),
      [CallSetVoxel 4 4 4 255 0 0 255; CallClear].
    split; [reflexivity | vm_compute; reflexivity].
  - unfold small. simpl. lia.
  - reflexivity.
  - apply uploadWorld_returns. simpl. lia.
Defined.

(** X16.  A shadow is cast by a voxel: when [traceShadow] answers 0.3 for
    the uploaded world (8^3 bricks that fit the atlas), the world holds a
    voxel with a positive alpha. *)
Theorem X16_shadow_has_occluder
    (w w' : BrickMapWorld) (maxSteps : Z) (U : uniforms) (origin direction : vec3) :
  reachable w → small w → brickSize w = BRICK_SIZE →
  brickCount w ≤ atlasSize w * atlasSize w * atlasSize w →
  uploadWorld maxSteps w = Normal U w' →
  traceShadow U origin direction = f32_0_3 →
  ∃ x y z v, in_world w x y z ∧ getVoxel x y z w = Normal (Some v) w ∧
             occupied w x y z = true.
Proof.
  intros Hreach Hsmall HB Hcap Hup Hshadow.
  pose proof (reachable_wf w Hreach Hsmall) as Hwf.
  apply uploadWorld_uniforms in Hup. unfold traceShadow in Hshadow.
  match type of Hshadow with
  | traceShadow_loop U ?n ?o ?d ?st ?dd ?s ?t = _ =>
      destruct (traceShadow_loop_cases U o d st dd n s t)
        as [Hlit|(_ & cp & result' & res & _ & Hidx & Hbrick)]
  end.
  { rewrite Hlit in Hshadow. discriminate Hshadow. }
  destruct (traceBrick_occupied w U Hwf ltac:(by subst U) ltac:(by subst U)
              ltac:(by subst U) ltac:(by subst U) HB Hcap
              origin direction cp result' res Hidx Hbrick)
    as (x & y & z & v & k & Hin & Hread & Hocc & _).
  exists x, y, z, v. rewrite getVoxel_read, Hread. done.
Qed.

Lemma X16_shadow_has_occluder_witness :
  let origin := Vec3 (F32.of_Z 4) (F32.of_Z 4) (F32.of_Z 1) in
  let direction := Vec3 F32.zero F32.zero F32.one in
  ∃ w U w',
    run [CallSetVoxel 4 4 4 255 0 0 255]
        (mkWorld 1 8 8 (TypedArray.mk 32 1 ∅) JsMap.empty 1 64 None 0 0)
      = Normal tt w ∧
    uploadWorld 256 w = Normal U w' ∧
    ∃ x y z v, in_world w x y z ∧ getVoxel x y z w = Normal (Some v) w ∧
               occupied w x y z = true.
Proof.
  intros origin direction.
  eexists _, _, _. split; [vm_compute; reflexivity|].
  split; [apply uploadWorld_returns; simpl; lia|].
  eapply (X16_shadow_has_occluder _ _ 256 _ origin direction).
  - exists 1, 8, (mkWorld 1 8 8 (TypedArray.mk 32 1 ∅) JsMap.empty 1 64 None 0 0),
      [CallSetVoxel 4 4 4 255 0 0 255].
    split; [reflexivity | vm_compute; reflexivity].
  - unfold small. simpl. lia.
  - reflexivity.
  - simpl. lia.
  - apply uploadWorld_returns. simpl. lia.
  - vm_compute. reflexivity.
Defined.
(* ===================================================================== *)
(** * The shape of a traversal result                                     *)
(* ===================================================================== *)

Lemma traceRay_loop_shape U origin direction step deltaDist n : ∀ i s result,
  0 ≤ i → hit result = false →
  let res := traceRay_loop U n i origin direction step deltaDist s result in
  (∃ k, res = set_steps k result) ∨
  (hit res = true ∧ 1 ≤ steps res ∧
   is_Some (pos res) ∧ is_Some (color res) ∧ is_Some (distance res)).
Proof.
  induction n as [|n IH]; intros i s result Hi Hmiss; cbn [traceRay_loop].
  { left. exists (steps result). by destruct result. }
  destruct (i >=? u_maxSteps U).
  { left. exists (steps result). by destruct result. }
  set (result1 := set_steps (i + 1) result).
  assert (∀ r, (∃ k, r = set_steps k result1) → ∃ k, r = set_steps k result) as Hback.
  { intros r [k ->]. by exists k. }
  assert (hit result1 = false) as Hmiss1 by done.
  destruct (getBrickIndex U (mapPos s) >? 0).
  - destruct (traceBrick U (getBrickIndex U (mapPos s)) origin direction (mapPos s) result1)
      as [found result2] eqn:Hbrick.
    destruct found.
    + right. apply traceBrick_found in Hbrick as (s' & _ & _ & _ & ->).
      match goal with
      | |- context [brick_hit ?o ?d ?bm ?st ?s0 ?vx ?r] =>
          destruct (brick_hit_fields o d bm st s0 vx r)
            as (Hhit & Hcol & Hpos & _ & Hdist & Hsteps)
      end.
      rewrite Hhit, Hcol, Hpos, Hsteps. cbn [result1 set_steps steps].
      split; [done|]. split; [lia|]. done.
    + assert (result2 = result1) as ->.
      { destruct (traceBrick_spec U (getBrickIndex U (mapPos s)) origin direction
                    (mapPos s) result1) as [[_ Heq]|[Heq _]];
          rewrite Hbrick in Heq; simpl in Heq; congruence. }
      destruct (outside_grid U _); [left; by exists (i + 1)|].
      destruct (IH (i + 1) (dda_step step deltaDist s) result1 ltac:(lia) Hmiss1)
        as [Hk|Hfound]; [left; by apply Hback | by right].
  - destruct (outside_grid U _); [left; by exists (i + 1)|].
    destruct (IH (i + 1) (dda_step step deltaDist s) result1 ltac:(lia) Hmiss1)
      as [Hk|Hfound]; [left; by apply Hback | by right].
Qed.

(** X17.  The result of [traceRay] has one of two shapes.  A miss leaves
    position, colour and distance unwritten and the normal zero, so only
    [hit] and [steps] of it mean anything; a hit has all of them written
    and was found in an iteration that was counted, so [steps] is at least
    1. *)
Theorem X17_traceRay_result_shape (U : uniforms) (origin direction : vec3) :
  let res := traceRay U origin direction in
  (hit res = false ∧ pos res = None ∧ color res = None ∧ distance res = None ∧
   normal res = vec3_of F32.zero) ∨
  (hit res = true ∧ 1 ≤ steps res ∧
   is_Some (pos res) ∧ is_Some (color res) ∧ is_Some (distance res)).
Proof.
  unfold traceRay. destruct (_ || _); [by left|].
  match goal with
  | |- context [traceRay_loop U ?n ?i ?o ?d ?st ?dd ?s ?r] =>
      destruct (traceRay_loop_shape U o d st dd n i s r ltac:(lia) eq_refl)
        as [[k Hk]|Hfound]
  end; [left | by right].
  cbv zeta. rewrite Hk. done.
Qed.

(* ===================================================================== *)
(** * Getting or creating a brick                                         *)
(* ===================================================================== *)

(** X18.  [_getOrCreateBrick] on a cell of the grid always returns a
    brick, never [null] (so the [!brick] exit of [setVoxel] is dead for
    in-bounds writes) and never throws; the coarse cell names the brick
    and the map holds it; a second call returns the same brick and changes
    nothing; at most one brick is added and no [getVoxel] result
    changes. *)
Theorem X18_getOrCreateBrick_idempotent (w : BrickMapWorld) (cx cy cz : Z) :
  reachable w → small w → 0 < brickSize w →
  0 ≤ cx < coarseSize w → 0 ≤ cy < coarseSize w → 0 ≤ cz < coarseSize w →
  ∃ k w1,
    _getOrCreateBrick cx cy cz w = Normal (Some k) w1 ∧
    1 ≤ k ∧ cell w1 (_getCoarseIndex w cx cy cz) = Some k ∧
    is_Some (JsMap.get (bricks w1) k) ∧
    _getOrCreateBrick cx cy cz w1 = Normal (Some k) w1 ∧
    brickCount w ≤ brickCount w1 ≤ brickCount w + 1 ∧
    ∀ x y z, read w1 x y z = read w x y z.
Proof.
  intros Hreach Hsmall HB Hcx Hcy Hcz.
  pose proof (reachable_wf w Hreach Hsmall) as Hwf.
  set (x := cx * brickSize w). set (y := cy * brickSize w). set (z := cz * brickSize w).
  assert (in_world w x y z) as Hin.
  { unfold in_world. rewrite (wf_worldSize w Hwf). subst x y z. nia. }
  assert (x / brickSize w = cx ∧ y / brickSize w = cy ∧ z / brickSize w = cz)
    as (Hx & Hy & Hz) by (subst x y z; rewrite !Z.div_mul by lia; done).
  assert (coarse_index_of w x y z = _getCoarseIndex w cx cy cz) as Hc.
  { unfold coarse_index_of, _worldToCoarse. by rewrite Hx, Hy, Hz. }
  pose proof (coarse_index_of_range w Hwf x y z Hin) as Hrange.
  pose proof (wf_next w Hwf) as Hnext.
  destruct (getOrCreateBrick_cases w Hwf x y z Hin) as [[Hcell Hret]|(k & Hcell & Hk & Hret)];
    rewrite Hx, Hy, Hz in Hret; rewrite Hc in *.
  - set (c := _getCoarseIndex w cx cy cz) in *.
    pose proof (wf_allocated w Hwf c Hrange Hcell) as Hwf1.
    assert (cell (allocated w c) c = Some (nextBrickIndex w)) as Hcell1.
    { rewrite (cell_allocated w Hwf c c Hrange Hcell). by rewrite decide_True. }
    exists (nextBrickIndex w), (allocated w c).
    split; [done|]. split; [done|]. split; [done|]. split.
    { apply (wf_cell_brick _ Hwf1 c); [done|lia]. }
    split.
    { assert (in_world (allocated w c) x y z) as Hin1 by (by apply in_world_allocated).
      destruct (getOrCreateBrick_cases _ Hwf1 x y z Hin1)
        as [[Hcell' _]|(k' & Hcell' & _ & Hret')].
      - change (coarse_index_of (allocated w c) x y z) with (coarse_index_of w x y z)
          in Hcell'.
        rewrite Hc, Hcell1 in Hcell'. injection Hcell' as ?. lia.
      - change (coarse_index_of (allocated w c) x y z) with (coarse_index_of w x y z)
          in Hcell'.
        rewrite Hc, Hcell1 in Hcell'. injection Hcell' as <-.
        change (brickSize (allocated w c)) with (brickSize w) in Hret'.
        by rewrite Hx, Hy, Hz in Hret'. }
    split; [simpl; lia|].
    intros x' y' z'. destruct (decide (in_world w x' y' z')) as [Hin'|Hout].
    + by apply read_allocated.
    + rewrite (read_outside w) by done. apply read_outside.
      by rewrite in_world_allocated.
  - exists k, w. split; [done|].
    pose proof (wf_cell_lt w Hwf _ _ Hcell).
    split; [lia|]. split; [done|]. split.
    { by apply (wf_cell_brick w Hwf _ _ Hcell). }
    split; [done|]. split; [lia|done].
Qed.

Lemma X18_getOrCreateBrick_idempotent_witness :
  let w := mkWorld 2 8 16 (TypedArray.mk 32 8 ∅) JsMap.empty 1 64 None 0 0 in
  ∃ k w1,
    _getOrCreateBrick 1 0 1 w = Normal (Some k) w1 ∧
    1 ≤ k ∧ cell w1 (_getCoarseIndex w 1 0 1) = Some k ∧
    is_Some (JsMap.get (bricks w1) k) ∧
    _getOrCreateBrick 1 0 1 w1 = Normal (Some k) w1 ∧
    brickCount w ≤ brickCount w1 ≤ brickCount w + 1 ∧
    ∀ x y z, read w1 x y z = read w x y z.
Proof.
  intros w. apply (X18_getOrCreateBrick_idempotent w 1 0 1).
  - apply (reachable_constructed 2 8). reflexivity.
  - unfold small. simpl. lia.
  - simpl. lia.
  - simpl. lia.
  - simpl. lia.
  - simpl. lia.
Defined.

(* ===================================================================== *)
(** * The unused part of the atlas                                        *)
(* ===================================================================== *)

Lemma get_stores_other ws atlas p :
  (∀ e, (p, e) ∉ ws) →
  TypedArray.get (fold_left atlas_store ws atlas) p = TypedArray.get atlas p.
Proof.
  induction ws as [|[i e] ws IH] using rev_ind; [done|].
  intros Hno. rewrite fold_left_app. simpl.
  unfold atlas_store at 1, TypedArray.set_js. simpl.
  rewrite ta_get_set_ne.
  - apply IH. intros e' He'. apply (Hno e'). apply elem_of_app. by left.
  - intros ->. apply (Hno e). apply elem_of_app. right. left.
Qed.

(** X19.  [buildAtlas] writes only the slots of the bricks in the map: the
    record at any position of the slot of a brick index that has not been
    handed out (and is within the atlas capacity) is (0, 0, 0, 0), whatever
    an earlier atlas held there. *)
Theorem X19_atlas_blank_beyond_bricks (w : BrickMapWorld) (k lx ly lz : Z) :
  reachable w → small w → 0 < brickSize w →
  nextBrickIndex w ≤ k ≤ atlasSize w * atlasSize w * atlasSize w →
  0 ≤ lx < brickSize w → 0 ≤ ly < brickSize w → 0 ≤ lz < brickSize w →
  ∃ atlas w', buildAtlas w = Normal atlas w' ∧
    atlas_record atlas (atlasSize w * brickSize w)
                 (atlas_coord (atlasSize w) (brickSize w) k lx ly lz) = zero_voxel.
Proof.
  intros Hreach Hsmall HB Hk Hlx Hly Hlz.
  pose proof (reachable_wf w Hreach Hsmall) as Hwf.
  pose proof (wf_atlasSize w Hwf) as HA. pose proof (wf_next w Hwf) as Hnext.
  assert (0 < atlasSize w) as HA0 by lia.
  exists (built_atlas w), (set_brickAtlasData (Some (built_atlas w)) w).
  split; [apply buildAtlas_built; lia|].
  assert (∀ c, 0 ≤ c < 4 →
    TypedArray.get (built_atlas w)
      (atlas_dst (brickSize w) (atlasSize w * brickSize w)
         ((k - 1) mod atlasSize w) (((k - 1) / atlasSize w) mod atlasSize w)
         ((k - 1) / (atlasSize w * atlasSize w)) lz ly lx + c) = Some 0) as Hget.
  { intros c Hc. unfold built_atlas. rewrite get_stores_other.
    - apply ta_get_fresh. apply atlas_dst_range; (done || lia).
    - intros e ([k' brick'] & Hin & Hentry)%list_elem_of_bind.
      apply elem_of_brick_stores in Hin
        as (lz' & ly' & lx' & c' & Hlz' & Hly' & Hlx' & Hc' & Hp & _). simpl in Hp.
      assert (k' ∈ JsMap.keys (bricks w)) as Hkey.
      { unfold JsMap.keys. apply list_elem_of_fmap. by exists (k', brick'). }
      pose proof (wf_keys_range w Hwf k' Hkey) as Hk'.
      assert (0 ≤ (k' - 1) / atlasSize w) by (apply Z.div_pos; lia).
      rewrite !Z.rem_mod_nonneg in Hp by lia.
      apply atlas_dst_inj in Hp as (-> & _); (done || lia). }
  unfold atlas_record, atlas_coord, voxel_of_brick, zero_voxel.
  unfold atlas_dst in Hget.
  pose proof (Hget 0 ltac:(lia)) as H0. rewrite Z.add_0_r in H0.
  rewrite H0, (Hget 1), (Hget 2), (Hget 3) by lia. done.
Qed.

Lemma X19_atlas_blank_beyond_bricks_witness :
  ∃ w, run [CallSetVoxel 9 3 15 93 64 55 255]
           (mkWorld 2 8 16 (TypedArray.mk 32 8 ∅) JsMap.empty 1 64 None 0 0)
       = Normal tt w ∧
  ∃ atlas w', buildAtlas w = Normal atlas w' ∧
    atlas_record atlas (atlasSize w * brickSize w)
                 (atlas_coord (atlasSize w) (brickSize w) 2 1 3 7) = zero_voxel.
Proof.
  eexists. split; [vm_compute; reflexivity|].
  apply X19_atlas_blank_beyond_bricks.
  - exists 2, 8, (mkWorld 2 8 16 (TypedArray.mk 32 8 ∅) JsMap.empty 1 64 None 0 0),
      [CallSetVoxel 9 3 15 93 64 55 255].
    split; [reflexivity | vm_compute; reflexivity].
  - unfold small. simpl. lia.
  - simpl. lia.
  - simpl. lia.
  - simpl. lia.
  - simpl. lia.
  - simpl. lia.
Defined.

(* ===================================================================== *)
(** * Voxel addresses                                                     *)
(* ===================================================================== *)

(** X20.  The address arithmetic splits a voxel coordinate without loss:
    for a coordinate of the world, each component is its coarse component
    times [brickSize] plus its local component, the local components lie
    in [0, brickSize) and the coarse ones in [0, coarseSize); the coarse
    index is a cell of the grid, the local index is the start of a 4-byte
    record inside a brick, and the two indices together determine the
    coordinate. *)
Theorem X20_voxel_address (w : BrickMapWorld) (x y z x' y' z' : Z) :
  reachable w → small w → in_world w x y z → in_world w x' y' z' →
  let '(cx, cy, cz) := _worldToCoarse w x y z in
  let '(lx, ly, lz) := _worldToLocal w x y z in
  (x = cx * brickSize w + lx ∧ y = cy * brickSize w + ly ∧ z = cz * brickSize w + lz) ∧
  (0 ≤ lx < brickSize w ∧ 0 ≤ ly < brickSize w ∧ 0 ≤ lz < brickSize w) ∧
  (0 ≤ cx < coarseSize w ∧ 0 ≤ cy < coarseSize w ∧ 0 ≤ cz < coarseSize w) ∧
  0 ≤ _getCoarseIndex w cx cy cz < coarseSize w * coarseSize w * coarseSize w ∧
  (0 ≤ _getBrickLocalIndex w lx ly lz ∧
   _getBrickLocalIndex w lx ly lz + 3 < brickSize w * brickSize w * brickSize w * 4 ∧
   _getBrickLocalIndex w lx ly lz mod 4 = 0) ∧
  (coarse_index_of w x y z = coarse_index_of w x' y' z' →
   local_index_of w x y z = local_index_of w x' y' z' →
   x = x' ∧ y = y' ∧ z = z').
Proof.
  intros Hreach Hsmall Hin Hin'. pose proof (reachable_wf w Hreach Hsmall) as Hwf.
  destruct (in_world_sizes w Hwf _ _ _ Hin) as [HB HC].
  pose proof (coarse_index_of_range w Hwf _ _ _ Hin) as Hc.
  pose proof (local_index_of_range w Hwf _ _ _ Hin) as Hl.
  unfold coarse_index_of, local_index_of, cells_of, brick_bytes in Hc, Hl.
  unfold _worldToCoarse, _worldToLocal in *.
  destruct Hin as (Hx & Hy & Hz).
  pose proof (coarse_digit w Hwf x HB Hx). pose proof (coarse_digit w Hwf y HB Hy).
  pose proof (coarse_digit w Hwf z HB Hz).
  rewrite !Z.rem_mod_nonneg in * by lia.
  pose proof (Z.mod_pos_bound x _ HB). pose proof (Z.mod_pos_bound y _ HB).
  pose proof (Z.mod_pos_bound z _ HB).
  split; [|split; [done|split; [done|split; [done|split; [done|]]]]].
  - rewrite !(Z.mul_comm _ (brickSize w)).
    split; [|split]; apply Z.div_mod; lia.
  - apply (voxel_address_inj w Hwf); done.
Qed.

Lemma X20_voxel_address_witness :
  let w := mkWorld 2 8 16 (TypedArray.mk 32 8 ∅) JsMap.empty 1 64 None 0 0 in
  let '(cx, cy, cz) := _worldToCoarse w 9 3 15 in
  let '(lx, ly, lz) := _worldToLocal w 9 3 15 in
  (9 = cx * brickSize w + lx ∧ 3 = cy * brickSize w + ly ∧ 15 = cz * brickSize w + lz) ∧
  (0 ≤ lx < brickSize w ∧ 0 ≤ ly < brickSize w ∧ 0 ≤ lz < brickSize w) ∧
  (0 ≤ cx < coarseSize w ∧ 0 ≤ cy < coarseSize w ∧ 0 ≤ cz < coarseSize w) ∧
  0 ≤ _getCoarseIndex w cx cy cz < coarseSize w * coarseSize w * coarseSize w ∧
  (0 ≤ _getBrickLocalIndex w lx ly lz ∧
   _getBrickLocalIndex w lx ly lz + 3 < brickSize w * brickSize w * brickSize w * 4 ∧
   _getBrickLocalIndex w lx ly lz mod 4 = 0) ∧
  (coarse_index_of w 9 3 15 = coarse_index_of w 1 3 15 →
   local_index_of w 9 3 15 = local_index_of w 1 3 15 →
   9 = 1 ∧ 3 = 3 ∧ 15 = 15).
Proof.
  intros w. apply (X20_voxel_address w 9 3 15 1 3 15).
  - apply (reachable_constructed 2 8). reflexivity.
  - unfold small. simpl. lia.
  - unfold in_world. simpl. lia.
  - unfold in_world. simpl. lia.
Defined.
(* ===================================================================== *)
(** * The dense world of [src/engine.js]                                  *)
(* ===================================================================== *)

Section Dense.

Import VoxelWorld.

Lemma dense_out_of_bounds_false w x y z :
  out_of_bounds w x y z = false ↔ in_bounds w x y z.
Proof.
  unfold out_of_bounds, in_bounds. split.
  - intros H. repeat (apply orb_false_elim in H as [H ?]).
    repeat match goal with
           | H : (_ >=? _) = false |- _ => rewrite Z.geb_leb in H; apply Z.leb_gt in H
           | H : (_ <? _) = false |- _ => apply Z.ltb_ge in H
           end. lia.
  - intros H. bool_lia; done.
Qed.

Lemma dense_out_of_bounds_true w x y z :
  out_of_bounds w x y z = true ↔ ¬ in_bounds w x y z.
Proof.
  rewrite <- dense_out_of_bounds_false. by destruct (out_of_bounds w x y z).
Qed.

Lemma dense_index_range w x y z :
  shaped w → in_bounds w x y z →
  0 ≤ index w x y z ∧ index w x y z + 3 < TypedArray.length (data w) ∧
  index w x y z mod 4 = 0.
Proof.
  intros (HS & _ & Hlen) (Hx & Hy & Hz). unfold index. rewrite Hlen.
  pose proof (digits3_range (size w) x y z Hx Hy Hz). lia.
Qed.

Lemma dense_index_inj w x y z x' y' z' c c' :
  in_bounds w x y z → in_bounds w x' y' z' → 0 ≤ c < 4 → 0 ≤ c' < 4 →
  index w x y z + c = index w x' y' z' + c' →
  x = x' ∧ y = y' ∧ z = z' ∧ c = c'.
Proof.
  intros (Hx & Hy & Hz) (Hx' & Hy' & Hz') Hc Hc'. unfold index. intros Heq.
  assert (x + y * size w + z * size w * size w = x' + y' * size w + z' * size w * size w
          ∧ c = c') as [Hidx ->] by lia.
  destruct (digits3_unique (size w) x y z x' y' z' Hx Hy Hx' Hy' Hidx) as (-> & -> & ->).
  done.
Qed.

Lemma dense_setVoxel_store4 w x y z r g b a :
  in_bounds w x y z →
  setVoxel x y z r g b a w =
    (true, mk (size w) (store4 (index w x y z) r g b a (data w)) (voxelCount w)).
Proof.
  intros Hin. unfold setVoxel.
  by rewrite (proj2 (dense_out_of_bounds_false w x y z) Hin).
Qed.

Lemma dense_setVoxel_outside w x y z r g b a :
  ¬ in_bounds w x y z → setVoxel x y z r g b a w = (false, w).
Proof.
  intros Hout. unfold setVoxel.
  by rewrite (proj2 (dense_out_of_bounds_true w x y z) Hout).
Qed.

Lemma dense_getVoxel_outside w x y z : ¬ in_bounds w x y z → getVoxel x y z w = None.
Proof.
  intros Hout. unfold getVoxel.
  by rewrite (proj2 (dense_out_of_bounds_true w x y z) Hout).
Qed.

(** What [getVoxel] returns after an in-bounds [setVoxel]. *)
Lemma dense_get_set w x y z r g b a x' y' z' :
  shaped w → in_bounds w x y z →
  getVoxel x' y' z' (setVoxel x y z r g b a w).2 =
    if decide (x' = x ∧ y' = y ∧ z' = z) then Some (stored_voxel r g b a)
    else getVoxel x' y' z' w.
Proof.
  intros Hshape Hin. rewrite dense_setVoxel_store4 by done. cbn [snd].
  destruct (dense_index_range w x y z Hshape Hin) as (Hi0 & Hi3 & _).
  destruct Hshape as (_ & Hbits & _).
  unfold getVoxel, out_of_bounds, index. cbn [size data].
  fold (out_of_bounds w x' y' z'). fold (index w x' y' z') (index w x y z).
  destruct (out_of_bounds w x' y' z') eqn:Hout.
  { rewrite decide_False; [done|]. intros (-> & -> & ->).
    apply dense_out_of_bounds_true in Hout. done. }
  apply dense_out_of_bounds_false in Hout.
  rewrite !get_store4 by lia. rewrite Hbits. change (2 ^ 8) with 256.
  destruct (decide (x' = x ∧ y' = y ∧ z' = z)) as [Hsame|Hsame].
  - destruct Hsame as (-> & -> & ->).
    repeat first [rewrite decide_True by lia | rewrite decide_False by lia]. done.
  - assert (∀ c c', 0 ≤ c < 4 → 0 ≤ c' < 4 →
              index w x' y' z' + c' ≠ index w x y z + c) as Hne.
    { intros c c' Hc Hc' Heq.
      apply dense_index_inj in Heq as (-> & -> & -> & _); [|done..].
      by apply Hsame. }
    pose proof (Hne 0 0 ltac:(lia) ltac:(lia)). pose proof (Hne 1 0 ltac:(lia) ltac:(lia)).
    pose proof (Hne 2 0 ltac:(lia) ltac:(lia)). pose proof (Hne 3 0 ltac:(lia) ltac:(lia)).
    pose proof (Hne 0 1 ltac:(lia) ltac:(lia)). pose proof (Hne 1 1 ltac:(lia) ltac:(lia)).
    pose proof (Hne 2 1 ltac:(lia) ltac:(lia)). pose proof (Hne 3 1 ltac:(lia) ltac:(lia)).
    pose proof (Hne 0 2 ltac:(lia) ltac:(lia)). pose proof (Hne 1 2 ltac:(lia) ltac:(lia)).
    pose proof (Hne 2 2 ltac:(lia) ltac:(lia)). pose proof (Hne 3 2 ltac:(lia) ltac:(lia)).
    pose proof (Hne 0 3 ltac:(lia) ltac:(lia)). pose proof (Hne 1 3 ltac:(lia) ltac:(lia)).
    pose proof (Hne 2 3 ltac:(lia) ltac:(lia)). pose proof (Hne 3 3 ltac:(lia) ltac:(lia)).
    repeat first [rewrite decide_True by lia | rewrite decide_False by lia]. done.
Qed.

Lemma dense_count_set w x y z r g b a :
  shaped w → in_bounds w x y z →
  (countVoxels (setVoxel x y z r g b a w).2).1 =
    (countVoxels w).1
    - Z_of_bool (positive (TypedArray.get (data w) (index w x y z + 3)))
    + Z_of_bool (0 <? a mod 256).
Proof.
  intros Hshape Hin. rewrite dense_setVoxel_store4 by done.
  destruct (dense_index_range w x y z Hshape Hin) as (Hi0 & Hi3 & Hi4).
  destruct Hshape as (_ & Hbits & _).
  unfold countVoxels. cbn [fst snd data]. by apply count_brick_store4.
Qed.

Lemma shaped_constructor n w : constructor n = Some w → shaped w ∧ size w = n.
Proof.
  unfold constructor. destruct (TypedArray.alloc 8 _) as [d|] eqn:Halloc; [|done].
  apply ta_alloc_Some in Halloc as [Hlen ->]. intros [= <-].
  split; [|done]. unfold shaped. cbn [size data TypedArray.bits TypedArray.length].
  split; [nia|done].
Qed.

Lemma shaped_exec c w w' : shaped w → exec c w = Some w' → shaped w'.
Proof.
  intros Hshape. destruct c as [x y z r g b a|x y z|x y z| | |n]; simpl.
  - intros [= <-]. destruct (decide (in_bounds w x y z)).
    + rewrite dense_setVoxel_store4 by done. unfold shaped in *. cbn [snd size data].
      by rewrite length_store4, bits_store4.
    + by rewrite dense_setVoxel_outside.
  - by intros [= <-].
  - intros [= <-]. unfold removeVoxel. destruct (decide (in_bounds w x y z)).
    + rewrite dense_setVoxel_store4 by done. unfold shaped in *. cbn [snd size data].
      by rewrite length_store4, bits_store4.
    + by rewrite dense_setVoxel_outside.
  - by intros [= <-].
  - by intros [= <-].
  - intros Hres. apply (shaped_constructor n). exact Hres.
Qed.

Lemma shaped_run cs : ∀ w w', shaped w → run cs w = Some w' → shaped w'.
Proof.
  induction cs as [|c cs IH]; intros w w' Hshape; simpl; [by intros [= <-]|].
  destruct (exec c w) as [w1|] eqn:Hexec; [|done].
  apply IH. by apply (shaped_exec c w).
Qed.

Lemma shaped_reachable w : reachable w → shaped w.
Proof.
  intros (n & w0 & cs & Hnew & Hrun).
  apply (shaped_run cs w0); [|done]. by apply (shaped_constructor n).
Qed.

Lemma dense_getVoxel_blank w x y z :
  shaped w → in_bounds w x y z → TypedArray.data (data w) = ∅ →
  getVoxel x y z w = Some zero_voxel.
Proof.
  intros Hshape Hin Hempty.
  destruct (dense_index_range w x y z Hshape Hin) as (Hi0 & Hi3 & _).
  unfold getVoxel. rewrite (proj2 (dense_out_of_bounds_false w x y z) Hin).
  destruct (data w) as [bits len d]. simpl in *. subst d.
  rewrite !ta_get_fresh by lia. done.
Qed.

Lemma dense_run_app cs1 cs2 w :
  run (cs1 ++ cs2) w =
    match run cs1 w with
    | Some w1 => run cs2 w1
    | None => None
    end.
Proof.
  revert w. induction cs1 as [|c cs1 IH]; intros w; simpl; [done|].
  destruct (exec c w); [apply IH|done].
Qed.

End Dense.

(** X21.  The dense world stores and returns voxels like the brick map:
    an in-bounds [setVoxel] returns true and afterwards [getVoxel] returns
    the four channels modulo 256 at that coordinate and what it returned
    before everywhere else; at a coordinate outside [0, size)^3 [setVoxel]
    returns false and changes nothing, and [getVoxel] returns [null]. *)
Theorem X21_dense_set_get (w : VoxelWorld.t) (x y z r g b a : Z) :
  VoxelWorld.reachable w →
  (VoxelWorld.in_bounds w x y z →
   (VoxelWorld.setVoxel x y z r g b a w).1 = true ∧
   ∀ x' y' z',
     VoxelWorld.getVoxel x' y' z' (VoxelWorld.setVoxel x y z r g b a w).2 =
       if decide (x' = x ∧ y' = y ∧ z' = z)
       then Some (Voxel.mk (Some (r mod 256)) (Some (g mod 256))
                           (Some (b mod 256)) (Some (a mod 256)))
       else VoxelWorld.getVoxel x' y' z' w) ∧
  (¬ VoxelWorld.in_bounds w x y z →
   VoxelWorld.setVoxel x y z r g b a w = (false, w) ∧
   VoxelWorld.getVoxel x y z w = None).
Proof.
  intros Hreach. pose proof (shaped_reachable w Hreach) as Hshape. split.
  - intros Hin. split; [by rewrite dense_setVoxel_store4|].
    intros x' y' z'. by rewrite dense_get_set.
  - intros Hout. split; [by apply dense_setVoxel_outside|].
    by apply dense_getVoxel_outside.
Qed.

Lemma X21_dense_set_get_witness :
  ∃ w, VoxelWorld.constructor 16 = Some w ∧
  (VoxelWorld.in_bounds w 9 3 15 →
   (VoxelWorld.setVoxel 9 3 15 256 (-1) 511 1000 w).1 = true ∧
   ∀ x' y' z',
     VoxelWorld.getVoxel x' y' z' (VoxelWorld.setVoxel 9 3 15 256 (-1) 511 1000 w).2 =
       if decide (x' = 9 ∧ y' = 3 ∧ z' = 15)
       then Some (Voxel.mk (Some (256 mod 256)) (Some (-1 mod 256))
                           (Some (511 mod 256)) (Some (1000 mod 256)))
       else VoxelWorld.getVoxel x' y' z' w) ∧
  (¬ VoxelWorld.in_bounds w 9 3 15 →
   VoxelWorld.setVoxel 9 3 15 256 (-1) 511 1000 w = (false, w) ∧
   VoxelWorld.getVoxel 9 3 15 w = None).
Proof.
  eexists. split; [reflexivity|].
  apply X21_dense_set_get.
  exists 16, (VoxelWorld.mk 16 (TypedArray.mk 8 16384 ∅) 0), [].
  split; reflexivity.
Defined.

(** X22.  [removeVoxel] erases one voxel: in bounds it returns true, the
    voxel then reads (0, 0, 0, 0), every other voxel reads as before, and
    [countVoxels] goes down by one exactly when the voxel had a positive
    alpha. *)
Theorem X22_dense_removeVoxel (w : VoxelWorld.t) (x y z : Z) :
  VoxelWorld.reachable w → VoxelWorld.in_bounds w x y z →
  ∃ v, VoxelWorld.getVoxel x y z w = Some v ∧
       (VoxelWorld.removeVoxel x y z w).1 = true ∧
       (∀ x' y' z',
          VoxelWorld.getVoxel x' y' z' (VoxelWorld.removeVoxel x y z w).2 =
            if decide (x' = x ∧ y' = y ∧ z' = z) then Some zero_voxel
            else VoxelWorld.getVoxel x' y' z' w) ∧
       (VoxelWorld.countVoxels (VoxelWorld.removeVoxel x y z w).2).1 =
         (VoxelWorld.countVoxels w).1 - Z_of_bool (positive (Voxel.a v)).
Proof.
  intros Hreach Hin. pose proof (shaped_reachable w Hreach) as Hshape.
  unfold VoxelWorld.removeVoxel. eexists. split.
  { unfold VoxelWorld.getVoxel.
    by rewrite (proj2 (dense_out_of_bounds_false w x y z) Hin). }
  split; [by rewrite dense_setVoxel_store4|]. split.
  - intros x' y' z'. by rewrite dense_get_set.
  - rewrite dense_count_set by done. cbn [Voxel.a]. simpl. lia.
Qed.

Lemma X22_dense_removeVoxel_witness :
  ∃ w, VoxelWorld.run [VoxelWorld.SetVoxel 1 0 1 9 8 7 255]
                      (VoxelWorld.mk 2 (TypedArray.mk 8 32 ∅) 0) = Some w ∧
  ∃ v, VoxelWorld.getVoxel 1 0 1 w = Some v ∧
       (VoxelWorld.removeVoxel 1 0 1 w).1 = true ∧
       (∀ x' y' z',
          VoxelWorld.getVoxel x' y' z' (VoxelWorld.removeVoxel 1 0 1 w).2 =
            if decide (x' = 1 ∧ y' = 0 ∧ z' = 1) then Some zero_voxel
            else VoxelWorld.getVoxel x' y' z' w) ∧
       (VoxelWorld.countVoxels (VoxelWorld.removeVoxel 1 0 1 w).2).1 =
         (VoxelWorld.countVoxels w).1 - Z_of_bool (positive (Voxel.a v)).
Proof.
  eexists. split; [vm_compute; reflexivity|].
  apply X22_dense_removeVoxel.
  - exists 2, (VoxelWorld.mk 2 (TypedArray.mk 8 32 ∅) 0), [VoxelWorld.SetVoxel 1 0 1 9 8 7 255].
    split; [reflexivity | vm_compute; reflexivity].
  - unfold VoxelWorld.in_bounds. simpl. lia.
Defined.

(** X23.  [resize] and [clear] discard every voxel: after [resize(n)]
    the world has size [n], after [clear()] it keeps its size, and in both
    cases every in-bounds voxel reads (0, 0, 0, 0) and [countVoxels] is 0;
    [resize] to a negative size throws. *)
Theorem X23_dense_resize_clear (w : VoxelWorld.t) (n : Z) :
  VoxelWorld.reachable w →
  (n < 0 → VoxelWorld.resize n w = None) ∧
  (∀ w', VoxelWorld.resize n w = Some w' →
     VoxelWorld.size w' = n ∧ (VoxelWorld.countVoxels w').1 = 0 ∧
     ∀ x y z, VoxelWorld.in_bounds w' x y z →
       VoxelWorld.getVoxel x y z w' = Some zero_voxel) ∧
  (VoxelWorld.size (VoxelWorld.clear w) = VoxelWorld.size w ∧
   (VoxelWorld.countVoxels (VoxelWorld.clear w)).1 = 0 ∧
   ∀ x y z, VoxelWorld.in_bounds w x y z →
     VoxelWorld.getVoxel x y z (VoxelWorld.clear w) = Some zero_voxel).
Proof.
  intros Hreach. pose proof (shaped_reachable w Hreach) as Hshape.
  split; [|split].
  - intros Hn. unfold VoxelWorld.resize, TypedArray.alloc.
    destruct (Z.ltb_spec (n * n * n * 4) 0); [done|nia].
  - intros w' Hres.
    destruct (shaped_constructor n w' Hres) as [Hshape' Hsize].
    unfold VoxelWorld.resize in Hres.
    destruct (TypedArray.alloc 8 _) as [d|] eqn:Halloc; [|done].
    apply ta_alloc_Some in Halloc as [_ ->]. injection Hres as <-.
    split; [done|]. split; [apply count_brick_fresh|].
    intros x y z Hin. by apply dense_getVoxel_blank.
  - destruct Hshape as (HS & Hbits & Hlen).
    split; [done|]. split.
    + unfold VoxelWorld.countVoxels, VoxelWorld.clear, TypedArray.fill_zero.
      cbn [fst VoxelWorld.data]. rewrite Hbits. apply count_brick_fresh.
    + intros x y z Hin. apply dense_getVoxel_blank; [|done|done].
      unfold VoxelWorld.shaped, VoxelWorld.clear, TypedArray.fill_zero. done.
Qed.

Lemma X23_dense_resize_clear_witness :
  ∃ w, VoxelWorld.run [VoxelWorld.SetVoxel 1 0 1 9 8 7 255]
                      (VoxelWorld.mk 2 (TypedArray.mk 8 32 ∅) 0) = Some w ∧
  (3 < 0 → VoxelWorld.resize 3 w = None) ∧
  (∀ w', VoxelWorld.resize 3 w = Some w' →
     VoxelWorld.size w' = 3 ∧ (VoxelWorld.countVoxels w').1 = 0 ∧
     ∀ x y z, VoxelWorld.in_bounds w' x y z →
       VoxelWorld.getVoxel x y z w' = Some zero_voxel) ∧
  (VoxelWorld.size (VoxelWorld.clear w) = VoxelWorld.size w ∧
   (VoxelWorld.countVoxels (VoxelWorld.clear w)).1 = 0 ∧
   ∀ x y z, VoxelWorld.in_bounds w x y z →
     VoxelWorld.getVoxel x y z (VoxelWorld.clear w) = Some zero_voxel).
Proof.
  eexists. split; [vm_compute; reflexivity|].
  apply X23_dense_resize_clear.
  exists 2, (VoxelWorld.mk 2 (TypedArray.mk 8 32 ∅) 0), [VoxelWorld.SetVoxel 1 0 1 9 8 7 255].
  split; [reflexivity | vm_compute; reflexivity].
Defined.
(* ===================================================================== *)
(** * The brick map behaves like the dense grid                           *)
(* ===================================================================== *)

Lemma exec_returns c w : wf w → 0 < brickSize w → ∃ w', exec c w = Normal tt w'.
Proof.
  intros Hwf HB. destruct c as [x y z r g b a|x y z| | |];
    unfold exec, mbind, method_bind, mret, method_ret.
  - destruct (decide (in_world w x y z)) as [Hin|Hout].
    + destruct (setVoxel_in_world w x y z r g b a Hwf Hin) as (w' & -> & _). by eexists.
    + rewrite setVoxel_out_of_world by done. by eexists.
  - rewrite getVoxel_read. by eexists.
  - by eexists.
  - by eexists.
  - rewrite buildAtlas_built; [by eexists|]. rewrite (wf_atlasSize w Hwf). lia.
Qed.

Lemma occupied_dense w d x y z :
  (∀ x y z, read w x y z = VoxelWorld.getVoxel x y z d) →
  VoxelWorld.in_bounds d x y z →
  occupied w x y z =
    positive (TypedArray.get (VoxelWorld.data d) (VoxelWorld.index d x y z + 3)).
Proof.
  intros Hread Hin. unfold occupied. rewrite Hread. unfold VoxelWorld.getVoxel.
  by rewrite (proj2 (dense_out_of_bounds_false d x y z) Hin).
Qed.

Lemma agree_bounds w d x y z :
  VoxelWorld.size d = worldSize w → (VoxelWorld.in_bounds d x y z ↔ in_world w x y z).
Proof. intros Hsize. unfold VoxelWorld.in_bounds, in_world. by rewrite Hsize. Qed.

(** One call keeps the two worlds in agreement. *)
Lemma agree_exec c w w' d :
  wf w → agree w d → exec c w = Normal tt w' →
  ∃ d', VoxelWorld.run (dense_call c) d = Some d' ∧ agree w' d'.
Proof.
  intros Hwf (Hsize & Hshape & Hread & Hcount) Hexec.
  destruct c as [x y z r g b a|x y z| | |];
    unfold exec, mbind, method_bind, mret, method_ret in Hexec.
  - exists (VoxelWorld.setVoxel x y z r g b a d).2. split; [done|].
    destruct (decide (in_world w x y z)) as [Hin|Hout].
    + pose proof (proj2 (agree_bounds w d x y z Hsize) Hin) as Hind.
      destruct (setVoxel_reads w x y z r g b a Hwf Hin) as (w1 & Hset & _ & Hsizes & Hread1).
      destruct (setVoxel_counted w x y z r g b a Hwf Hin) as (w2 & Hset2 & Hcount2).
      rewrite Hset in Hset2. injection Hset2 as <-.
      rewrite Hset in Hexec. injection Hexec as <-.
      destruct Hsizes as (_ & _ & HW).
      split; [|split; [|split]].
      * rewrite dense_setVoxel_store4 by done. cbn [snd VoxelWorld.size]. congruence.
      * by apply (shaped_exec (VoxelWorld.SetVoxel x y z r g b a) d).
      * intros x' y' z'. by rewrite Hread1, dense_get_set, Hread.
      * rewrite Hcount2, dense_count_set, Hcount by done.
        by rewrite (occupied_dense w d).
    + rewrite setVoxel_out_of_world in Hexec by done. injection Hexec as <-.
      rewrite dense_setVoxel_outside; [done|]. by rewrite agree_bounds.
  - rewrite getVoxel_read in Hexec. injection Hexec as <-. by exists d.
  - exists (VoxelWorld.clear d). split; [done|].
    destruct Hshape as (HS & Hbits & Hlen).
    assert (VoxelWorld.shaped (VoxelWorld.clear d)) as Hshape' by done.
    assert (worldSize w' = worldSize w) as HW by (by injection Hexec as <-).
    split; [|split; [|split]].
    * cbn [VoxelWorld.clear VoxelWorld.size]. congruence.
    * done.
    * intros x y z. destruct (decide (in_world w x y z)) as [Hin|Hout].
      -- rewrite (read_cleared w w' x y z Hwf Hin Hexec).
         symmetry. apply dense_getVoxel_blank; [done| |done].
         by apply (agree_bounds w d).
      -- rewrite read_outside by (unfold in_world in *; by rewrite HW).
         symmetry. apply dense_getVoxel_outside.
         intros Hin. apply Hout. by apply (agree_bounds w d).
    * injection Hexec as <-.
      unfold VoxelWorld.countVoxels, VoxelWorld.clear, TypedArray.fill_zero.
      cbn [fst VoxelWorld.data]. rewrite Hbits, count_brick_fresh. done.
  - exists (VoxelWorld.countVoxels d).2. split; [done|].
    unfold countVoxels in Hexec. injection Hexec as <-.
    split; [done|]. split; [done|]. split; [|done].
    intros x y z. rewrite read_set_voxelCount. apply Hread.
  - exists d. split; [done|].
    rewrite buildAtlas_stores in Hexec. cbn zeta in Hexec.
    destruct (TypedArray.alloc 8 _); [|done]. injection Hexec as <-.
    split; [done|]. split; [done|]. split; [|done].
    intros x y z. rewrite read_set_brickAtlasData. apply Hread.
Qed.

Lemma agree_run cs : ∀ w d,
  wf w → 0 < brickSize w → agree w d →
  ∃ w' d', run cs w = Normal tt w' ∧ VoxelWorld.run (dense_calls cs) d = Some d' ∧
           agree w' d'.
Proof.
  induction cs as [|c cs IH]; intros w d Hwf HB Hagree.
  - by exists w, d.
  - destruct (exec_returns c w Hwf HB) as [w1 Hexec].
    destruct (agree_exec c w w1 d Hwf Hagree Hexec) as (d1 & Hdense & Hagree1).
    pose proof (exec_wf c w w1 Hwf Hexec) as Hwf1.
    destruct (exec_sizes c w w1 Hexec) as (_ & HB1 & _).
    destruct (IH w1 d1 Hwf1 ltac:(lia) Hagree1) as (w' & d' & Hrun & Hdrun & Hagree').
    exists w', d'. split; [|split; [|done]].
    + simpl. unfold mbind, method_bind. by rewrite Hexec.
    + unfold dense_calls. cbn [mbind list_bind]. rewrite dense_run_app.
      by rewrite Hdense.
Qed.

Lemma agree_constructed C B w0 :
  constructor C B = Some w0 → small w0 → 0 < B →
  ∃ d0, VoxelWorld.constructor (C * B) = Some d0 ∧ agree w0 d0.
Proof.
  intros Hnew Hsmall HB.
  pose proof (constructor_wf C B w0 Hnew Hsmall) as Hwf.
  pose proof (wf_coarse w0 Hwf) as HC. pose proof (wf_worldSize w0 Hwf) as HW.
  pose proof Hnew as Hnew'. apply constructor_Some in Hnew' as [_ Hw0].
  assert (coarseSize w0 = C ∧ brickSize w0 = B) as [HC' HB'] by (by subst w0).
  assert (0 ≤ C * B * (C * B) * (C * B) * 4) as Hlen by nia.
  exists (VoxelWorld.mk (C * B) (TypedArray.mk 8 (C * B * (C * B) * (C * B) * 4) ∅) 0).
  split.
  { unfold VoxelWorld.constructor.
    by rewrite (proj2 (ta_alloc_Some 8 _ _) (conj Hlen eq_refl)). }
  assert (VoxelWorld.shaped
            (VoxelWorld.mk (C * B) (TypedArray.mk 8 (C * B * (C * B) * (C * B) * 4) ∅) 0))
    as Hshape.
  { unfold VoxelWorld.shaped. simpl. split; [nia|done]. }
  split; [simpl; congruence|]. split; [done|]. split.
  - intros x y z. destruct (decide (in_world w0 x y z)) as [Hin|Hout].
    + rewrite (read_constructed C B w0 x y z Hnew Hsmall Hin).
      symmetry. apply dense_getVoxel_blank; [done| |done].
      apply (agree_bounds w0); [simpl; congruence|done].
    + rewrite read_outside by done. symmetry. apply dense_getVoxel_outside.
      intros Hin. apply Hout. apply (agree_bounds w0) in Hin; [done|simpl; congruence].
  - unfold VoxelWorld.countVoxels. cbn [fst VoxelWorld.data].
    rewrite count_brick_fresh. by subst w0.
Qed.

(** X24.  The brick map is a faithful compression of the dense grid of
    [src/engine.js]: start a brick map of [C]^3 bricks of size [B] and a
    dense world of size [C * B], and make the same calls on both
    ([buildAtlas], which the dense world lacks, left out).  No call throws,
    and afterwards [getVoxel] returns the same value at every coordinate,
    in or out of bounds, and [countVoxels] returns the same number. *)
Theorem X24_brick_map_refines_dense (C B : Z) (w0 : BrickMapWorld) (cs : list call) :
  constructor C B = Some w0 → small w0 → 0 < B →
  ∃ d0 w d,
    VoxelWorld.constructor (C * B) = Some d0 ∧
    run cs w0 = Normal tt w ∧
    VoxelWorld.run (dense_calls cs) d0 = Some d ∧
    (∀ x y z, getVoxel x y z w = Normal (VoxelWorld.getVoxel x y z d) w) ∧
    returned (countVoxels w) = Some (VoxelWorld.countVoxels d).1.
Proof.
  intros Hnew Hsmall HB.
  destruct (agree_constructed C B w0 Hnew Hsmall HB) as (d0 & Hdense & Hagree).
  pose proof (constructor_wf C B w0 Hnew Hsmall) as Hwf.
  assert (0 < brickSize w0) as HB0.
  { apply constructor_Some in Hnew as [_ ->]. done. }
  destruct (agree_run cs w0 d0 Hwf HB0 Hagree)
    as (w & d & Hrun & Hdrun & _ & _ & Hread & Hcount).
  exists d0, w, d. split; [done|]. split; [done|]. split; [done|]. split.
  - intros x y z. by rewrite getVoxel_read, Hread.
  - rewrite <- Hcount. done.
Qed.

Lemma X24_brick_map_refines_dense_witness :
  let cs := [CallSetVoxel 9 3 15 93 64 55 255; CallSetVoxel 0 0 0 1 2 3 0;
             CallBuildAtlas; CallSetVoxel 9 3 15 1 1 1 0; CallSetVoxel 16 0 0 1 1 1 1;
             CallCountVoxels; CallSetVoxel 10 3 15 7 7 7 7] in
  let w0 := mkWorld 2 8 16 (TypedArray.mk 32 8 ∅) JsMap.empty 1 64 None 0 0 in
  ∃ d0 w d,
    VoxelWorld.constructor (2 * 8) = Some d0 ∧
    run cs w0 = Normal tt w ∧
    VoxelWorld.run (dense_calls cs) d0 = Some d ∧
    (∀ x y z, getVoxel x y z w = Normal (VoxelWorld.getVoxel x y z d) w) ∧
    returned (countVoxels w) = Some (VoxelWorld.countVoxels d).1.
Proof.
  intros cs w0. apply (X24_brick_map_refines_dense 2 8 w0 cs).
  - reflexivity.
  - unfold small. simpl. lia.
  - lia.
Defined.

(** ** What [countVoxels] counts *)

Lemma sum_indicator {A : Type} (g : A → Z) (f : A → bool) (l : list A) (n : Z) :
  (∀ j, j ∈ l → g j = Z_of_bool (f j)) →
  fold_left (λ n j, n + g j) l n
    = n + Z.of_nat (List.length (filter (λ j, f j = true) l)).
Proof.
  revert n. induction l as [|j l IH]; intros n Hg; simpl; [lia|].
  rewrite IH by (intros i Hi; apply Hg; by right).
  rewrite (Hg j) by left. rewrite filter_cons.
  case_decide as Hf.
  - rewrite Hf. simpl. lia.
  - destruct (f j); [done|]. simpl. lia.
Qed.

Lemma slot_voxel W j :
  0 < W → 0 ≤ j < W * W * W →
  let '(x, y, z) := voxel_of_slot W j in
  (0 ≤ x < W ∧ 0 ≤ y < W ∧ 0 ≤ z < W) ∧ x + y * W + z * W * W = j.
Proof.
  intros HW Hj. unfold voxel_of_slot.
  pose proof (Z.mod_pos_bound j W HW). pose proof (Z.mod_pos_bound (j / W) W HW).
  assert (j / (W * W) = j / W / W) as Hdiv by (rewrite Z.div_div; lia).
  assert (0 ≤ j / W < W * W) as Hq.
  { split; [apply Z.div_pos; lia|]. apply Z.div_lt_upper_bound; lia. }
  assert (0 ≤ j / W / W < W) as Hqq.
  { split; [apply Z.div_pos; lia|]. apply Z.div_lt_upper_bound; lia. }
  rewrite Hdiv. split; [done|].
  pose proof (Z.div_mod j W ltac:(lia)). pose proof (Z.div_mod (j / W) W ltac:(lia)). nia.
Qed.

Lemma counted_agree w d :
  agree w d → counted w = Z.of_nat (List.length (occupied_slots w)).
Proof.
  intros (Hsize & Hshape & Hread & Hcount). rewrite Hcount.
  pose proof Hshape as (HS & Hbits & Hlen).
  unfold VoxelWorld.countVoxels. cbn [fst]. rewrite count_brick_sum, Hlen.
  replace (VoxelWorld.size d * VoxelWorld.size d * VoxelWorld.size d * 4 / 4)
    with (worldSize w * worldSize w * worldSize w) by (rewrite Hsize; lia).
  unfold occupied_slots.
  rewrite (sum_indicator _ (occupied_slot w)); [lia|].
  intros j Hj. apply elem_of_seqZ in Hj. unfold occupied_slot.
  assert (0 < worldSize w) as HW by nia.
  pose proof (slot_voxel (worldSize w) j HW ltac:(lia)) as Hslot.
  destruct (voxel_of_slot (worldSize w) j) as [[x y] z].
  destruct Hslot as [Hin Hidx].
  rewrite (occupied_dense w d x y z Hread)
    by (unfold VoxelWorld.in_bounds; by rewrite Hsize).
  unfold VoxelWorld.index. rewrite Hsize, Hidx. do 3 f_equal. lia.
Qed.

(** X27.  [countVoxels] counts what [getVoxel] shows: in a world built by
    the constructor (positive brick size) and any calls, the number it
    returns is the number of voxels of the world for which [getVoxel]
    reports a positive alpha; the voxels are listed by slot, and every
    voxel of the world has exactly one slot. *)
Theorem X27_countVoxels_counts_occupied
    (C B : Z) (w0 w : BrickMapWorld) (cs : list call) :
  constructor C B = Some w0 → small w0 → 0 < B → run cs w0 = Normal tt w →
  (∃ w', countVoxels w = Normal (Z.of_nat (List.length (occupied_slots w))) w') ∧
  (∀ x y z, in_world w x y z →
     ∃ j, 0 ≤ j < worldSize w * worldSize w * worldSize w ∧
          voxel_of_slot (worldSize w) j = (x, y, z) ∧
          ∀ j', 0 ≤ j' < worldSize w * worldSize w * worldSize w →
                voxel_of_slot (worldSize w) j' = (x, y, z) → j' = j).
Proof.
  intros Hnew Hsmall HB Hrun.
  destruct (agree_constructed C B w0 Hnew Hsmall HB) as (d0 & _ & Hagree0).
  pose proof (constructor_wf C B w0 Hnew Hsmall) as Hwf0.
  assert (0 < brickSize w0) as HB0.
  { apply constructor_Some in Hnew as [_ ->]. done. }
  destruct (agree_run cs w0 d0 Hwf0 HB0 Hagree0) as (w1 & d & Hrun1 & _ & Hagree).
  rewrite Hrun in Hrun1. injection Hrun1 as <-.
  split.
  - eexists. unfold countVoxels. f_equal.
    rewrite <- (counted_agree w d Hagree). done.
  - intros x y z (Hx & Hy & Hz).
    assert (0 < worldSize w) as HW by lia.
    exists (x + y * worldSize w + z * worldSize w * worldSize w).
    pose proof (digits3_range (worldSize w) x y z Hx Hy Hz) as Hrange.
    split; [done|].
    assert (∀ j, 0 ≤ j < worldSize w * worldSize w * worldSize w →
                 voxel_of_slot (worldSize w) j = (x, y, z) →
                 j = x + y * worldSize w + z * worldSize w * worldSize w) as Huniq.
    { intros j Hj Hslot. pose proof (slot_voxel (worldSize w) j HW Hj) as Hj'.
      rewrite Hslot in Hj'. lia. }
    split; [|done].
    pose proof (slot_voxel (worldSize w) _ HW Hrange) as Hslot.
    destruct (voxel_of_slot (worldSize w) _) as [[x' y'] z'].
    destruct Hslot as [(Hx' & Hy' & Hz') Hidx].
    destruct (digits3_unique (worldSize w) x' y' z' x y z Hx' Hy' Hx Hy Hidx)
      as (-> & -> & ->). done.
Qed.

Lemma X27_countVoxels_counts_occupied_witness :
  let w0 := mkWorld 2 8 16 (TypedArray.mk 32 8 ∅) JsMap.empty 1 64 None 0 0 in
  ∃ w, run [CallSetVoxel 9 3 15 93 64 55 255; CallSetVoxel 0 0 0 1 2 3 0] w0
       = Normal tt w ∧
  (∃ w', countVoxels w = Normal (Z.of_nat (List.length (occupied_slots w))) w') ∧
  (∀ x y z, in_world w x y z →
     ∃ j, 0 ≤ j < worldSize w * worldSize w * worldSize w ∧
          voxel_of_slot (worldSize w) j = (x, y, z) ∧
          ∀ j', 0 ≤ j' < worldSize w * worldSize w * worldSize w →
                voxel_of_slot (worldSize w) j' = (x, y, z) → j' = j).
Proof.
  intros w0. eexists. split; [vm_compute; reflexivity|].
  apply (X27_countVoxels_counts_occupied 2 8 w0 _
           [CallSetVoxel 9 3 15 93 64 55 255; CallSetVoxel 0 0 0 1 2 3 0]).
  - reflexivity.
  - unfold small. simpl. lia.
  - lia.
  - vm_compute. reflexivity.
Defined.
(* ===================================================================== *)
(** * The single-level renderer of [src/engine.js]                        *)
(* ===================================================================== *)

Lemma dense_bytes_exec c w w' :
  VoxelWorld.shaped w →
  (∀ i v, TypedArray.get (VoxelWorld.data w) i = Some v → 0 ≤ v < 256) →
  VoxelWorld.exec c w = Some w' →
  ∀ i v, TypedArray.get (VoxelWorld.data w') i = Some v → 0 ≤ v < 256.
Proof.
  intros Hshape Hbytes. pose proof Hshape as (_ & Hbits & _).
  assert (∀ x y z r g b a i v,
    TypedArray.get (VoxelWorld.data (VoxelWorld.setVoxel x y z r g b a w).2) i = Some v →
    0 ≤ v < 256) as Hset.
  { intros x y z r g b a. destruct (decide (VoxelWorld.in_bounds w x y z)).
    - rewrite dense_setVoxel_store4 by done. cbn [snd VoxelWorld.data].
      by apply bytes_store4.
    - by rewrite dense_setVoxel_outside. }
  destruct c as [x y z r g b a|x y z|x y z| | |n]; simpl.
  - intros [= <-]. apply Hset.
  - by intros [= <-].
  - intros [= <-]. apply Hset.
  - intros [= <-] i v Hv. apply ta_get_fill_zero in Hv. lia.
  - by intros [= <-].
  - unfold VoxelWorld.resize. destruct (TypedArray.alloc 8 _) as [d|] eqn:Halloc; [|done].
    apply ta_alloc_Some in Halloc as [_ ->]. intros [= <-] i v Hv.
    apply ta_get_fresh_inv in Hv. lia.
Qed.

Lemma dense_bytes_run cs : ∀ w w',
  VoxelWorld.shaped w →
  (∀ i v, TypedArray.get (VoxelWorld.data w) i = Some v → 0 ≤ v < 256) →
  VoxelWorld.run cs w = Some w' →
  ∀ i v, TypedArray.get (VoxelWorld.data w') i = Some v → 0 ≤ v < 256.
Proof.
  induction cs as [|c cs IH]; intros w w' Hshape Hbytes; simpl; [by intros [= <-]|].
  destruct (VoxelWorld.exec c w) as [w1|] eqn:Hexec; [|done].
  apply IH; [by apply (shaped_exec c w)|]. by apply (dense_bytes_exec c w).
Qed.

Lemma dense_bytes_reachable w :
  VoxelWorld.reachable w →
  ∀ i v, TypedArray.get (VoxelWorld.data w) i = Some v → 0 ≤ v < 256.
Proof.
  intros (n & w0 & cs & Hnew & Hrun).
  destruct (shaped_constructor n w0 Hnew) as [Hshape _].
  apply (dense_bytes_run cs w0); [done| |done].
  unfold VoxelWorld.constructor in Hnew.
  destruct (TypedArray.alloc 8 _) as [d|] eqn:Halloc; [|done].
  apply ta_alloc_Some in Halloc as [_ ->]. injection Hnew as <-.
  intros i v Hv. apply ta_get_fresh_inv in Hv. lia.
Qed.

(** Iterations beyond the budget are not run: the loop that may run [n]
    iterations from counter [i] is the loop that may run only
    [u_maxSteps - i] of them. *)
Lemma single_loop_truncate U origin direction step deltaDist n : ∀ i s result,
  SingleLevel.traceRay_loop U n i origin direction step deltaDist s result =
  SingleLevel.traceRay_loop U (Nat.min n (Z.to_nat (SingleLevel.u_maxSteps U - i))) i
                            origin direction step deltaDist s result.
Proof.
  induction n as [|n IH]; intros i s result; [done|].
  destruct (Z.geb_spec i (SingleLevel.u_maxSteps U)) as [Hge|Hlt].
  - replace (Z.to_nat (SingleLevel.u_maxSteps U - i)) with O by lia. rewrite Nat.min_0_r.
    cbn [SingleLevel.traceRay_loop].
    by destruct (Z.geb_spec i (SingleLevel.u_maxSteps U)); [|lia].
  - replace (Z.to_nat (SingleLevel.u_maxSteps U - i))
      with (S (Z.to_nat (SingleLevel.u_maxSteps U - (i + 1)))) by lia.
    cbn [Nat.min SingleLevel.traceRay_loop].
    destruct (i >=? SingleLevel.u_maxSteps U); [done|].
    destruct (ca (SingleLevel.getVoxel U (mapPos s)) >? F32.zero)%f32; [done|].
    destruct (SingleLevel.outside_world U _); [done|]. apply IH.
Qed.

(** [steps] counts the iterations run: a loop entered at counter [i] with
    [steps = i] records between 0 and [n] iterations and returns the
    result that the recorded number of iterations produces. *)
Lemma single_loop_exact U origin direction step deltaDist n : ∀ i s result,
  steps result = i →
  let res := SingleLevel.traceRay_loop U n i origin direction step deltaDist s result in
  i ≤ steps res ≤ i + Z.of_nat n ∧
  SingleLevel.traceRay_loop U (Z.to_nat (steps res - i)) i origin direction
                            step deltaDist s result = res.
Proof.
  induction n as [|n IH]; intros i s result Hi; cbv zeta.
  { cbn [SingleLevel.traceRay_loop]. rewrite Hi. split; [lia|].
    by replace (Z.to_nat (i - i)) with O by lia. }
  cbn [SingleLevel.traceRay_loop].
  destruct (i >=? SingleLevel.u_maxSteps U) eqn:Hge.
  { rewrite Hi. split; [lia|]. by replace (Z.to_nat (i - i)) with O by lia. }
  assert (∀ k, i + 1 ≤ k →
            SingleLevel.traceRay_loop U (Z.to_nat (k - i)) i origin direction
                                      step deltaDist s result =
            if (ca (SingleLevel.getVoxel U (mapPos s)) >? F32.zero)%f32
            then SingleLevel.voxel_hit origin direction step s
                   (SingleLevel.getVoxel U (mapPos s)) (set_steps (i + 1) result)
            else if SingleLevel.outside_world U (mapPos (dda_step step deltaDist s))
            then set_steps (i + 1) result
            else SingleLevel.traceRay_loop U (Z.to_nat (k - (i + 1))) (i + 1)
                   origin direction step deltaDist (dda_step step deltaDist s)
                   (set_steps (i + 1) result)) as Hunfold.
  { intros k Hk.
    replace (Z.to_nat (k - i)) with (S (Z.to_nat (k - (i + 1)))) by lia.
    cbn [SingleLevel.traceRay_loop]. by rewrite Hge. }
  destruct (ca (SingleLevel.getVoxel U (mapPos s)) >? F32.zero)%f32 eqn:Hocc.
  { cbn [SingleLevel.voxel_hit steps set_steps]. split; [lia|].
    rewrite Hunfold by lia. by rewrite ?Hocc. }
  destruct (SingleLevel.outside_world U _) eqn:Hout.
  { cbn [steps set_steps]. split; [lia|].
    rewrite Hunfold by lia. by rewrite ?Hocc, ?Hout. }
  destruct (IH (i + 1) (dda_step step deltaDist s) (set_steps (i + 1) result) eq_refl)
    as [Hle Heq].
  split; [lia|]. rewrite Hunfold by lia. by rewrite ?Hocc, ?Hout.
Qed.

(** [traceRay_within] is the initial result for every bound, when the ray
    misses the box of the world, or the loop from one DDA state. *)
Lemma single_within_loop U origin direction :
  (∀ cap, SingleLevel.traceRay_within U cap origin direction =
          mkHit false None (vec3_of F32.zero) None None 0) ∨
  (∃ step deltaDist s, ∀ cap,
     SingleLevel.traceRay_within U cap origin direction =
     SingleLevel.traceRay_loop U cap 0 origin direction step deltaDist s
                               (mkHit false None (vec3_of F32.zero) None None 0)).
Proof.
  unfold SingleLevel.traceRay_within. destruct (_ || _); [by left|].
  right. eexists _, _, _. intros cap. reflexivity.
Qed.

Lemma single_is_within U origin direction :
  SingleLevel.traceRay U origin direction =
  SingleLevel.traceRay_within U (Z.to_nat 512) origin direction.
Proof. reflexivity. Qed.

(** The step budget of the single-level traversal: it is the traversal
    whose loop header allows max(0, min(u_maxSteps, 512)) iterations, and
    [steps] is the number of iterations run. *)
Lemma single_budget U origin direction :
  let res := SingleLevel.traceRay U origin direction in
  let budget := Z.max 0 (Z.min (SingleLevel.u_maxSteps U) 512) in
  res = SingleLevel.traceRay_within U (Z.to_nat budget) origin direction ∧
  0 ≤ steps res ≤ budget ∧
  res = SingleLevel.traceRay_within U (Z.to_nat (steps res)) origin direction ∧
  (∀ cap, SingleLevel.traceRay_within U cap origin direction = res →
          steps res ≤ Z.of_nat cap).
Proof.
  intros res budget. subst res. rewrite single_is_within.
  destruct (single_within_loop U origin direction)
    as [Hmiss|(step & deltaDist & s & Hloop)].
  - rewrite !Hmiss. cbn [steps]. split; [done|]. split; [lia|]. split; [done|]. lia.
  - set (r0 := mkHit false None (vec3_of F32.zero) None None 0) in *.
    assert (SingleLevel.traceRay_within U (Z.to_nat 512) origin direction =
            SingleLevel.traceRay_within U (Z.to_nat budget) origin direction) as Hcap.
    { rewrite !Hloop, single_loop_truncate. f_equal. subst budget. lia. }
    split; [done|].
    destruct (single_loop_exact U origin direction step deltaDist (Z.to_nat budget) 0 s r0
                eq_refl) as [Hle Heq].
    cbv zeta in Hle, Heq. rewrite <- (Hloop (Z.to_nat budget)) in Hle, Heq.
    rewrite <- Hloop, Z.sub_0_r in Heq. rewrite <- Hcap in Hle, Heq.
    split; [subst budget; lia|]. split; [done|].
    intros cap Hres. rewrite <- Hres, Hloop.
    destruct (single_loop_exact U origin direction step deltaDist cap 0 s r0 eq_refl)
      as [Hcount _]. cbv zeta in Hcount. lia.
Qed.

Section SingleLevelFacts.

Variable w : VoxelWorld.t.
Variable maxSteps : Z.
Variable U : SingleLevel.uniforms.
Hypothesis Hshape : VoxelWorld.shaped w.
Hypothesis Hsize : VoxelWorld.size w ≤ 2048.
Hypothesis HU : U = (SingleLevel.uploadWorld maxSteps w).1.

Lemma single_worldSize : int_of_float (SingleLevel.u_worldSize U) = VoxelWorld.size w.
Proof.
  destruct Hshape as (HS & _). rewrite HU. cbn [SingleLevel.uploadWorld fst
    SingleLevel.u_worldSize]. apply int_of_float_of_Z. lia.
Qed.

Lemma single_outside_world p :
  SingleLevel.outside_world U p = VoxelWorld.out_of_bounds w (ix p) (iy p) (iz p).
Proof. unfold SingleLevel.outside_world. by rewrite single_worldSize. Qed.

(** The shader's [getVoxel] is the world's [getVoxel] through the
    sampler. *)
Lemma single_getVoxel x y z :
  SingleLevel.getVoxel U (IVec3 x y z) =
    match VoxelWorld.getVoxel x y z w with
    | Some v => sampled v
    | None => Vec4 F32.zero F32.zero F32.zero F32.zero
    end.
Proof.
  destruct Hshape as (HS & Hbits & Hlen).
  unfold SingleLevel.getVoxel. rewrite single_worldSize. cbn [ix iy iz].
  destruct (decide (VoxelWorld.in_bounds w x y z)) as [Hin|Hout].
  - unfold VoxelWorld.getVoxel.
    rewrite (proj2 (dense_out_of_bounds_false w x y z) Hin).
    destruct Hin as (Hx & Hy & Hz).
    assert (((x <? 0) || (y <? 0) || (z <? 0) || (x >=? VoxelWorld.size w) ||
             (y >=? VoxelWorld.size w) || (z >=? VoxelWorld.size w)) = false) as ->.
    { bool_lia; done. }
    unfold texelFetch_rgba8, texel_inside, texel_offset. rewrite HU.
    cbn [SingleLevel.uploadWorld fst SingleLevel.u_voxelData ix iy iz
         tex_width tex_height tex_depth tex_data].
    assert (((0 <=? x) && (x <? VoxelWorld.size w) && (0 <=? y) && (y <? VoxelWorld.size w) &&
             (0 <=? z) && (z <? VoxelWorld.size w)) = true) as ->.
    { bool_lia; done. }
    unfold sampled, VoxelWorld.index. cbn [Voxel.r Voxel.g Voxel.b Voxel.a].
    by rewrite Z.add_0_r.
  - rewrite dense_getVoxel_outside by done.
    assert (((x <? 0) || (y <? 0) || (z <? 0) || (x >=? VoxelWorld.size w) ||
             (y >=? VoxelWorld.size w) || (z >=? VoxelWorld.size w)) = true) as ->; [|done].
    unfold VoxelWorld.in_bounds in Hout. bool_lia; done.
Qed.

Hypothesis Hbytes :
  ∀ i v, TypedArray.get (VoxelWorld.data w) i = Some v → 0 ≤ v < 256.

(** A texel with positive alpha that the shader fetches is an occupied
    voxel of the world. *)
Lemma single_occupied p :
  (ca (SingleLevel.getVoxel U p) >? F32.zero)%f32 = true →
  ∃ v, VoxelWorld.in_bounds w (ix p) (iy p) (iz p) ∧
       VoxelWorld.getVoxel (ix p) (iy p) (iz p) w = Some v ∧
       positive (Voxel.a v) = true ∧ SingleLevel.getVoxel U p = sampled v.
Proof.
  destruct p as [x y z]. cbn [ix iy iz]. rewrite single_getVoxel. intros Hocc.
  destruct (VoxelWorld.getVoxel x y z w) as [v|] eqn:Hv; [|done].
  exists v. split; [|split; [done|split; [|done]]].
  - destruct (decide (VoxelWorld.in_bounds w x y z)) as [|Hout]; [done|].
    by rewrite dense_getVoxel_outside in Hv.
  - unfold VoxelWorld.getVoxel in Hv.
    destruct (VoxelWorld.out_of_bounds w x y z) eqn:Hout; [done|].
    apply dense_out_of_bounds_false in Hout.
    destruct (dense_index_range w x y z Hshape Hout) as (Hi0 & Hi3 & _).
    destruct (proj2 (ta_get_is_Some (VoxelWorld.data w) (VoxelWorld.index w x y z + 3)))
      as [a Ha]; [lia|].
    pose proof (Hbytes _ _ Ha). injection Hv as <-.
    apply (sampled_alpha _ a); [done|lia|done].
Qed.

Lemma single_hit_fields origin direction step s voxel result :
  let res := SingleLevel.voxel_hit origin direction step s voxel result in
  hit res = true ∧ color res = Some voxel ∧
  pos res = Some (vec3_of_ivec3 (mapPos s)) ∧
  (∃ k, normal res = face_normal k step) ∧
  is_Some (distance res) ∧ steps res = steps result.
Proof.
  unfold SingleLevel.voxel_hit. cbn [hit color pos normal distance steps].
  split; [done|]. split; [done|]. split; [done|]. split; [|split; [|done]].
  - destruct (side s =? 0); [by exists AxisX|].
    destruct (side s =? 1); [by exists AxisY|]. by exists AxisZ.
  - destruct (side s =? 0); [done|]. destruct (side s =? 1); done.
Qed.

Lemma single_loop_shape origin direction step deltaDist n : ∀ i s result,
  0 ≤ i → hit result = false →
  let res := SingleLevel.traceRay_loop U n i origin direction step deltaDist s result in
  (res = result ∨
   ∃ k, res = set_steps k result ∧ i + 1 ≤ k ≤ Z.min maxSteps (i + Z.of_nat n)) ∨
  (∃ s' k, (ca (SingleLevel.getVoxel U (mapPos s')) >? F32.zero)%f32 = true ∧
           i + 1 ≤ k ≤ Z.min maxSteps (i + Z.of_nat n) ∧
           res = SingleLevel.voxel_hit origin direction step s'
                   (SingleLevel.getVoxel U (mapPos s')) (set_steps k result)).
Proof.
  induction n as [|n IH]; intros i s result Hi Hmiss; cbn [SingleLevel.traceRay_loop].
  { left. by left. }
  assert (SingleLevel.u_maxSteps U = maxSteps) as -> by (by rewrite HU).
  destruct (Z.geb_spec i maxSteps) as [Hge|Hlt]; [left; by left|].
  destruct (ca (SingleLevel.getVoxel U (mapPos s)) >? F32.zero)%f32 eqn:Hocc.
  { right. exists s, (i + 1). split; [done|]. split; [lia|done]. }
  destruct (SingleLevel.outside_world U _).
  { left. right. exists (i + 1). split; [done|lia]. }
  destruct (IH (i + 1) (dda_step step deltaDist s) (set_steps (i + 1) result)
              ltac:(lia) Hmiss) as [[Heq|(k & Heq & Hk)]|(s' & k & Hocc' & Hk & Heq)].
  - left. right. exists (i + 1). split; [done|lia].
  - left. right. exists k. split; [by rewrite Heq|lia].
  - right. exists s', k. split; [done|]. split; [lia|]. by rewrite Heq.
Qed.

Lemma single_shadow_cases step deltaDist n : ∀ s,
  SingleLevel.traceShadow_loop U n step deltaDist s = F32.one ∨
  (SingleLevel.traceShadow_loop U n step deltaDist s = f32_0_3 ∧
   ∃ p, (ca (SingleLevel.getVoxel U p) >? F32.zero)%f32 = true).
Proof.
  induction n as [|n IH]; intros s; cbn [SingleLevel.traceShadow_loop]; [by left|].
  destruct (SingleLevel.outside_world U _); [by left|].
  destruct (ca (SingleLevel.getVoxel U (mapPos s)) >? F32.zero)%f32 eqn:Hocc; [|apply IH].
  right. split; [done|]. by exists (mapPos s).
Qed.

End SingleLevelFacts.

(** X25.  The single-level renderer of [src/engine.js] keeps its step
    budget and reports no phantom.  For the uploaded dense world (size at
    most 2048), [traceRay] is the traversal whose loop header allows
    max(0, min(u_maxSteps, 512)) iterations, and [steps] is the number of
    iterations run: it lies between 0 and that bound, the traversal
    allowed exactly [steps] iterations returns the same result, and no
    traversal allowed fewer does.  A hit was found in a counted iteration
    at a voxel inside the world for which [getVoxel] returns a positive
    alpha, its colour is that record as the sampler presents it, its
    position the integer coordinate, its normal minus the step along one
    axis; a miss leaves position, colour and distance unwritten. *)
Theorem X25_single_level_hit_is_voxel
    (w : VoxelWorld.t) (maxSteps : Z) (origin direction : vec3) :
  VoxelWorld.reachable w → VoxelWorld.size w ≤ 2048 →
  let U := (SingleLevel.uploadWorld maxSteps w).1 in
  let res := SingleLevel.traceRay U origin direction in
  let budget := Z.max 0 (Z.min maxSteps 512) in
  res = SingleLevel.traceRay_within U (Z.to_nat budget) origin direction ∧
  0 ≤ steps res ≤ budget ∧
  res = SingleLevel.traceRay_within U (Z.to_nat (steps res)) origin direction ∧
  (∀ cap, SingleLevel.traceRay_within U cap origin direction = res →
          steps res ≤ Z.of_nat cap) ∧
  (hit res = true →
   ∃ x y z v k,
     VoxelWorld.in_bounds w x y z ∧ VoxelWorld.getVoxel x y z w = Some v ∧
     positive (Voxel.a v) = true ∧
     color res = Some (sampled v) ∧
     pos res = Some (vec3_of_ivec3 (IVec3 x y z)) ∧
     normal res = face_normal k (ivec3_of_vec3 (vsign direction)) ∧
     1 ≤ steps res) ∧
  (hit res = false → pos res = None ∧ color res = None ∧ distance res = None).
Proof.
  intros Hreach Hsize U res budget.
  destruct (single_budget U origin direction) as (Hcap & Hsteps & Hexact & Hleast).
  split; [exact Hcap|]. split; [exact Hsteps|]. split; [exact Hexact|].
  split; [exact Hleast|]. clear Hcap Hsteps Hexact Hleast.
  pose proof (shaped_reachable w Hreach) as Hshape.
  pose proof (dense_bytes_reachable w Hreach) as Hbytes.
  subst res. unfold SingleLevel.traceRay.
  destruct (_ || _); [cbn [steps hit pos color distance]; done|].
  match goal with
  | |- context [SingleLevel.traceRay_loop U ?n ?i ?o ?d ?st ?dd ?s ?r] =>
      destruct (single_loop_shape w maxSteps U eq_refl o d st dd n i s r
                  ltac:(lia) eq_refl)
        as [[Heq|(k & Heq & Hk)]|(s' & k & Hocc & Hk & Heq)];
      rewrite Heq
  end.
  - cbn [steps hit pos color distance]. done.
  - cbn [set_steps steps hit pos color distance]. done.
  - destruct (single_occupied w maxSteps U Hshape Hsize eq_refl Hbytes (mapPos s') Hocc)
      as (v & Hin & Hv & Hpos & Hsampled).
    match goal with
    | |- context [SingleLevel.voxel_hit ?o ?d ?st ?s0 ?vx ?r] =>
        destruct (single_hit_fields o d st s0 vx r)
          as (Hhit & Hcol & Hp & [ax Hnorm] & _ & Hsteps)
    end.
    rewrite Hhit, Hcol, Hp, Hnorm, Hsteps. cbn [set_steps steps].
    split; [|done]. intros _.
    exists (ix (mapPos s')), (iy (mapPos s')), (iz (mapPos s')), v, ax.
    split; [done|]. split; [done|]. split; [done|]. split; [by rewrite Hsampled|].
    split; [by destruct (mapPos s')|]. split; [done|lia].
Qed.

(** A dense world of 8^3 voxels with one voxel, at (1, 2, 5); the ray from
    (1.5, 2.5, -3) toward (0, 0, 1) reaches it in the sixth iteration.
    With a budget of 3 the traversal is the one whose loop allows 3
    iterations and returns no hit and 3 steps. *)
Lemma X25_single_level_hit_is_voxel_witness :
  let origin := Vec3 (F32.of_Z 1 + F32.half)%f32 (F32.of_Z 2 + F32.half)%f32 (F32.of_Z (-3)) in
  let direction := Vec3 F32.zero F32.zero F32.one in
  ∃ w, VoxelWorld.run [VoxelWorld.SetVoxel 1 2 5 9 8 7 255]
                      (VoxelWorld.mk 8 (TypedArray.mk 8 2048 ∅) 0) = Some w ∧
  (let U := (SingleLevel.uploadWorld 3 w).1 in
   let res := SingleLevel.traceRay U origin direction in
   res = SingleLevel.traceRay_within U 3 origin direction ∧
   steps res ≤ 3 ∧
   res = mkHit false None (vec3_of F32.zero) None None 3) ∧
  (let U := (SingleLevel.uploadWorld 256 w).1 in
   let res := SingleLevel.traceRay U origin direction in
   hit res = true ∧ steps res = 6 ∧
   ∃ x y z v k,
     VoxelWorld.in_bounds w x y z ∧ VoxelWorld.getVoxel x y z w = Some v ∧
     positive (Voxel.a v) = true ∧
     color res = Some (sampled v) ∧
     pos res = Some (vec3_of_ivec3 (IVec3 x y z)) ∧
     normal res = face_normal k (ivec3_of_vec3 (vsign direction)) ∧
     1 ≤ steps res).
Proof.
  intros origin direction.
  eexists. split; [vm_compute; reflexivity|].
  match goal with
  | |- context [SingleLevel.uploadWorld 3 ?w0] => set (w := w0)
  end.
  assert (VoxelWorld.reachable w) as Hreach.
  { exists 8, (VoxelWorld.mk 8 (TypedArray.mk 8 2048 ∅) 0), [VoxelWorld.SetVoxel 1 2 5 9 8 7 255].
    split; [reflexivity | vm_compute; reflexivity]. }
  split.
  - destruct (X25_single_level_hit_is_voxel _ 3 origin direction Hreach ltac:(simpl; lia))
      as (Hcap & _ & _ & Hleast & _).
    split; [exact Hcap|]. split; [|vm_compute; reflexivity].
    apply (Hleast 3%nat). vm_compute. reflexivity.
  - destruct (X25_single_level_hit_is_voxel _ 256 origin direction Hreach ltac:(simpl; lia))
      as (_ & _ & _ & _ & Hhit & _).
    assert (hit (SingleLevel.traceRay (SingleLevel.uploadWorld 256 w).1 origin direction)
            = true) as Hfound by (vm_compute; reflexivity).
    split; [exact Hfound|]. split; [vm_compute; reflexivity|]. exact (Hhit Hfound).
Defined.

(** X26.  The shadow ray of the single-level renderer answers 1.0 or 0.3
    and nothing else, and it answers 0.3 only if the uploaded dense world
    (size at most 2048) holds a voxel for which [getVoxel] returns a
    positive alpha; its start offset 0.01 is the float nearest to 1/100. *)
Theorem X26_single_level_shadow
    (w : VoxelWorld.t) (maxSteps : Z) (origin direction : vec3) :
  VoxelWorld.reachable w → VoxelWorld.size w ≤ 2048 →
  let U := (SingleLevel.uploadWorld maxSteps w).1 in
  let shadow := SingleLevel.traceShadow U origin direction in
  (shadow = F32.one ∨ shadow = f32_0_3) ∧
  (shadow = f32_0_3 →
   ∃ x y z v, VoxelWorld.in_bounds w x y z ∧ VoxelWorld.getVoxel x y z w = Some v ∧
              positive (Voxel.a v) = true) ∧
  f32_0_01 = (F32.one / F32.of_Z 100)%f32.
Proof.
  intros Hreach Hsize U shadow.
  pose proof (shaped_reachable w Hreach) as Hshape.
  pose proof (dense_bytes_reachable w Hreach) as Hbytes.
  subst shadow. unfold SingleLevel.traceShadow.
  match goal with
  | |- context [SingleLevel.traceShadow_loop U ?n ?st ?dd ?s] =>
      destruct (single_shadow_cases U st dd n s) as [Hlit|[Hdark [p Hocc]]]
  end.
  - rewrite Hlit. split; [by left|]. split; [discriminate|]. vm_compute. reflexivity.
  - rewrite Hdark. split; [by right|]. split; [|vm_compute; reflexivity]. intros _.
    destruct (single_occupied w maxSteps U Hshape Hsize eq_refl Hbytes p Hocc)
      as (v & Hin & Hv & Hpos & _).
    by exists (ix p), (iy p), (iz p), v.
Qed.

Lemma X26_single_level_shadow_witness :
  let origin := Vec3 (F32.of_Z 1) (F32.of_Z 0) (F32.of_Z 0) in
  let direction := Vec3 F32.zero F32.zero F32.one in
  ∃ w, VoxelWorld.run [VoxelWorld.SetVoxel 1 0 1 9 8 7 255]
                      (VoxelWorld.mk 2 (TypedArray.mk 8 32 ∅) 0) = Some w ∧
  let U := (SingleLevel.uploadWorld 256 w).1 in
  let shadow := SingleLevel.traceShadow U origin direction in
  (shadow = F32.one ∨ shadow = f32_0_3) ∧
  (shadow = f32_0_3 →
   ∃ x y z v, VoxelWorld.in_bounds w x y z ∧ VoxelWorld.getVoxel x y z w = Some v ∧
              positive (Voxel.a v) = true) ∧
  f32_0_01 = (F32.one / F32.of_Z 100)%f32.
Proof.
  intros origin direction.
  eexists. split; [vm_compute; reflexivity|].
  apply (X26_single_level_shadow _ 256 origin direction).
  - exists 2, (VoxelWorld.mk 2 (TypedArray.mk 8 32 ∅) 0), [VoxelWorld.SetVoxel 1 0 1 9 8 7 255].
    split; [reflexivity | vm_compute; reflexivity].
  - simpl. lia.
Defined.
